(** * GymTrack Pro app-icon generator: a shallow embedding and its properties

    The program under study is [scripts/generate_app_icon.py].  It renders
    three 1024x1024 RGB icons (a radial gradient with a dumbbell glyph on
    top) and writes them as PNG files.

    Conventions of the embedding:
    - Python [int] is [Z]; Python [float] is Rocq's primitive binary64
      [float], whose operations are the IEEE-754 ones Python uses
      (round to nearest, ties to even), specified by [Prim2SF].
    - A Python exception is a [Raise] in the [result] monad.
    - An image is its size together with a total pixel function; drawing
      replaces the pixel function.  Pillow's [ImageDraw] primitives are a
      library outside the repository; their model is stated where they
      are defined. *)

From Stdlib Require Import Reals Lra.
From Stdlib Require Import ZArith List Bool Lia Floats Ascii QArith Qround.
From Stdlib Require Uint63.
From stdpp Require Import gmap strings.
Import ListNotations.

Set Warnings "-inexact-float".
Local Open Scope Z_scope.

(** ** Exceptions and the error monad *)

Inductive exn : Set :=
| ZeroDivisionError
| ValueError
| OverflowError
| IndexError
| OSError.

Inductive result (A : Type) : Type :=
| Ok (a : A)
| Raise (e : exn).
Arguments Ok {A} a.
Arguments Raise {A} e.

Definition rbind {A B : Type} (c : result A) (k : A -> result B) : result B :=
  match c with
  | Ok a => k a
  | Raise e => Raise e
  end.

Notation "'do' x <- c ; k" := (rbind c (fun x => k))
  (at level 10, x name, c at level 100, k at level 200,
   format "'[v' 'do'  x  <-  c ; '/' k ']'").

(** A [for] loop over a list whose body may raise. *)
Fixpoint foldM {A S : Type} (body : S -> A -> result S) (s : S) (l : list A)
  : result S :=
  match l with
  | [] => Ok s
  | a :: l' => do s' <- body s a ; foldM body s' l'
  end.

(** Python's [range(n)]: empty when [n <= 0]. *)
Definition range (n : Z) : list Z :=
  map Z.of_nat (seq 0 (Z.to_nat n)).

(** ** Python numbers *)

Module Py.

(** [float(n)] as applied implicitly in mixed int/float arithmetic:
    correctly rounded, [OverflowError] when the integer is too large. *)
Definition float_of_int (n : Z) : result float :=
  match binary_normalize prec emax n 0 false with
  | S754_infinity _ => Raise OverflowError
  | sf => Ok (SF2Prim sf)
  end.

(** [int(f)]: truncation toward zero; [ValueError] on NaN and
    [OverflowError] on an infinity. *)
Definition int (f : float) : result Z :=
  match Prim2SF f with
  | S754_zero _ => Ok 0
  | S754_finite s m e => Ok (cond_Zopp s (Z.shiftl (Z.pos m) e))
  | S754_infinity _ => Raise OverflowError
  | S754_nan => Raise ValueError
  end.

(** [a / b] on floats: Python raises on a zero divisor. *)
Definition fdiv (a b : float) : result float :=
  if is_zero b then Raise ZeroDivisionError else Ok (a / b)%float.

(** [a / b] on ints (true division).  For operands below [2^53], the
    only ones this program divides, it is the float quotient of the
    converted operands. *)
Definition truediv (a b : Z) : result float :=
  if b =? 0 then Raise ZeroDivisionError
  else do fa <- float_of_int a ; do fb <- float_of_int b ; Ok (fa / fb)%float.

(** [math.sqrt(n)] on an int argument. *)
Definition sqrt_int (n : Z) : result float :=
  do f <- float_of_int n ;
  if n <? 0 then Raise ValueError else Ok (sqrt f).

(** [min(a, b)] keeps its first argument unless the second is smaller. *)
Definition min (a b : float) : float :=
  if (b <? a)%float then b else a.

End Py.

(** ** Colors *)

Definition color : Type := Z * Z * Z.

Inductive color_name : Set :=
| background | card | primary | primary_light | accent | white.

Definition COLORS (k : color_name) : color :=
  match k with
  | background => (15, 23, 42)
  | card => (30, 41, 59)
  | primary => (99, 102, 241)
  | primary_light => (129, 140, 248)
  | accent => (34, 211, 238)
  | white => (248, 250, 252)
  end.

Definition SIZE : Z := 1024.
Definition CENTER : Z := SIZE / 2.

(** One channel of a blend: [int(c1 + (c2 - c1) * ratio)].  The source
    writes this expression once in [interpolate_color] and three times in
    [create_radial_gradient]. *)
Definition lerp (c1 c2 : Z) (ratio : float) : result Z :=
  do d <- Py.float_of_int (c2 - c1) ;
  do a <- Py.float_of_int c1 ;
  Py.int (a + d * ratio)%float.

Definition interpolate_color (color1 color2 : color) (ratio : float)
  : result color :=
  let '(r1, g1, b1) := color1 in
  let '(r2, g2, b2) := color2 in
  do r <- lerp r1 r2 ratio ;
  do g <- lerp g1 g2 ratio ;
  do b <- lerp b1 b2 ratio ;
  Ok (r, g, b).

(** ** Images (Pillow, mode RGB)

    Pillow is not part of the repository.  Its operations used by the
    script are modelled as follows: an RGB pixel stores each channel
    clipped to [0, 255]; [Image.new] refuses a negative size with
    [ValueError], and a size or a channel beyond a C [int] with
    [OverflowError]; pixel assignment needs an index inside the image.
    Memory is not modelled: an image of any accepted size exists. *)

Record image : Type := mkImage {
  width : Z;
  height : Z;
  px : Z -> Z -> color
}.

Definition clip8 (c : Z) : Z := Z.max 0 (Z.min 255 c).

Definition ink (c : color) : color :=
  let '(r, g, b) := c in (clip8 r, clip8 g, clip8 b).

Definition inside (img : image) (x y : Z) : bool :=
  (0 <=? x) && (x <? width img) && (0 <=? y) && (y <? height img).

(** A value that Pillow can take as a C [int]. *)
Definition c_int (n : Z) : bool := (- 2 ^ 31 <=? n) && (n <? 2 ^ 31).

(** [Image.new('RGB', (w, h), c)] *)
Definition Image_new (w h : Z) (c : color) : result image :=
  let '(r, g, b) := c in
  if (w <? 0) || (h <? 0) then Raise ValueError
  else if negb (c_int w && c_int h && c_int r && c_int g && c_int b)
  then Raise OverflowError
  else Ok (mkImage w h (fun _ _ => ink c)).

(** [pixels[x, y] = c] *)
Definition putpixel (img : image) (x y : Z) (c : color) : result image :=
  if inside img x y then
    Ok (mkImage (width img) (height img)
          (fun x' y' => if (x' =? x) && (y' =? y) then ink c else px img x' y'))
  else Raise IndexError.

(** ** Radial gradient (source lines 30-50) *)

(** The body of the inner loop: the color assigned to pixel [(x, y)]. *)
Definition gradient_pixel (size : Z) (center_color edge_color : color)
    (max_dist : float) (x y : Z) : result color :=
  let '(r0, g0, b0) := center_color in
  let '(r1, g1, b1) := edge_color in
  do dist <- Py.sqrt_int ((x - size / 2) ^ 2 + (y - size / 2) ^ 2) ;
  do q <- Py.fdiv dist max_dist ;
  let ratio := Py.min q 1 in
  do r <- lerp r0 r1 ratio ;
  do g <- lerp g0 g1 ratio ;
  do b <- lerp b0 b1 ratio ;
  Ok (r, g, b).

Definition create_radial_gradient (size : Z) (center_color edge_color : color)
  : result image :=
  do img <- Image_new size size center_color ;
  do two <- Py.sqrt_int 2 ;
  do half <- Py.float_of_int (size / 2) ;
  let max_dist := (two * half)%float in
  foldM (fun img y =>
    foldM (fun img x =>
      do c <- gradient_pixel size center_color edge_color max_dist x y ;
      putpixel img x y c)
      img (range size))
    img (range size).

(** ** Drawing primitives (Pillow's ImageDraw)

    Model of the library: [rectangle] fills every pixel of the bounding
    box, both corners included; [ellipse] fills the pixels of the bounding
    box that lie in the ellipse inscribed in it; both leave pixels outside
    the image untouched and store the fill as [ink].  The ellipse is an
    idealisation: Pillow's rasteriser also fills some pixels just
    outside the rim; like the model, it never leaves the box.  Pillow refuses a reversed box with [ValueError]; the model
    draws nothing for one, and the statements about [draw_rounded_rect]
    take radii for which no box is reversed.  A [Draw] object wraps the
    image it draws on; the model also keeps the list of primitives
    issued so far. *)

Definition bbox : Type := Z * Z * Z * Z.

Inductive prim : Type :=
| Rectangle (b : bbox) (fill : color)
| Ellipse (b : bbox) (fill : color).

Definition in_bbox (b : bbox) (x y : Z) : bool :=
  let '(x0, y0, x1, y1) := b in
  (x0 <=? x) && (x <=? x1) && (y0 <=? y) && (y <=? y1).

Definition in_ellipse (b : bbox) (x y : Z) : bool :=
  let '(x0, y0, x1, y1) := b in
  let w := x1 - x0 in
  let h := y1 - y0 in
  in_bbox b x y &&
  ((2 * x - x0 - x1) ^ 2 * h ^ 2 + (2 * y - y0 - y1) ^ 2 * w ^ 2 <=? w ^ 2 * h ^ 2).

Definition covers (p : prim) (x y : Z) : bool :=
  match p with
  | Rectangle b _ => in_bbox b x y
  | Ellipse b _ => in_ellipse b x y
  end.

Definition fill_of (p : prim) : color :=
  match p with
  | Rectangle _ c | Ellipse _ c => c
  end.

Definition paint (p : prim) (img : image) : image :=
  mkImage (width img) (height img)
    (fun x y => if inside img x y && covers p x y then ink (fill_of p)
                else px img x y).

Record Draw : Type := mkDraw {
  im : image;
  calls : list prim
}.

Definition ImageDraw_Draw (img : image) : Draw := mkDraw img [].

Definition issue (draw : Draw) (p : prim) : Draw :=
  mkDraw (paint p (im draw)) (calls draw ++ [p]).

Definition rectangle (draw : Draw) (b : bbox) (fill : color) : Draw :=
  issue draw (Rectangle b fill).

Definition ellipse (draw : Draw) (b : bbox) (fill : color) : Draw :=
  issue draw (Ellipse b fill).

(** ** Rounded rectangle (source lines 58-70) *)

Definition draw_rounded_rect (draw : Draw) (b : bbox) (radius : Z)
    (fill : color) : Draw :=
  let '(x1, y1, x2, y2) := b in
  let draw := rectangle draw (x1 + radius, y1, x2 - radius, y2) fill in
  let draw := rectangle draw (x1, y1 + radius, x2, y2 - radius) fill in
  let draw := ellipse draw (x1, y1, x1 + 2 * radius, y1 + 2 * radius) fill in
  let draw := ellipse draw (x2 - 2 * radius, y1, x2, y1 + 2 * radius) fill in
  let draw := ellipse draw (x1, y2 - 2 * radius, x1 + 2 * radius, y2) fill in
  ellipse draw (x2 - 2 * radius, y2 - 2 * radius, x2, y2) fill.

(** ** Dumbbell (source lines 73-138) *)

Definition bar_height : Z := 60.
Definition bar_width : Z := 400.
Definition weight_width : Z := 120.
Definition weight_height : Z := 280.
Definition weight_radius : Z := 30.
Definition inner_margin : Z := 20.
Definition bar_segments : Z := 20.

Definition cx : Z := CENTER.
Definition cy : Z := CENTER.
Definition bar_left : Z := cx - bar_width / 2.
Definition bar_top : Z := cy - bar_height / 2.
Definition left_weight_left : Z := bar_left - 20.
Definition left_weight_right : Z := left_weight_left + weight_width.
Definition weight_top : Z := cy - weight_height / 2.
Definition weight_bottom : Z := cy + weight_height / 2.
Definition right_weight_right : Z := cx + bar_width / 2 + 20.
Definition right_weight_left : Z := right_weight_right - weight_width.

(** The body of the bar loop (source lines 120-124).  The segment edges
    are floats; Pillow truncates float coordinates to integers. *)
Definition bar_segment (primary_color accent_color : color)
    (segment_width : float) (draw : Draw) (i : Z) : result Draw :=
  do ratio <- Py.truediv i (bar_segments - 1) ;
  do color <- interpolate_color primary_color accent_color ratio ;
  do fi <- Py.float_of_int i ;
  do fl <- Py.float_of_int bar_left ;
  let seg_left := (fl + fi * segment_width)%float in
  do fi1 <- Py.float_of_int (i + 1) ;
  do one <- Py.float_of_int 1 ;
  let seg_right := (fl + fi1 * segment_width + one)%float in
  do x0 <- Py.int seg_left ;
  do x1 <- Py.int seg_right ;
  Ok (rectangle draw (x0, bar_top, x1, bar_top + bar_height) color).

Definition draw_dumbbell_on (draw : Draw) (primary_color accent_color : color)
  : result Draw :=
  let draw :=
    draw_rounded_rect draw
      (left_weight_left, weight_top, left_weight_right, weight_bottom)
      weight_radius primary_color in
  do inner <- interpolate_color primary_color (COLORS primary_light) 0.3 ;
  let draw :=
    draw_rounded_rect draw
      (left_weight_left + inner_margin, weight_top + inner_margin,
       left_weight_right - inner_margin, weight_bottom - inner_margin)
      (weight_radius - 10) inner in
  do segment_width <- Py.truediv bar_width bar_segments ;
  do draw <- foldM (bar_segment primary_color accent_color segment_width)
               draw (range bar_segments) ;
  let draw :=
    draw_rounded_rect draw
      (right_weight_left, weight_top, right_weight_right, weight_bottom)
      weight_radius accent_color in
  do inner <- interpolate_color accent_color (COLORS white) 0.2 ;
  let draw :=
    draw_rounded_rect draw
      (right_weight_left + inner_margin, weight_top + inner_margin,
       right_weight_right - inner_margin, weight_bottom - inner_margin)
      (weight_radius - 10) inner in
  Ok draw.

Definition draw_dumbbell (img : image) (primary_color accent_color : color)
  : result image :=
  do draw <- draw_dumbbell_on (ImageDraw_Draw img) primary_color accent_color ;
  Ok (im draw).

(** ** The three variants (source lines 141-173) *)

Definition generate_main_icon : result image :=
  do img <- create_radial_gradient SIZE (COLORS card) (COLORS background) ;
  draw_dumbbell img (COLORS primary) (COLORS accent).

Definition generate_dark_icon : result image :=
  let dark_center := (20, 30, 50) in
  let dark_edge := (10, 15, 30) in
  do img <- create_radial_gradient SIZE dark_center dark_edge ;
  draw_dumbbell img (COLORS primary_light) (COLORS accent).

Definition generate_tinted_icon : result image :=
  do img <- create_radial_gradient SIZE (60, 60, 60) (30, 30, 30) ;
  draw_dumbbell img (180, 180, 180) (220, 220, 220).

(** ** Writing the files (source lines 176-204)

    The world the script runs in: the project directory (what the two
    [os.path.dirname] calls make of the script's own path), the files on
    disk, and the events in the order they happen.  Whether the file
    system accepts an operation is not the script's to decide: the two
    oracles say which calls it rejects.  A rejected [save] either never
    opens the file or leaves it truncated.  The PNG encoder is a function
    of the image alone, so a written file is represented by its image. *)

Inductive file_data : Type :=
| PNG (img : image)
| Truncated.

Inductive event : Type :=
| Printed (line : string)
| MadeDirs (path : string)
| Saved (path : string).

Inductive fault : Set := OpenFails | WriteFails.

Record world : Type := mkWorld {
  project_dir : string;
  files : gmap string file_data;
  trace : list event;
  makedirs_fails : string -> bool;
  save_fault : string -> option fault
}.

Definition IO (A : Type) : Type := world -> result A * world.

Definition io_bind {A B : Type} (c : IO A) (k : A -> IO B) : IO B :=
  fun w =>
    match c w with
    | (Ok a, w') => k a w'
    | (Raise e, w') => (Raise e, w')
    end.

Notation "'io' x <- c ; k" := (io_bind c (fun x => k))
  (at level 10, x name, c at level 100, k at level 200,
   format "'[v' 'io'  x  <-  c ; '/' k ']'").

Definition io_ret {A : Type} (a : A) : IO A := fun w => (Ok a, w).

Definition lift {A : Type} (r : result A) : IO A := fun w => (r, w).

Definition log (ev : event) (w : world) : world :=
  mkWorld (project_dir w) (files w) (trace w ++ [ev])
          (makedirs_fails w) (save_fault w).

Definition write (path : string) (d : file_data) (w : world) : world :=
  mkWorld (project_dir w) (<[path := d]> (files w)) (trace w)
          (makedirs_fails w) (save_fault w).

Definition print (line : string) : IO unit :=
  fun w => (Ok tt, log (Printed line) w).

(** [os.makedirs(path, exist_ok=True)] *)
Definition os_makedirs (path : string) : IO unit :=
  fun w =>
    if makedirs_fails w path then (Raise OSError, w)
    else (Ok tt, log (MadeDirs path) w).

(** [img.save(path, 'PNG')] *)
Definition save (img : image) (path : string) : IO unit :=
  fun w =>
    match save_fault w path with
    | None => (Ok tt, log (Saved path) (write path (PNG img) w))
    | Some OpenFails => (Raise OSError, w)
    | Some WriteFails => (Raise OSError, write path Truncated w)
    end.

Fixpoint ends_with_sep (s : string) : bool :=
  match s with
  | EmptyString => false
  | String c EmptyString => Ascii.eqb c "/"%char
  | String _ s' => ends_with_sep s'
  end.

(** [os.path.join(a, b)] of [posixpath]. *)
Definition os_path_join (a b : string) : string :=
  if String.prefix "/" b then b
  else if (String.length a =? 0)%nat || ends_with_sep a then String.append a b
  else String.append a (String.append "/" b).

Definition output_dir_of (w : world) : string :=
  os_path_join
    (os_path_join (os_path_join (project_dir w) "gymtrackpromax")
       "Assets.xcassets")
    "AppIcon.appiconset".

Definition main : IO unit :=
  fun w0 =>
    let output_dir := output_dir_of w0 in
    (io _ <- print (String.append "Output directory: " output_dir) ;
     io _ <- os_makedirs output_dir ;
     io _ <- print "Generating main icon..." ;
     io main_icon <- lift generate_main_icon ;
     io _ <- save main_icon (os_path_join output_dir "AppIcon.png") ;
     io _ <- print "  Saved AppIcon.png" ;
     io _ <- print "Generating dark mode icon..." ;
     io dark_icon <- lift generate_dark_icon ;
     io _ <- save dark_icon (os_path_join output_dir "AppIcon-Dark.png") ;
     io _ <- print "  Saved AppIcon-Dark.png" ;
     io _ <- print "Generating tinted icon..." ;
     io tinted_icon <- lift generate_tinted_icon ;
     io _ <- save tinted_icon (os_path_join output_dir "AppIcon-Tinted.png") ;
     io _ <- print "  Saved AppIcon-Tinted.png" ;
     io _ <- print (String "010"%char "All icons generated successfully!") ;
     print (String.append "Icons saved to: " output_dir)) w0.

(** * Definitions used by the statements *)

(** What [k] right shifts of [m0] have made of the shift record. *)
Definition shifted (m0 k : Z) (mrs : shr_record) : Prop :=
  shr_m mrs = m0 / 2 ^ k /\
  (m0 mod 2 ^ k = 0 -> shr_r mrs = false /\ shr_s mrs = false).

Definition magnitude (s : bool) (lo hi : Z) (x : spec_float) : Prop :=
  match x with
  | S754_zero _ => lo <= 0
  | S754_finite s' m e =>
      s' = s /\ e <= 0 /\ lo * 2 ^ (- e) <= Z.pos m <= hi * 2 ^ (- e)
  | _ => False
  end.

Definition in_unit (r : float) : Prop :=
  (0 <=? r)%float = true /\ (r <=? 1)%float = true.

Definition channel (c : Z) : Prop := 0 <= c <= 255.

Definition valid_color (c : color) : Prop :=
  let '(r, g, b) := c in channel r /\ channel g /\ channel b.

Definition between (a b v : Z) : Prop := Z.min a b <= v <= Z.max a b.

Definition color_between (c0 c1 c : color) : Prop :=
  let '(r0, g0, b0) := c0 in
  let '(r1, g1, b1) := c1 in
  let '(r, g, b) := c in
  between r0 r1 r /\ between g0 g1 g /\ between b0 b1 b.

(** [float(n)] without the overflow check. *)
Definition Z2F (n : Z) : float :=
  SF2Prim (binary_normalize prec emax n 0 false).

(** The float that [lerp] hands to [int]. *)
Definition blend (c1 c2 : Z) (ratio : float) : float :=
  (Z2F c1 + Z2F (c2 - c1) * ratio)%float.

(** The exact value of a finite float, as a rational. *)
Definition SF2Q (x : spec_float) : option Q :=
  match x with
  | S754_zero _ => Some 0%Q
  | S754_finite s m e =>
      Some (if 0 <=? e then inject_Z (cond_Zopp s (Z.pos m * 2 ^ e))
            else Qmake (cond_Zopp s (Z.pos m)) (Z.to_pos (2 ^ (- e))))
  | _ => None
  end.

Definition F2Q (f : float) : option Q := SF2Q (Prim2SF f).

(** Rounding toward zero. *)
Definition truncate (q : Q) : Z :=
  if Qle_bool 0 q then Qfloor q else Qceiling q.

(** The image a list of primitives makes of a canvas, first first. *)
Definition replay (l : list prim) (img : image) : image :=
  fold_left (fun i p => paint p i) l img.

(** [d] is [draw] after the primitives [l]. *)
Definition extends (draw d : Draw) (l : list prim) : Prop :=
  im d = replay l (im draw) /\ calls d = calls draw ++ l.

Definition rounded_rect_prims (b : bbox) (radius : Z) (fill : color) : list prim :=
  let '(x1, y1, x2, y2) := b in
  [ Rectangle (x1 + radius, y1, x2 - radius, y2) fill;
    Rectangle (x1, y1 + radius, x2, y2 - radius) fill;
    Ellipse (x1, y1, x1 + 2 * radius, y1 + 2 * radius) fill;
    Ellipse (x2 - 2 * radius, y1, x2, y1 + 2 * radius) fill;
    Ellipse (x1, y2 - 2 * radius, x1 + 2 * radius, y2) fill;
    Ellipse (x2 - 2 * radius, y2 - 2 * radius, x2, y2) fill ].

(** The box a primitive is given. *)
Definition box_of (p : prim) : bbox :=
  match p with
  | Rectangle b _ | Ellipse b _ => b
  end.

(** [b] lies within [outer]. *)
Definition box_within (outer b : bbox) : Prop :=
  let '(X0, Y0, X1, Y1) := outer in
  let '(x0, y0, x1, y1) := b in
  X0 <= x0 /\ x1 <= X1 /\ Y0 <= y0 /\ y1 <= Y1.

(** The left edge of bar segment [i]. *)
Definition seg_left (i : Z) : Z := bar_left + i * (bar_width / bar_segments).

(** The box of bar segment [i]: one unit wider than the segment. *)
Definition segment_box (i : Z) : bbox :=
  (seg_left i, bar_top, seg_left (i + 1) + 1, bar_top + bar_height).

(** The color of bar segment [i]. *)
Definition segment_color (primary_color accent_color : color) (i : Z)
  : result color :=
  do ratio <- Py.truediv i (bar_segments - 1) ;
  interpolate_color primary_color accent_color ratio.

Definition bar_prims (cols : list color) : list prim :=
  zip_with (fun i c => Rectangle (segment_box i) c) (range bar_segments) cols.

Definition left_plate : bbox :=
  (left_weight_left, weight_top, left_weight_right, weight_bottom).
Definition right_plate : bbox :=
  (right_weight_left, weight_top, right_weight_right, weight_bottom).
Definition inset (b : bbox) : bbox :=
  let '(x1, y1, x2, y2) := b in
  (x1 + inner_margin, y1 + inner_margin, x2 - inner_margin, y2 - inner_margin).

(** Everything [draw_dumbbell] draws, in order. *)
Definition dumbbell_prims (primary_color accent_color inner_left : color)
    (cols : list color) (inner_right : color) : list prim :=
  rounded_rect_prims left_plate weight_radius primary_color ++
  rounded_rect_prims (inset left_plate) (weight_radius - 10) inner_left ++
  bar_prims cols ++
  rounded_rect_prims right_plate weight_radius accent_color ++
  rounded_rect_prims (inset right_plate) (weight_radius - 10) inner_right.

(** A float that is not a NaN and not negative. *)
Definition nonneg_sf (x : spec_float) : Prop :=
  match x with
  | S754_zero _ => True
  | S754_infinity s | S754_finite s _ _ => s = false
  | S754_nan => False
  end.

(** The squared distance of a pixel from the center. *)
Definition dist2 (size x y : Z) : Z := (x - size / 2) ^ 2 + (y - size / 2) ^ 2.

(** The ratio [create_radial_gradient] blends with at squared distance
    [d2] from the center. *)
Definition gradient_ratio (size d2 : Z) : float :=
  Py.min (sqrt (Z2F d2) / (sqrt 2 * Z2F (size / 2))) 1.

(** The path of an icon in the output directory. *)
Definition icon_path (w : world) (name : string) : string :=
  os_path_join (output_dir_of w) name.

(** The file system accepts every call of the script. *)
Definition accepts (w : world) : Prop :=
  makedirs_fails w (output_dir_of w) = false /\
  save_fault w (icon_path w "AppIcon.png") = None /\
  save_fault w (icon_path w "AppIcon-Dark.png") = None /\
  save_fault w (icon_path w "AppIcon-Tinted.png") = None.

(** A float that is neither an infinity nor a NaN. *)
Definition finite_float (r : float) : Prop :=
  match Prim2SF r with
  | S754_zero _ | S754_finite _ _ _ => True
  | _ => False
  end.

(** The pixels within [r] of [(cx, cy)]. *)
Definition in_disc (cx cy r x y : Z) : bool :=
  (x - cx) ^ 2 + (y - cy) ^ 2 <=? r ^ 2.

(** The cross of a rounded rectangle: the boxes of its two
    rectangles (source lines 63-64). *)
Definition in_cross (b : bbox) (r x y : Z) : bool :=
  let '(x1, y1, x2, y2) := b in
  in_bbox (x1 + r, y1, x2 - r, y2) x y || in_bbox (x1, y1 + r, x2, y2 - r) x y.

(** The pixels the model fills for a rounded rectangle: the cross, and
    a disc of radius [r] centered [r] inside each corner of the box. *)
Definition in_rounded_rect (b : bbox) (r x y : Z) : bool :=
  let '(x1, y1, x2, y2) := b in
  in_bbox (x1 + r, y1, x2 - r, y2) x y ||
  in_bbox (x1, y1 + r, x2, y2 - r) x y ||
  in_disc (x1 + r) (y1 + r) r x y ||
  in_disc (x2 - r) (y1 + r) r x y ||
  in_disc (x1 + r) (y2 - r) r x y ||
  in_disc (x2 - r) (y2 - r) r x y.

(** The box the twenty bar segments fill together. *)
Definition bar_box : bbox :=
  (bar_left, bar_top, bar_left + bar_width + 1, bar_top + bar_height).

(** The real [2^e]. *)
Definition pow2 (e : Z) : R := powerRZ 2 e.

(** The real a finite float stands for (0 for the others). *)
Definition SF2R (x : spec_float) : R :=
  match x with
  | S754_finite s m e => (IZR (cond_Zopp s (Z.pos m)) * pow2 e)%R
  | _ => 0%R
  end.

(** [located x m e l]: in units of [2^e], the real [x] lies in the
    cell [[m, m + 1)], at the place [l] says: on the lower end, below
    the middle, on it, or above it. *)
Definition located (x : R) (m e : Z) (l : location) : Prop :=
  match l with
  | loc_Exact => (x * pow2 (- e) = IZR m)%R
  | loc_Inexact Lt => (IZR m < x * pow2 (- e) < IZR m + / 2)%R
  | loc_Inexact Eq => (x * pow2 (- e) = IZR m + / 2)%R
  | loc_Inexact Gt => (IZR m + / 2 < x * pow2 (- e) < IZR m + 1)%R
  end.

(** A float that is a zero or finite and positive. *)
Definition finite_nonneg (x : spec_float) : Prop :=
  match x with
  | S754_zero _ | S754_finite false _ _ => True
  | _ => False
  end.

(** [rne x v]: [v] is the real [x] rounded to nearest, ties to even,
    on the grid [2^(k - 53)] of its binade [k]; zero rounds to
    zero.  The binades are the normal ones below [2^1023]. *)
Definition rne (x v : R) : Prop :=
  (x = 0%R /\ v = 0%R) \/
  exists k m l,
    -1021 <= k <= 1023 /\ (pow2 (k - 1) <= x < pow2 k)%R /\
    located x m (k - 53) l /\
    v = (IZR (round_nearest_even m l) * pow2 (k - 53))%R.

(** A ratio the blend is monotone for: zero, or a float from
    [2^-100] to 1. *)
Definition unit_ratio (r : spec_float) : Prop :=
  match r with
  | S754_zero _ => True
  | S754_finite false m e => (pow2 (-100) <= IZR (Z.pos m) * pow2 e <= 1)%R
  | _ => False
  end.

Definition ratio_ordered (i j : Z) : bool :=
  match Py.truediv i (bar_segments - 1), Py.truediv j (bar_segments - 1) with
  | Ok ri, Ok rj =>
      ((ri =? 0) || (0x1p-100 <=? ri))%float && (ri <=? rj)%float
      && (rj <=? 1)%float
  | _, _ => false
  end.

(** * Binary64 rounding

    Facts about the specification of the float operations ([SpecFloat])
    at precision 53: what rounding to nearest does to a value that lies
    between two integers below [2^53]. *)

Lemma digits2_pos_bounds (m : positive) :
  2 ^ (Z.pos (digits2_pos m) - 1) <= Z.pos m < 2 ^ Z.pos (digits2_pos m).
Proof.
  induction m as [m IH | m IH |]; cbn [digits2_pos].
  - rewrite Pos2Z.inj_succ.
    replace (Z.succ (Z.pos (digits2_pos m)) - 1) with (Z.succ (Z.pos (digits2_pos m) - 1)) by lia.
    rewrite !Z.pow_succ_r by lia.
    destruct IH as [IH1 IH2]; revert IH1 IH2.
    generalize (2 ^ (Z.pos (digits2_pos m) - 1)) (2 ^ Z.pos (digits2_pos m)). lia.
  - rewrite Pos2Z.inj_succ.
    replace (Z.succ (Z.pos (digits2_pos m)) - 1) with (Z.succ (Z.pos (digits2_pos m) - 1)) by lia.
    rewrite !Z.pow_succ_r by lia.
    destruct IH as [IH1 IH2]; revert IH1 IH2.
    generalize (2 ^ (Z.pos (digits2_pos m) - 1)) (2 ^ Z.pos (digits2_pos m)). lia.
  - cbn. lia.
Qed.

Lemma shr_1_m (mrs : shr_record) :
  0 <= shr_m mrs ->
  shr_m (shr_1 mrs) = shr_m mrs / 2 /\
  shr_r (shr_1 mrs) = Z.odd (shr_m mrs) /\
  shr_s (shr_1 mrs) = shr_r mrs || shr_s mrs.
Proof.
  destruct mrs as [m r s]; cbn [shr_m shr_r shr_s]; intros Hm.
  destruct m as [| [p | p |] | p]; cbn [shr_1 shr_m shr_r shr_s]; try lia.
  - repeat split; reflexivity.
  - repeat split; try reflexivity.
    apply Z.div_unique with (r := 1); lia.
  - repeat split; try reflexivity.
    apply Z.div_unique with (r := 0); lia.
  - repeat split; reflexivity.
Qed.

Lemma shifted_step (m0 k : Z) (mrs : shr_record) :
  0 <= m0 -> 0 <= k -> shifted m0 k mrs -> shifted m0 (k + 1) (shr_1 mrs).
Proof.
  intros Hm0 Hk [Hm Hrs].
  assert (H2k : 0 < 2 ^ k) by (apply Z.pow_pos_nonneg; lia).
  assert (Hnn : 0 <= shr_m mrs) by (rewrite Hm; apply Z.div_pos; lia).
  destruct (shr_1_m mrs Hnn) as (Hm1 & Hr1 & Hs1).
  split.
  - rewrite Hm1, Hm, Z.pow_add_r, Z.pow_1_r by lia.
    rewrite Z.div_div by lia. reflexivity.
  - intros Hmod. rewrite Z.pow_add_r, Z.pow_1_r in Hmod by lia.
    assert (Hdiv : m0 = 2 ^ k * 2 * (m0 / (2 ^ k * 2))).
    { pose proof (Z.div_mod m0 (2 ^ k * 2)). lia. }
    assert (Hmodk : m0 mod 2 ^ k = 0).
    { rewrite Hdiv. rewrite <- Z.mul_assoc, Z.mul_comm. apply Z.mod_mul. lia. }
    destruct (Hrs Hmodk) as [Hr Hs].
    rewrite Hr1, Hs1, Hr, Hs, Hm. split; [| reflexivity].
    rewrite Hdiv at 1. rewrite <- Z.mul_assoc, Z.mul_comm, Z.div_mul by lia.
    rewrite Z.odd_mul. reflexivity.
Qed.

Lemma shifted_iter (p : positive) :
  forall (m0 k : Z) (mrs : shr_record),
    0 <= m0 -> 0 <= k -> shifted m0 k mrs ->
    shifted m0 (k + Z.pos p) (SpecFloat.iter_pos shr_1 p mrs).
Proof.
  induction p as [p IH | p IH |]; intros m0 k mrs Hm0 Hk H; cbn [SpecFloat.iter_pos].
  - replace (k + Z.pos p~1) with (k + 1 + Z.pos p + Z.pos p) by lia.
    apply IH; try lia. apply IH; try lia. apply shifted_step; assumption.
  - replace (k + Z.pos p~0) with (k + Z.pos p + Z.pos p) by lia.
    apply IH; try lia. apply IH; try lia. assumption.
  - apply shifted_step; assumption.
Qed.

Lemma round_nearest_even_bounds (mrs : shr_record) :
  let m' := round_nearest_even (shr_m mrs) (loc_of_shr_record mrs) in
  shr_m mrs <= m' <= shr_m mrs + 1 /\
  (shr_r mrs = false /\ shr_s mrs = false -> m' = shr_m mrs).
Proof.
  destruct mrs as [m [|] [|]]; cbn; repeat split; try lia; try tauto;
    try (destruct (Z.even m); lia); intros [? ?]; discriminate.
Qed.

Lemma fexp64_eq (z : Z) : fexp prec emax z = Z.max (z - 53) (-1074).
Proof. reflexivity. Qed.

Lemma pow2_pos (k : Z) : 0 <= k -> 0 < 2 ^ k.
Proof. intros; apply Z.pow_pos_nonneg; lia. Qed.

Lemma pow2_split (a b : Z) : 0 <= a -> 0 <= b -> 2 ^ (a + b) = 2 ^ a * 2 ^ b.
Proof. intros; apply Z.pow_add_r; lia. Qed.

Lemma shifted_0 (m : Z) : shifted m 0 (shr_record_of_loc m loc_Exact).
Proof.
  split; cbn [shr_record_of_loc shr_m shr_r shr_s].
  - rewrite Z.pow_0_r, Z.div_1_r. reflexivity.
  - intros _. split; reflexivity.
Qed.

(** The first shift of [binary_round_aux]: the mantissa kept and the
    rounded mantissa, when [n > 0] bits are dropped. *)
Lemma shr_round_bounds (m : Z) (p : positive) (L G : Z) :
  0 <= m ->
  L * 2 ^ Z.pos p <= m <= G * 2 ^ Z.pos p ->
  let mrs := SpecFloat.iter_pos shr_1 p (shr_record_of_loc m loc_Exact) in
  let m2 := round_nearest_even (shr_m mrs) (loc_of_shr_record mrs) in
  shr_m mrs = m / 2 ^ Z.pos p /\ L <= m2 <= G /\ m / 2 ^ Z.pos p <= m2 <= m / 2 ^ Z.pos p + 1.
Proof.
  intros Hm [HL HG] mrs m2.
  assert (Hsh : shifted m (0 + Z.pos p) mrs).
  { apply shifted_iter; try lia. apply shifted_0. }
  rewrite Z.add_0_l in Hsh. destruct Hsh as [Hm1 Hex].
  pose proof (round_nearest_even_bounds mrs) as [Hb Hexact].
  fold m2 in Hb, Hexact.
  pose proof (pow2_pos (Z.pos p) ltac:(lia)) as Hpow.
  pose proof (Z.div_mod m (2 ^ Z.pos p) ltac:(lia)) as Hdm.
  pose proof (Z.mod_pos_bound m (2 ^ Z.pos p) Hpow) as Hmod.
  rewrite Hm1 in Hb, Hexact.
  split; [exact Hm1 |]. split; [| exact Hb].
  split.
  - assert (L <= m / 2 ^ Z.pos p) by (apply Z.div_le_lower_bound; lia). lia.
  - destruct (Z.eq_dec (m mod 2 ^ Z.pos p) 0) as [H0 | H0].
    + rewrite (Hexact (Hex H0)). apply Z.div_le_upper_bound; lia.
    + assert (m / 2 ^ Z.pos p < G); [| lia].
      revert HG Hdm Hmod H0 Hpow.
      generalize (2 ^ Z.pos p) (m mod 2 ^ Z.pos p) (m / 2 ^ Z.pos p).
      intros P r q HG Hdm Hmod H0 Hpow.
      destruct (Z_lt_le_dec q G) as [Hlt | Hge]; [exact Hlt | exfalso].
      assert (G * P <= q * P) by (apply Z.mul_le_mono_nonneg_r; lia). lia.
Qed.

Lemma leb_emax (e : Z) : e <= 0 -> (e <=? emax - prec) = true.
Proof. intros; apply Z.leb_le. change (emax - prec) with 971. lia. Qed.

Lemma binary_round_aux_bounds (s : bool) (m : positive) (e lo hi : Z) :
  e <= 0 -> hi < 2 ^ 53 ->
  lo * 2 ^ (- e) <= Z.pos m <= hi * 2 ^ (- e) ->
  match binary_round_aux prec emax s (Z.pos m) e loc_Exact with
  | S754_zero s' => s' = s /\ lo <= 0
  | S754_finite s' m' e' =>
      s' = s /\ e' <= 0 /\ lo * 2 ^ (- e') <= Z.pos m' <= hi * 2 ^ (- e')
  | _ => False
  end.
Proof.
  intros He Hhi [Hlo Hup].
  pose proof (digits2_pos_bounds m) as [Hd1 Hd2].
  set (d := Z.pos (digits2_pos m)) in *.
  assert (Hd0 : 1 <= d) by (unfold d; lia).
  assert (Hde : d + e <= 53).
  { assert (H : 2 ^ (d - 1) < 2 ^ (53 - e)).
    { apply Z.le_lt_trans with (Z.pos m); [exact Hd1 |].
      apply Z.le_lt_trans with (hi * 2 ^ (- e)); [exact Hup |].
      replace (53 - e) with (53 + - e) by lia. rewrite pow2_split by lia.
      apply Z.mul_lt_mono_pos_r; [apply pow2_pos; lia | lia]. }
    apply Z.pow_lt_mono_r_iff in H; lia. }
  unfold binary_round_aux, shr_fexp.
  cbn [Zdigits2]. fold d.
  rewrite fexp64_eq.
  set (e1 := Z.max (d + e - 53) (-1074)).
  assert (He1 : e1 <= 0 /\ -1074 <= e1 /\ d + e - 53 <= e1) by lia.
  destruct (e1 - e) as [| p | p] eqn:Hn; cbn [shr].
  - cbn [shr_record_of_loc shr_m loc_of_shr_record round_nearest_even Zdigits2].
    fold d. rewrite fexp64_eq. fold e1. rewrite Hn. cbn [shr shr_m].
    rewrite (leb_emax (e)) by lia.
    repeat split; assumption.
  - pose proof (pow2_pos (- e1) ltac:(lia)) as Hpe1.
    assert (Hsplit : 2 ^ (- e) = 2 ^ (- e1) * 2 ^ Z.pos p).
    { rewrite <- pow2_split by lia. f_equal. lia. }
    destruct (shr_round_bounds (Z.pos m) p (lo * 2 ^ (- e1)) (hi * 2 ^ (- e1)))
      as (Hm1 & [HL HG] & [Hr1 Hr2]).
    { lia. }
    { rewrite <- !Z.mul_assoc, <- Hsplit. split; assumption. }
    set (mrs := SpecFloat.iter_pos shr_1 p (shr_record_of_loc (Z.pos m) loc_Exact)) in *.
    set (m2 := round_nearest_even (shr_m mrs) (loc_of_shr_record mrs)) in *.
    replace (e + Z.pos p) with e1 by lia.
    assert (Hm2 : 0 <= m2 <= 2 ^ 53).
    { split.
      - assert (0 <= Z.pos m / 2 ^ Z.pos p) by (apply Z.div_pos; [lia | apply pow2_pos; lia]).
        lia.
      - assert (Z.pos m / 2 ^ Z.pos p < 2 ^ 53); [| lia].
        apply Z.div_lt_upper_bound; [apply pow2_pos; lia |].
        rewrite <- pow2_split by lia.
        apply Z.lt_le_trans with (2 ^ d); [exact Hd2 |].
        apply Z.pow_le_mono_r; lia. }
    destruct m2 as [| q | q] eqn:Hq; [| | lia].
    + cbn [Zdigits2]. rewrite fexp64_eq.
      destruct (Z.max (0 + e1 - 53) (-1074) - e1) as [| p2 | p2] eqn:Hn2; try lia;
        cbn [shr shr_record_of_loc shr_m]; split; try reflexivity; nia.
    + pose proof (digits2_pos_bounds q) as [Hq1 Hq2].
      cbn [Zdigits2]. set (d2 := Z.pos (digits2_pos q)) in *.
      assert (Hd2' : 1 <= d2 <= 54).
      { split; [unfold d2; lia |].
        assert (H : 2 ^ (d2 - 1) < 2 ^ 54).
        { apply Z.le_lt_trans with (Z.pos q); [exact Hq1 |].
          change (2 ^ 54) with (2 * 2 ^ 53). lia. }
        apply Z.pow_lt_mono_r_iff in H; lia. }
      rewrite fexp64_eq.
      destruct (Z.max (d2 + e1 - 53) (-1074) - e1) as [| p2 | p2] eqn:Hn2;
        cbn [shr shr_record_of_loc shr_m].
      * rewrite (leb_emax (e1)) by lia.
        repeat split; lia.
      * assert (p2 = 1%positive) by lia. subst p2.
        assert (Hd54 : d2 = 54) by lia.
        assert (Hq53 : Z.pos q = 2 ^ 53).
        { rewrite Hd54 in Hq1. change (54 - 1) with 53 in Hq1. lia. }
        cbn [SpecFloat.iter_pos].
        destruct q as [q' | q' |]; cbn [shr_1 shr_m]; try (exfalso; cbn in Hq53; lia).
        assert (He1' : e1 + 1 <= 0).
        { destruct (Z.eq_dec e1 0) as [E0 | E0]; [| lia].
          rewrite E0 in HG. cbn in HG. cbn in Hq53. cbn in Hhi. lia. }
        rewrite (leb_emax (e1 + 1)) by lia.
        assert (Hsp : 2 ^ (- e1) = 2 * 2 ^ (- (e1 + 1))).
        { replace (- e1) with (1 + - (e1 + 1)) by lia. rewrite pow2_split by lia. reflexivity. }
        rewrite Hsp in HL, HG.
        assert (Hq' : Z.pos q' = 2 ^ 52).
        { change (2 ^ 53) with (2 * 2 ^ 52) in Hq53. lia. }
        repeat split; lia.
      * rewrite (leb_emax (e1)) by lia.
        repeat split; lia.
  - cbn [shr_record_of_loc shr_m loc_of_shr_record round_nearest_even Zdigits2].
    fold d. rewrite fexp64_eq. fold e1. rewrite Hn. cbn [shr shr_m].
    rewrite (leb_emax (e)) by lia.
    repeat split; assumption.
Qed.

Lemma iter_xO (d m : positive) : Z.pos (Pos.iter xO m d) = Z.pos m * 2 ^ Z.pos d.
Proof.
  induction d as [| d IH] using Pos.peano_ind.
  - cbn. lia.
  - rewrite Pos.iter_succ, Pos2Z.inj_succ, Z.pow_succ_r by lia.
    change (Z.pos (Pos.iter xO m d)~0) with (2 * Z.pos (Pos.iter xO m d)). lia.
Qed.

Lemma shl_align_spec (mx : positive) (ex ex' : Z) :
  let '(mz, ez) := shl_align mx ex ex' in
  ez = Z.min ex ex' /\ Z.pos mz = Z.pos mx * 2 ^ (ex - ez).
Proof.
  unfold shl_align. destruct (ex' - ex) as [| d | d] eqn:Hd.
  - split; [lia |]. rewrite Z.sub_diag. lia.
  - split; [lia |]. rewrite Z.sub_diag. lia.
  - split; [lia |]. rewrite iter_xO. f_equal. f_equal. lia.
Qed.

Lemma binary_round_bounds (s : bool) (m : positive) (e lo hi : Z) :
  e <= 0 -> hi < 2 ^ 53 ->
  lo * 2 ^ (- e) <= Z.pos m <= hi * 2 ^ (- e) ->
  match binary_round prec emax s m e with
  | S754_zero s' => s' = s /\ lo <= 0
  | S754_finite s' m' e' =>
      s' = s /\ e' <= 0 /\ lo * 2 ^ (- e') <= Z.pos m' <= hi * 2 ^ (- e')
  | _ => False
  end.
Proof.
  intros He Hhi [Hlo Hup]. unfold binary_round.
  pose proof (shl_align_spec m e (fexp prec emax (Z.pos (digits2_pos m) + e))) as Hsh.
  destruct (shl_align m e (fexp prec emax (Z.pos (digits2_pos m) + e))) as [mz ez].
  destruct Hsh as [Hez Hmz].
  apply binary_round_aux_bounds; [lia | exact Hhi |].
  assert (Hsplit : 2 ^ (- ez) = 2 ^ (- e) * 2 ^ (e - ez)).
  { rewrite <- pow2_split by lia. f_equal. lia. }
  pose proof (pow2_pos (e - ez) ltac:(lia)).
  rewrite Hmz, Hsplit, !Z.mul_assoc. split; apply Z.mul_le_mono_nonneg_r; lia.
Qed.

(** The sign given to [binary_round] only labels the result. *)
Lemma binary_round_aux_opp (m e : Z) (l : location) :
  binary_round_aux prec emax true m e l = SFopp (binary_round_aux prec emax false m e l).
Proof.
  unfold binary_round_aux.
  destruct (shr_fexp prec emax m e l) as [mrs' e'].
  destruct (shr_fexp prec emax _ e' loc_Exact) as [mrs'' e''].
  destruct (shr_m mrs''); try reflexivity.
  destruct (e'' <=? emax - prec); reflexivity.
Qed.

Lemma binary_round_opp (m : positive) (e : Z) :
  binary_round prec emax true m e = SFopp (binary_round prec emax false m e).
Proof.
  unfold binary_round. destruct (shl_align m e _) as [mz ez].
  apply binary_round_aux_opp.
Qed.

Lemma valid_binary_opp (x : spec_float) : valid_binary (SFopp x) = valid_binary x.
Proof. destruct x; reflexivity. Qed.

(** [binary_normalize] of an integer below [2^63] is what [of_uint63]
    computes, hence a valid float. *)
Lemma binary_normalize_valid (n : Z) :
  - 2 ^ 63 < n < 2 ^ 63 -> valid_binary (binary_normalize prec emax n 0 false) = true.
Proof.
  intros Hn.
  assert (Hpos : forall k, 0 <= k < 2 ^ 63 ->
            valid_binary (binary_normalize prec emax k 0 false) = true).
  { intros k Hk.
    rewrite <- (Prim2SF_valid (of_uint63 (Uint63.of_Z k))), of_uint63_spec.
    rewrite Uint63.of_Z_spec, Z.mod_small; [reflexivity |].
    exact Hk. }
  destruct n as [| p | p].
  - reflexivity.
  - apply Hpos. lia.
  - cbn [binary_normalize]. rewrite binary_round_opp, valid_binary_opp.
    apply (Hpos (Z.pos p)). lia.
Qed.

(** ** Magnitudes

    [magnitude s lo hi x]: the float [x] is finite, and either a zero
    (allowed when [lo <= 0]) or of sign [s] with [lo <= |x| <= hi]. *)

Lemma magnitude_weaken (s : bool) (lo hi lo' hi' : Z) (x : spec_float) :
  lo' <= lo -> hi <= hi' -> magnitude s lo hi x -> magnitude s lo' hi' x.
Proof.
  intros Hl Hh. destruct x as [s0 | s0 | | s0 m e]; cbn; try tauto; try lia.
  intros (Hs & He & H1 & H2). pose proof (pow2_pos (- e) ltac:(lia)).
  repeat split; try assumption.
  - apply Z.le_trans with (lo * 2 ^ (- e)); [apply Z.mul_le_mono_nonneg_r; lia | lia].
  - apply Z.le_trans with (hi * 2 ^ (- e)); [lia | apply Z.mul_le_mono_nonneg_r; lia].
Qed.

Lemma round_aux_magnitude (s : bool) (m : positive) (e lo hi : Z) :
  e <= 0 -> hi < 2 ^ 53 ->
  lo * 2 ^ (- e) <= Z.pos m <= hi * 2 ^ (- e) ->
  magnitude s lo hi (binary_round_aux prec emax s (Z.pos m) e loc_Exact).
Proof.
  intros He Hhi Hb. pose proof (binary_round_aux_bounds s m e lo hi He Hhi Hb) as H.
  destruct (binary_round_aux prec emax s (Z.pos m) e loc_Exact); cbn; tauto.
Qed.

Lemma round_magnitude (s : bool) (m : positive) (e lo hi : Z) :
  e <= 0 -> hi < 2 ^ 53 ->
  lo * 2 ^ (- e) <= Z.pos m <= hi * 2 ^ (- e) ->
  magnitude s lo hi (binary_round prec emax s m e).
Proof.
  intros He Hhi Hb. pose proof (binary_round_bounds s m e lo hi He Hhi Hb) as H.
  destruct (binary_round prec emax s m e); cbn; tauto.
Qed.

(** Rescaling a bound to a smaller exponent. *)
Lemma rescale (x e e' : Z) :
  e' <= e -> e <= 0 -> x * 2 ^ (- e') = x * 2 ^ (- e) * 2 ^ (e - e').
Proof.
  intros H1 H2. rewrite <- Z.mul_assoc, <- pow2_split by lia. do 2 f_equal. lia.
Qed.

(** The product of a float of magnitude exactly [k] with one whose
    magnitude lies in [[rl, rh]]. *)
Lemma SFmul_magnitude (s : bool) (k rl rh : Z) (x r : spec_float) :
  0 <= k -> 0 <= rl -> k * rh < 2 ^ 53 ->
  magnitude s k k x -> magnitude false rl rh r ->
  magnitude s (k * rl) (k * rh) (SF64mul x r).
Proof.
  intros Hk Hrl Hhi Hx Hr. unfold SF64mul.
  destruct x as [sx | sx | | sx mx ex]; cbn in Hx; try contradiction;
    destruct r as [sr | sr | | sr mr er]; cbn in Hr; try contradiction.
  - cbn. nia.
  - cbn. nia.
  - cbn. nia.
  - destruct Hx as (-> & Hex & Hx1 & Hx2). destruct Hr as (-> & Her & Hr1 & Hr2).
    cbn [SFmul]. rewrite xorb_false_r.
    apply round_aux_magnitude; [lia | exact Hhi |].
    assert (Hmx : Z.pos mx = k * 2 ^ (- ex)) by lia.
    pose proof (pow2_pos (- ex) ltac:(lia)).
    pose proof (pow2_pos (- er) ltac:(lia)).
    replace (- (ex + er)) with (- ex + - er) by lia.
    rewrite pow2_split by lia. rewrite Pos2Z.inj_mul, Hmx.
    split.
    + replace (k * rl * (2 ^ (- ex) * 2 ^ (- er)))
        with (k * 2 ^ (- ex) * (rl * 2 ^ (- er))) by ring.
      apply Z.mul_le_mono_nonneg_l; lia.
    + replace (k * rh * (2 ^ (- ex) * 2 ^ (- er)))
        with (k * 2 ^ (- ex) * (rh * 2 ^ (- er))) by ring.
      apply Z.mul_le_mono_nonneg_l; lia.
Qed.

Lemma shl_align_fst (m : positive) (e ez : Z) :
  ez <= e -> Z.pos (fst (shl_align m e ez)) = Z.pos m * 2 ^ (e - ez).
Proof.
  intros H. pose proof (shl_align_spec m e ez) as Hs.
  destruct (shl_align m e ez) as [mz ez']. destruct Hs as [Hez Hmz].
  cbn [fst]. rewrite Hmz. do 2 f_equal. lia.
Qed.

(** Adding to a non-negative float of magnitude exactly [a] a float of
    the same sign whose magnitude lies in [[lo, hi]]. *)
Lemma SFadd_magnitude_pos (a lo hi : Z) (x p : spec_float) :
  0 <= a -> 0 <= lo <= hi -> a + hi < 2 ^ 53 ->
  magnitude false a a x -> magnitude false lo hi p ->
  magnitude false (a + lo) (a + hi) (SF64add x p).
Proof.
  intros Ha [Hlo Hlh] Hhi Hx Hp. unfold SF64add.
  destruct x as [sx | sx | | sx mx ex]; cbn in Hx; try contradiction;
    destruct p as [sp | sp | | sp mp ep]; cbn in Hp; try contradiction.
  - assert (E : SFadd prec emax (S754_zero sx) (S754_zero sp)
                = S754_zero (sx && sp)) by (destruct sx, sp; reflexivity).
    rewrite E. cbn. lia.
  - cbn [SFadd]. destruct Hp as (-> & Hep & Hp1 & Hp2).
    pose proof (pow2_pos (- ep) ltac:(lia)).
    cbn. repeat split; try assumption; nia.
  - cbn [SFadd]. destruct Hx as (-> & Hex & Hx1 & Hx2).
    pose proof (pow2_pos (- ex) ltac:(lia)).
    cbn. repeat split; try assumption; nia.
  - destruct Hx as (-> & Hex & Hx1 & Hx2). destruct Hp as (-> & Hep & Hp1 & Hp2).
    cbn [SFadd cond_Zopp].
    set (ez := Z.min ex ep).
    rewrite !shl_align_fst by (unfold ez; lia).
    assert (Hez : ez <= ex /\ ez <= ep /\ ez <= 0) by (unfold ez; lia).
    pose proof (pow2_pos (ex - ez) ltac:(lia)).
    pose proof (pow2_pos (ep - ez) ltac:(lia)).
    change (Z.pos mx * 2 ^ (ex - ez) + Z.pos mp * 2 ^ (ep - ez))
      with (Z.pos mx * 2 ^ (ex - ez) + Z.pos mp * 2 ^ (ep - ez)).
    assert (Hmx : Z.pos mx = a * 2 ^ (- ex)) by lia.
    remember (Z.pos mx * 2 ^ (ex - ez) + Z.pos mp * 2 ^ (ep - ez)) as M eqn:HM.
    assert (HMb : (a + lo) * 2 ^ (- ez) <= M <= (a + hi) * 2 ^ (- ez)).
    { rewrite !Z.mul_add_distr_r.
      rewrite (rescale a ex ez), (rescale lo ep ez), (rescale hi ep ez) by lia.
      rewrite HM, Hmx. split; apply Z.add_le_mono_l; apply Z.mul_le_mono_nonneg_r; lia. }
    destruct M as [| M | M]; [lia | | lia].
    cbn [binary_normalize]. apply round_magnitude; [lia | exact Hhi | exact HMb].
Qed.

(** Subtracting from a float of magnitude exactly [a] one whose magnitude
    lies in [[lo, hi]], with [hi <= a]. *)
Lemma SFadd_magnitude_neg (a lo hi : Z) (x p : spec_float) :
  0 <= lo <= hi -> hi <= a -> a < 2 ^ 53 ->
  magnitude false a a x -> magnitude true lo hi p ->
  magnitude false (a - hi) (a - lo) (SF64add x p).
Proof.
  intros [Hlo Hlh] Hhi Ha Hx Hp. unfold SF64add.
  destruct x as [sx | sx | | sx mx ex]; cbn in Hx; try contradiction;
    destruct p as [sp | sp | | sp mp ep]; cbn in Hp; try contradiction.
  - assert (E : SFadd prec emax (S754_zero sx) (S754_zero sp)
                = S754_zero (sx && sp)) by (destruct sx, sp; reflexivity).
    rewrite E. cbn. lia.
  - exfalso. destruct Hp as (-> & Hep & Hp1 & Hp2).
    pose proof (pow2_pos (- ep) ltac:(lia)). nia.
  - cbn [SFadd]. destruct Hx as (-> & Hex & Hx1 & Hx2).
    pose proof (pow2_pos (- ex) ltac:(lia)).
    cbn. repeat split; try assumption; nia.
  - destruct Hx as (-> & Hex & Hx1 & Hx2). destruct Hp as (-> & Hep & Hp1 & Hp2).
    cbn [SFadd cond_Zopp].
    set (ez := Z.min ex ep).
    rewrite !shl_align_fst by (unfold ez; lia).
    assert (Hez : ez <= ex /\ ez <= ep /\ ez <= 0) by (unfold ez; lia).
    pose proof (pow2_pos (ex - ez) ltac:(lia)).
    pose proof (pow2_pos (ep - ez) ltac:(lia)).
    pose proof (pow2_pos (- ez) ltac:(lia)).
    assert (Hmx : Z.pos mx = a * 2 ^ (- ex)) by lia.
    remember (Z.pos mx * 2 ^ (ex - ez) + - (Z.pos mp * 2 ^ (ep - ez))) as M eqn:HM.
    assert (HMb : (a - hi) * 2 ^ (- ez) <= M <= (a - lo) * 2 ^ (- ez)).
    { rewrite !Z.mul_sub_distr_r.
      rewrite (rescale a ex ez), (rescale lo ep ez), (rescale hi ep ez) by lia.
      rewrite HM, Hmx.
      assert (lo * 2 ^ (- ep) * 2 ^ (ep - ez) <= Z.pos mp * 2 ^ (ep - ez))
        by (apply Z.mul_le_mono_nonneg_r; lia).
      assert (Z.pos mp * 2 ^ (ep - ez) <= hi * 2 ^ (- ep) * 2 ^ (ep - ez))
        by (apply Z.mul_le_mono_nonneg_r; lia).
      lia. }
    destruct M as [| M | M].
    + cbn. nia.
    + cbn [binary_normalize]. apply round_magnitude; [lia | lia | exact HMb].
    + exfalso. nia.
Qed.

(** ** Python's conversions on small integers *)

Lemma float_of_int_spec (n : Z) :
  - 2 ^ 53 < n < 2 ^ 53 ->
  exists f, Py.float_of_int n = Ok f /\
            magnitude (n <? 0) (Z.abs n) (Z.abs n) (Prim2SF f).
Proof.
  intros Hn. unfold Py.float_of_int.
  assert (Hv : valid_binary (binary_normalize prec emax n 0 false) = true).
  { apply binary_normalize_valid. change (2 ^ 63) with (1024 * 2 ^ 53). lia. }
  assert (Hm : magnitude (n <? 0) (Z.abs n) (Z.abs n)
                 (binary_normalize prec emax n 0 false)).
  { destruct n as [| p | p]; cbn [binary_normalize].
    - cbn. lia.
    - apply round_magnitude; [lia | lia |]. cbn [Z.opp Z.abs]. rewrite Z.pow_0_r. lia.
    - apply round_magnitude; [lia | lia |]. cbn [Z.opp Z.abs]. rewrite Z.pow_0_r. lia. }
  destruct (binary_normalize prec emax n 0 false) as [s | s | | s m e] eqn:E;
    cbn in Hm; try contradiction.
  - exists (SF2Prim (S754_zero s)). split; [reflexivity |].
    rewrite Prim2SF_SF2Prim by exact Hv. exact Hm.
  - exists (SF2Prim (S754_finite s m e)). split; [reflexivity |].
    rewrite Prim2SF_SF2Prim by exact Hv. exact Hm.
Qed.

Lemma int_magnitude (f : float) (s : bool) (lo hi : Z) :
  0 <= lo <= hi -> magnitude s lo hi (Prim2SF f) ->
  exists v, Py.int f = Ok (cond_Zopp s v) /\ lo <= v <= hi.
Proof.
  intros [Hlo Hlh] Hm. unfold Py.int.
  destruct (Prim2SF f) as [s0 | s0 | | s0 m e]; cbn in Hm; try contradiction.
  - exists 0. split; [destruct s; reflexivity | lia].
  - destruct Hm as (-> & He & H1 & H2).
    exists (Z.pos m / 2 ^ (- e)). split.
    + rewrite Z.shiftl_div_pow2 by lia. reflexivity.
    + pose proof (pow2_pos (- e) ltac:(lia)). split.
      * apply Z.div_le_lower_bound; lia.
      * apply Z.div_le_upper_bound; lia.
Qed.

(** ** Ratios in the unit interval *)

Lemma valid_mantissa (m : positive) (e : Z) :
  valid_binary (S754_finite false m e) = true -> Z.pos m < 2 ^ 53.
Proof.
  cbn [valid_binary]. unfold bounded, canonical_mantissa.
  rewrite fexp64_eq. intros H. apply andb_prop in H as [H _].
  apply Z.eqb_eq in H.
  pose proof (digits2_pos_bounds m) as [_ Hd].
  apply Z.lt_le_trans with (1 := Hd). apply Z.pow_le_mono_r; lia.
Qed.

Lemma in_unit_magnitude (r : float) :
  in_unit r -> magnitude false 0 1 (Prim2SF r).
Proof.
  intros [H0 H1]. rewrite leb_spec in H0, H1.
  change (Prim2SF 0) with (S754_zero false) in H0.
  change (Prim2SF 1) with (S754_finite false 4503599627370496 (-52)) in H1.
  pose proof (Prim2SF_valid r) as Hv.
  unfold SFleb, SFcompare in H0, H1.
  destruct (Prim2SF r) as [s | s | | s m e]; cbn [magnitude]; try discriminate.
  - destruct s; discriminate.
  - destruct s; [discriminate |].
    apply valid_mantissa in Hv.
    destruct (Z.compare_spec e (-52)) as [He | He | He]; try discriminate H1.
    + subst e. rewrite Pos.compare_cont_spec in H1. cbn [Pos.switch_Eq] in H1.
      change (2 ^ (- (-52))) with 4503599627370496.
      destruct (Pos.compare_spec m 4503599627370496) as [Hm | Hm | Hm];
        try discriminate H1; clear H0 H1.
      * subst m. split; [reflexivity | split; lia].
      * apply Pos2Z.pos_lt_pos in Hm. split; [reflexivity | split; lia].
    + split; [reflexivity |]. split; [lia |]. split; [lia |].
      apply Z.le_trans with (2 ^ 53); [lia |].
      rewrite Z.mul_1_l. apply Z.pow_le_mono_r; lia.
Qed.

(** ** Bounds on a blended channel *)

Lemma pow2_53 : 2 ^ 53 = 9007199254740992.
Proof. reflexivity. Qed.

(** A blend whose ratio has a magnitude in [[rl, rh]], with
    [0 <= rl <= rh <= 1], lands between the two channel values scaled by
    the bounds of the ratio. *)
Lemma lerp_between (c1 c2 rl rh : Z) (ratio : float) :
  channel c1 -> channel c2 -> 0 <= rl <= rh -> rh <= 1 ->
  magnitude false rl rh (Prim2SF ratio) ->
  exists v, lerp c1 c2 ratio = Ok v /\
            Z.min (c1 + (c2 - c1) * rl) (c1 + (c2 - c1) * rh) <= v
            <= Z.max (c1 + (c2 - c1) * rl) (c1 + (c2 - c1) * rh).
Proof.
  intros H1 H2 Hr Hrh Hm. unfold channel in H1, H2. unfold lerp.
  pose proof pow2_53 as P53.
  destruct (float_of_int_spec (c2 - c1)) as (fd & -> & Hd); [lia |].
  destruct (float_of_int_spec c1) as (fa & -> & Ha); [lia |].
  cbn [rbind].
  replace (c1 <? 0) with false in Ha by (symmetry; apply Z.ltb_ge; lia).
  rewrite Z.abs_eq in Ha by lia.
  pose proof (SFmul_magnitude (c2 - c1 <? 0) (Z.abs (c2 - c1)) rl rh _ _
                ltac:(lia) ltac:(lia) ltac:(nia) Hd Hm) as Hp.
  rewrite <- mul_spec in Hp.
  destruct (Z.ltb_spec (c2 - c1) 0) as [Hneg | Hpos].
  - rewrite Z.abs_neq in Hp by lia.
    pose proof (SFadd_magnitude_neg c1 (- (c2 - c1) * rl) (- (c2 - c1) * rh) _ _
                  ltac:(nia) ltac:(nia) ltac:(lia) Ha Hp) as Hs.
    rewrite <- add_spec in Hs.
    apply int_magnitude in Hs; [| nia]. destruct Hs as (v & Hv & Hb).
    exists v. split; [exact Hv | nia].
  - rewrite Z.abs_eq in Hp by lia.
    pose proof (SFadd_magnitude_pos c1 ((c2 - c1) * rl) ((c2 - c1) * rh) _ _
                  ltac:(lia) ltac:(nia) ltac:(nia) Ha Hp) as Hs.
    rewrite <- add_spec in Hs.
    apply int_magnitude in Hs; [| nia]. destruct Hs as (v & Hv & Hb).
    exists v. split; [exact Hv | nia].
Qed.

Lemma magnitude_zero : magnitude false 0 0 (Prim2SF 0).
Proof. change (Prim2SF 0) with (S754_zero false). cbn. lia. Qed.

Lemma magnitude_one : magnitude false 1 1 (Prim2SF 1).
Proof.
  change (Prim2SF 1) with (S754_finite false 4503599627370496 (-52)).
  cbn [magnitude]. change (2 ^ (- (-52))) with 4503599627370496.
  split; [reflexivity |]. split; lia.
Qed.

Lemma lerp_in_unit (c1 c2 : Z) (ratio : float) :
  channel c1 -> channel c2 -> in_unit ratio ->
  exists v, lerp c1 c2 ratio = Ok v /\ between c1 c2 v.
Proof.
  intros H1 H2 Hr.
  destruct (lerp_between c1 c2 0 1 ratio H1 H2 ltac:(lia) ltac:(lia)
              (in_unit_magnitude ratio Hr)) as (v & Hv & Hb).
  exists v. split; [exact Hv |]. unfold between. lia.
Qed.

Lemma lerp_zero (c1 c2 : Z) : channel c1 -> channel c2 -> lerp c1 c2 0 = Ok c1.
Proof.
  intros H1 H2.
  destruct (lerp_between c1 c2 0 0 0 H1 H2 ltac:(lia) ltac:(lia) magnitude_zero)
    as (v & Hv & Hb).
  rewrite Hv. f_equal. lia.
Qed.

Lemma lerp_one (c1 c2 : Z) : channel c1 -> channel c2 -> lerp c1 c2 1 = Ok c2.
Proof.
  intros H1 H2.
  destruct (lerp_between c1 c2 1 1 1 H1 H2 ltac:(lia) ltac:(lia) magnitude_one)
    as (v & Hv & Hb).
  rewrite Hv. f_equal. lia.
Qed.

(** ** Blends of colors *)

Lemma color_between_valid (c0 c1 c : color) :
  valid_color c0 -> valid_color c1 -> color_between c0 c1 c -> valid_color c.
Proof.
  destruct c0 as [[r0 g0] b0], c1 as [[r1 g1] b1], c as [[r g] b].
  unfold valid_color, color_between, between, channel. lia.
Qed.

Lemma interpolate_color_magnitude (c0 c1 : color) (rl rh : Z) (r : float) :
  valid_color c0 -> valid_color c1 -> 0 <= rl <= rh -> rh <= 1 ->
  magnitude false rl rh (Prim2SF r) ->
  exists c, interpolate_color c0 c1 r = Ok c /\ color_between c0 c1 c /\
            (rh = 0 -> c = c0) /\ (rl = 1 -> c = c1).
Proof.
  destruct c0 as [[r0 g0] b0], c1 as [[r1 g1] b1].
  intros (Hr0 & Hg0 & Hb0) (Hr1 & Hg1 & Hb1) Hrl Hrh Hm.
  unfold interpolate_color.
  destruct (lerp_between r0 r1 rl rh r Hr0 Hr1 Hrl Hrh Hm) as (vr & -> & Hvr).
  destruct (lerp_between g0 g1 rl rh r Hg0 Hg1 Hrl Hrh Hm) as (vg & -> & Hvg).
  destruct (lerp_between b0 b1 rl rh r Hb0 Hb1 Hrl Hrh Hm) as (vb & -> & Hvb).
  exists (vr, vg, vb). cbn [rbind]. split; [reflexivity |].
  unfold channel in *.
  assert (Hcases : (rl = 0 /\ rh = 0) \/ (rl = 0 /\ rh = 1) \/ (rl = 1 /\ rh = 1))
    by lia.
  destruct Hcases as [[-> ->] | [[-> ->] | [-> ->]]];
    (split; [unfold color_between, between; lia |]);
    (split; intros E; try discriminate E; repeat f_equal; lia).
Qed.

Lemma canonical_digits (m : positive) (e : Z) :
  valid_binary (S754_finite false m e) = true ->
  -1074 < e -> 2 ^ 52 <= Z.pos m.
Proof.
  cbn [valid_binary]. unfold bounded, canonical_mantissa.
  rewrite fexp64_eq. intros H He. apply andb_prop in H as [H _].
  apply Z.eqb_eq in H.
  pose proof (digits2_pos_bounds m) as [Hd _].
  replace (Z.pos (digits2_pos m) - 1) with 52 in Hd by lia. exact Hd.
Qed.

(** A valid float of magnitude within [0, 1] is in the unit interval
    for the float comparison. *)
Lemma magnitude_in_unit (r : float) :
  magnitude false 0 1 (Prim2SF r) -> in_unit r.
Proof.
  intros Hm. unfold in_unit. rewrite !FloatAxioms.leb_spec.
  change (Prim2SF 0) with (S754_zero false).
  change (Prim2SF 1) with (S754_finite false 4503599627370496 (-52)).
  pose proof (Prim2SF_valid r) as Hv.
  destruct (Prim2SF r) as [s | s | | s m e]; cbn [magnitude] in Hm;
    try contradiction.
  - split; reflexivity.
  - destruct Hm as (-> & He & _ & Hm).
    split; [reflexivity |]. unfold SFleb, SFcompare.
    destruct (Z.compare_spec e (-52)) as [E | E | E]; [| reflexivity |].
    + subst e. change (2 ^ (- (-52))) with 4503599627370496 in Hm.
      rewrite Pos.compare_cont_spec. cbn [Pos.switch_Eq].
      destruct (Pos.compare_spec m 4503599627370496) as [Hc | Hc | Hc];
        try reflexivity.
      apply Pos2Z.pos_lt_pos in Hc. lia.
    + exfalso. pose proof (canonical_digits m e Hv ltac:(lia)) as Hd.
      assert (2 ^ (- e) < 2 ^ 52) by (apply Z.pow_lt_mono_r; lia). lia.
Qed.

Lemma interpolate_color_unit (c0 c1 : color) (r : float) :
  valid_color c0 -> valid_color c1 -> in_unit r ->
  exists c, interpolate_color c0 c1 r = Ok c /\ color_between c0 c1 c.
Proof.
  intros H0 H1 Hr.
  destruct (interpolate_color_magnitude c0 c1 0 1 r H0 H1 ltac:(lia) ltac:(lia)
              (in_unit_magnitude r Hr)) as (c & Hc & Hb & _).
  exists c. split; assumption.
Qed.

(** * Properties of the program *)

(** ** Color interpolation *)

(** C4: for colors with channels in [0, 255] and a ratio [r] with
    [0 <= r <= 1], [interpolate_color] returns a color each channel of
    which lies between the corresponding channels of its arguments;
    at [r = 0] it returns the first color exactly and at [r = 1] the
    second. *)
Theorem interpolate_color_in_unit (c0 c1 : color) (r : float) :
  valid_color c0 -> valid_color c1 -> in_unit r ->
  (exists c, interpolate_color c0 c1 r = Ok c /\ color_between c0 c1 c) /\
  interpolate_color c0 c1 0 = Ok c0 /\
  interpolate_color c0 c1 1 = Ok c1.
Proof.
  destruct c0 as [[r0 g0] b0], c1 as [[r1 g1] b1].
  intros (Hr0 & Hg0 & Hb0) (Hr1 & Hg1 & Hb1) Hr.
  unfold interpolate_color. split; [| split].
  - destruct (lerp_in_unit r0 r1 r Hr0 Hr1 Hr) as (vr & -> & Hvr).
    destruct (lerp_in_unit g0 g1 r Hg0 Hg1 Hr) as (vg & -> & Hvg).
    destruct (lerp_in_unit b0 b1 r Hb0 Hb1 Hr) as (vb & -> & Hvb).
    exists (vr, vg, vb). split; [reflexivity |]. cbn. tauto.
  - rewrite !lerp_zero by assumption. reflexivity.
  - rewrite !lerp_one by assumption. reflexivity.
Qed.

Lemma interpolate_color_in_unit_witness :
  (exists c, interpolate_color (99, 102, 241) (34, 211, 238) 0.5 = Ok c /\
             color_between (99, 102, 241) (34, 211, 238) c) /\
  interpolate_color (99, 102, 241) (34, 211, 238) 0 = Ok (99, 102, 241) /\
  interpolate_color (99, 102, 241) (34, 211, 238) 1 = Ok (34, 211, 238).
Proof.
  apply (interpolate_color_in_unit (99, 102, 241) (34, 211, 238) 0.5).
  - cbn. unfold channel. lia.
  - cbn. unfold channel. lia.
  - split; reflexivity.
Defined.

(** ** The value a blend truncates *)

Lemma float_of_int_Z2F (n : Z) :
  - 2 ^ 53 < n < 2 ^ 53 -> Py.float_of_int n = Ok (Z2F n).
Proof.
  intros Hn. destruct (float_of_int_spec n Hn) as (f & Hf & _).
  unfold Py.float_of_int, Z2F in *.
  destruct (binary_normalize prec emax n 0 false); try reflexivity.
  discriminate Hf.
Qed.

Lemma truncate_inject_Z (z : Z) : truncate (inject_Z z) = z.
Proof.
  unfold truncate. destruct (Qle_bool 0 (inject_Z z)).
  - apply Qfloor_Z.
  - apply Qceiling_Z.
Qed.

Lemma int_truncate (f : float) :
  match F2Q f with
  | Some q => Py.int f = Ok (truncate q)
  | None => exists e, Py.int f = Raise e
  end.
Proof.
  unfold F2Q, Py.int.
  destruct (Prim2SF f) as [s | s | | s m e]; cbn [SF2Q].
  - reflexivity.
  - eexists; reflexivity.
  - eexists; reflexivity.
  - destruct (Z.leb_spec 0 e) as [He | He].
    + rewrite truncate_inject_Z, Z.shiftl_mul_pow2 by lia.
      destruct s; cbn [cond_Zopp]; reflexivity.
    + rewrite Z.shiftl_div_pow2 by lia.
      pose proof (pow2_pos (- e) ltac:(lia)) as Hp.
      assert (HP : Z.pos (Z.to_pos (2 ^ (- e))) = 2 ^ (- e)) by (apply Z2Pos.id; exact Hp).
      f_equal. unfold truncate, Qle_bool, Qceiling, Qfloor, Qopp.
      cbn [Qnum Qden]. rewrite HP.
      destruct s; cbn [cond_Zopp].
      * replace (0 * 2 ^ (- e) <=? - Z.pos m * 1) with false
          by (symmetry; apply Z.leb_gt; lia).
        rewrite Z.opp_involutive. reflexivity.
      * replace (0 * 2 ^ (- e) <=? Z.pos m * 1) with true by (symmetry; apply Z.leb_le; lia).
        reflexivity.
Qed.

Lemma lerp_blend (c1 c2 : Z) (ratio : float) :
  channel c1 -> channel c2 -> lerp c1 c2 ratio = Py.int (blend c1 c2 ratio).
Proof.
  unfold channel. intros H1 H2. pose proof pow2_53 as P53. unfold lerp, blend.
  rewrite !float_of_int_Z2F by lia. reflexivity.
Qed.

(** C5, as the code has it: for colors with channels in [0, 255] and any
    float ratio, each channel of [interpolate_color] is the binary64
    value of [c1 + (c2 - c1) * ratio] rounded toward zero (Python's
    [int]), not its floor; the two differ when the value is negative
    and not an integer.  When one of the three values is an infinity or
    a NaN the call raises. *)
Theorem interpolate_color_truncates (c0 c1 : color) (ratio : float) :
  valid_color c0 -> valid_color c1 ->
  let '(r0, g0, b0) := c0 in
  let '(r1, g1, b1) := c1 in
  match F2Q (blend r0 r1 ratio), F2Q (blend g0 g1 ratio),
        F2Q (blend b0 b1 ratio) with
  | Some r, Some g, Some b =>
      interpolate_color c0 c1 ratio = Ok (truncate r, truncate g, truncate b)
  | _, _, _ => exists e, interpolate_color c0 c1 ratio = Raise e
  end.
Proof.
  destruct c0 as [[r0 g0] b0], c1 as [[r1 g1] b1].
  intros (Hr0 & Hg0 & Hb0) (Hr1 & Hg1 & Hb1).
  unfold interpolate_color.
  rewrite (lerp_blend r0 r1), (lerp_blend g0 g1), (lerp_blend b0 b1) by assumption.
  pose proof (int_truncate (blend r0 r1 ratio)) as Hr.
  pose proof (int_truncate (blend g0 g1 ratio)) as Hg.
  pose proof (int_truncate (blend b0 b1 ratio)) as Hb.
  destruct (F2Q (blend r0 r1 ratio)) as [r |].
  - rewrite Hr. cbn [rbind].
    destruct (F2Q (blend g0 g1 ratio)) as [g |].
    + rewrite Hg. cbn [rbind].
      destruct (F2Q (blend b0 b1 ratio)) as [b |].
      * rewrite Hb. reflexivity.
      * destruct Hb as [e ->]. exists e. reflexivity.
    + destruct Hg as [e ->]. exists e. reflexivity.
  - destruct Hr as [e ->]. exists e. reflexivity.
Qed.

Lemma interpolate_color_truncates_witness :
  valid_color (0, 0, 0) /\ valid_color (10, 10, 10) /\
  interpolate_color (0, 0, 0) (10, 10, 10) (-0.25) = Ok (-2, -2, -2).
Proof.
  assert (Hv0 : valid_color (0, 0, 0)) by (cbn; unfold channel; lia).
  assert (Hv1 : valid_color (10, 10, 10)) by (cbn; unfold channel; lia).
  split; [exact Hv0 | split; [exact Hv1 |]].
  pose proof (interpolate_color_truncates (0, 0, 0) (10, 10, 10) (-0.25) Hv0 Hv1) as H.
  cbn beta iota in H.
  assert (E : F2Q (blend 0 10 (-0.25))
              = Some (Qmake (-5629499534213120) 2251799813685248))
    by (vm_compute; reflexivity).
  rewrite E in H. exact H.
Defined.

(** C5, as the specification has it, fails: for the ratio -0.25 the
    value blended from 0 and 10 is -2.5, whose floor is -3, and the
    function returns -2. *)
Lemma interpolate_color_not_floor :
  interpolate_color (0, 0, 0) (10, 10, 10) (-0.25) = Ok (-2, -2, -2) /\
  Qfloor (inject_Z 0 + inject_Z (10 - 0) * Qmake (-1) 4) = -3.
Proof. split; vm_compute; reflexivity. Qed.

(** * Drawing *)

Lemma replay_app (l1 l2 : list prim) (img : image) :
  replay (l1 ++ l2) img = replay l2 (replay l1 img).
Proof. unfold replay. apply fold_left_app. Qed.

Lemma replay_size (l : list prim) (img : image) :
  width (replay l img) = width img /\ height (replay l img) = height img.
Proof.
  revert img. induction l as [| p l IH]; intros img; [split; reflexivity |].
  cbn [replay fold_left]. destruct (IH (paint p img)) as [Hw Hh].
  unfold replay in Hw, Hh. rewrite Hw, Hh. split; reflexivity.
Qed.

Lemma inside_replay (l : list prim) (img : image) (x y : Z) :
  inside (replay l img) x y = inside img x y.
Proof.
  unfold inside. destruct (replay_size l img) as [-> ->]. reflexivity.
Qed.

Lemma extends_refl (draw : Draw) : extends draw draw [].
Proof. split; [reflexivity |]. rewrite app_nil_r. reflexivity. Qed.

Lemma extends_issue (draw d : Draw) (l : list prim) (p : prim) :
  extends draw d l -> extends draw (issue d p) (l ++ [p]).
Proof.
  intros [Him Hc]. split; cbn [issue im calls].
  - rewrite replay_app, Him. reflexivity.
  - rewrite Hc, app_assoc. reflexivity.
Qed.

Lemma extends_trans (d0 d1 d2 : Draw) (l1 l2 : list prim) :
  extends d0 d1 l1 -> extends d1 d2 l2 -> extends d0 d2 (l1 ++ l2).
Proof.
  intros [Hi1 Hc1] [Hi2 Hc2]. split.
  - rewrite replay_app, Hi2, Hi1. reflexivity.
  - rewrite Hc2, Hc1, app_assoc. reflexivity.
Qed.

Lemma draw_rounded_rect_extends (draw : Draw) (b : bbox) (radius : Z) (fill : color) :
  extends draw (draw_rounded_rect draw b radius fill)
    (rounded_rect_prims b radius fill).
Proof.
  destruct b as [[[x1 y1] x2] y2]. unfold draw_rounded_rect, rectangle, ellipse.
  split; [reflexivity |].
  cbn [issue calls rounded_rect_prims]. rewrite <- !app_assoc. reflexivity.
Qed.

Lemma in_bbox_spec (x0 y0 x1 y1 x y : Z) :
  in_bbox (x0, y0, x1, y1) x y = true <-> x0 <= x <= x1 /\ y0 <= y <= y1.
Proof. unfold in_bbox. rewrite !andb_true_iff, !Z.leb_le. tauto. Qed.

Lemma covers_in_box (p : prim) (x y : Z) :
  covers p x y = true -> in_bbox (box_of p) x y = true.
Proof.
  destruct p as [b c | b c]; cbn [covers box_of]; [tauto |].
  destruct b as [[[x0 y0] x1] y1]. unfold in_ellipse.
  intros H. apply andb_true_iff in H. tauto.
Qed.

(** A pixel none of the primitives covers keeps its color. *)
Lemma replay_untouched (l : list prim) (img : image) (x y : Z) :
  Forall (fun p => covers p x y = false) l ->
  px (replay l img) x y = px img x y.
Proof.
  intros H. revert img. induction H as [| p l Hp _ IH]; intros img; [reflexivity |].
  cbn [replay fold_left]. unfold replay in IH. rewrite IH.
  cbn [paint px]. rewrite Hp, andb_false_r. reflexivity.
Qed.

(** A pixel outside a box keeps its color under primitives fitted in
    that box. *)
Lemma replay_frame (outer : bbox) (l : list prim) (img : image) (x y : Z) :
  Forall (fun p => box_within outer (box_of p)) l ->
  in_bbox outer x y = false ->
  px (replay l img) x y = px img x y.
Proof.
  intros Hl Hout. apply replay_untouched.
  eapply Forall_impl; [exact Hl |]. intros p Hp. cbn beta.
  destruct (covers p x y) eqn:E; [| reflexivity].
  apply covers_in_box in E. exfalso.
  destruct outer as [[[X0 Y0] X1] Y1]. destruct (box_of p) as [[[x0 y0] x1] y1].
  apply in_bbox_spec in E. cbn in Hp.
  assert (in_bbox (X0, Y0, X1, Y1) x y = true) by (apply in_bbox_spec; lia).
  congruence.
Qed.

(** A pixel that one of the primitives covers, all of one fill, has
    that fill. *)
Lemma replay_covered (l : list prim) (fill : color) (img : image) (x y : Z) :
  Forall (fun p => fill_of p = fill) l ->
  inside img x y = true ->
  Exists (fun p => covers p x y = true) l ->
  px (replay l img) x y = ink fill.
Proof.
  intros Hf Hin Hex. revert img Hin.
  assert (Hkeep : forall l', Forall (fun p => fill_of p = fill) l' ->
            forall img', px img' x y = ink fill -> px (replay l' img') x y = ink fill).
  { intros l' Hl'. induction Hl' as [| p l' Hp _ IH]; intros img' H; [exact H |].
    cbn [replay fold_left]. apply IH. cbn [paint px]. rewrite Hp.
    destruct (inside img' x y && covers p x y); [reflexivity | exact H]. }
  induction Hex as [p l Hp | p l _ IH]; intros img Hin.
  - cbn [replay fold_left]. apply Hkeep; [inversion Hf; assumption |].
    cbn [paint px]. rewrite Hin, Hp. cbn. inversion Hf; subst. reflexivity.
  - cbn [replay fold_left]. apply IH; [inversion Hf; assumption |].
    exact Hin.
Qed.

Lemma clip8_channel (c : Z) : channel c -> clip8 c = c.
Proof. unfold channel, clip8. lia. Qed.

Lemma ink_valid (c : color) : valid_color c -> ink c = c.
Proof.
  destruct c as [[r g] b]. intros (Hr & Hg & Hb). cbn [ink].
  rewrite !clip8_channel by assumption. reflexivity.
Qed.

(** An ellipse leaves the four corners of its box alone. *)
Lemma in_ellipse_corner (x0 y0 x1 y1 x y : Z) :
  x0 < x1 -> y0 < y1 -> (x = x0 \/ x = x1) -> (y = y0 \/ y = y1) ->
  in_ellipse (x0, y0, x1, y1) x y = false.
Proof.
  intros Hx Hy Hcx Hcy. unfold in_ellipse. apply andb_false_iff. right.
  apply Z.leb_gt.
  assert (Hw : 0 < (x1 - x0) ^ 2 * (y1 - y0) ^ 2).
  { apply Z.mul_pos_pos; apply Z.pow_pos_nonneg; lia. }
  assert (Ex : (2 * x - x0 - x1) ^ 2 = (x1 - x0) ^ 2).
  { destruct Hcx; subst x; ring. }
  assert (Ey : (2 * y - y0 - y1) ^ 2 = (y1 - y0) ^ 2).
  { destruct Hcy; subst y; ring. }
  rewrite Ex, Ey. lia.
Qed.

Lemma in_ellipse_outside (b : bbox) (x y : Z) :
  in_bbox b x y = false -> in_ellipse b x y = false.
Proof.
  destruct b as [[[x0 y0] x1] y1]. unfold in_ellipse. intros ->. reflexivity.
Qed.

Lemma in_bbox_false (x0 y0 x1 y1 x y : Z) :
  x < x0 \/ x1 < x \/ y < y0 \/ y1 < y -> in_bbox (x0, y0, x1, y1) x y = false.
Proof.
  intros H. apply not_true_is_false. rewrite in_bbox_spec. lia.
Qed.

Lemma in_bbox_true (x0 y0 x1 y1 x y : Z) :
  x0 <= x <= x1 -> y0 <= y <= y1 -> in_bbox (x0, y0, x1, y1) x y = true.
Proof. intros. apply in_bbox_spec. lia. Qed.

Lemma inside_true (img : image) (x y : Z) :
  0 <= x < width img -> 0 <= y < height img -> inside img x y = true.
Proof.
  intros Hx Hy. unfold inside.
  rewrite !andb_true_iff, !Z.leb_le, !Z.ltb_lt. lia.
Qed.

Lemma rounded_rect_fill (b : bbox) (radius : Z) (fill : color) :
  Forall (fun p => fill_of p = fill) (rounded_rect_prims b radius fill).
Proof.
  destruct b as [[[x1 y1] x2] y2]. cbn [rounded_rect_prims].
  repeat constructor.
Qed.

(** Decides that a primitive misses a pixel: a rectangle by its box, an
    ellipse by its box or because the pixel is a corner of the box. *)
Ltac misses :=
  cbn [covers];
  first [ apply in_bbox_false; lia
        | apply in_ellipse_outside; apply in_bbox_false; lia
        | apply in_ellipse_corner; lia ].

(** ** Rounded rectangles *)

(** C7, as the code has it: for a box inside the image, a radius of at
    least 1 with [2 * radius] below the width and the height of the box,
    and a fill that differs from every pixel of the background, the four
    corner pixels of the box do not have the fill color after
    [draw_rounded_rect] and the midpoints of its four edges have it. *)
Theorem draw_rounded_rect_shape (draw : Draw) (x1 y1 x2 y2 radius : Z)
    (fill : color) :
  valid_color fill ->
  1 <= radius -> 2 * radius < Z.min (x2 - x1) (y2 - y1) ->
  0 <= x1 -> 0 <= y1 -> x2 < width (im draw) -> y2 < height (im draw) ->
  (forall x y, px (im draw) x y <> fill) ->
  let img' := im (draw_rounded_rect draw (x1, y1, x2, y2) radius fill) in
  (px img' x1 y1 <> fill /\ px img' x2 y1 <> fill /\
   px img' x1 y2 <> fill /\ px img' x2 y2 <> fill) /\
  (px img' ((x1 + x2) / 2) y1 = fill /\ px img' ((x1 + x2) / 2) y2 = fill /\
   px img' x1 ((y1 + y2) / 2) = fill /\ px img' x2 ((y1 + y2) / 2) = fill).
Proof.
  intros Hfill Hr H2r Hx1 Hy1 Hx2 Hy2 Hbg img'.
  destruct (draw_rounded_rect_extends draw (x1, y1, x2, y2) radius fill) as [Him _].
  unfold img'. rewrite Him. clear img' Him.
  assert (Hcorner : forall x y, (x = x1 \/ x = x2) -> (y = y1 \/ y = y2) ->
            px (replay (rounded_rect_prims (x1, y1, x2, y2) radius fill) (im draw)) x y
            <> fill).
  { intros x y Hx Hy. rewrite replay_untouched; [apply Hbg |].
    cbn [rounded_rect_prims].
    destruct Hx as [-> | ->], Hy as [-> | ->]; repeat constructor; misses. }
  assert (Hmid : forall x y,
            0 <= x < width (im draw) -> 0 <= y < height (im draw) ->
            (x1 + radius <= x <= x2 - radius /\ y1 <= y <= y2) \/
            (x1 <= x <= x2 /\ y1 + radius <= y <= y2 - radius) ->
            px (replay (rounded_rect_prims (x1, y1, x2, y2) radius fill) (im draw)) x y
            = fill).
  { intros x y Hx Hy Hc.
    rewrite (replay_covered _ fill); [apply ink_valid; exact Hfill | | |].
    - apply rounded_rect_fill.
    - apply inside_true; assumption.
    - cbn [rounded_rect_prims]. destruct Hc as [Hc | Hc].
      + apply Exists_cons_hd. cbn [covers]. apply in_bbox_true; lia.
      + apply Exists_cons_tl, Exists_cons_hd. cbn [covers]. apply in_bbox_true; lia. }
  assert (Hmx : 2 * ((x1 + x2) / 2) <= x1 + x2 < 2 * ((x1 + x2) / 2) + 2).
  { pose proof (Z.div_mod (x1 + x2) 2 ltac:(lia)).
    pose proof (Z.mod_pos_bound (x1 + x2) 2 ltac:(lia)). lia. }
  assert (Hmy : 2 * ((y1 + y2) / 2) <= y1 + y2 < 2 * ((y1 + y2) / 2) + 2).
  { pose proof (Z.div_mod (y1 + y2) 2 ltac:(lia)).
    pose proof (Z.mod_pos_bound (y1 + y2) 2 ltac:(lia)). lia. }
  revert Hmx Hmy. generalize ((x1 + x2) / 2) ((y1 + y2) / 2). intros mx my Hmx Hmy.
  split.
  - repeat split; apply Hcorner; auto.
  - repeat split; apply Hmid; lia.
Qed.

Lemma draw_rounded_rect_shape_witness :
  let draw := ImageDraw_Draw (mkImage 10 10 (fun _ _ => (0, 0, 0))) in
  let img' := im (draw_rounded_rect draw (2, 2, 8, 8) 2 (255, 255, 255)) in
  (px img' 2 2 <> (255, 255, 255) /\ px img' 8 2 <> (255, 255, 255) /\
   px img' 2 8 <> (255, 255, 255) /\ px img' 8 8 <> (255, 255, 255)) /\
  (px img' ((2 + 8) / 2) 2 = (255, 255, 255) /\
   px img' ((2 + 8) / 2) 8 = (255, 255, 255) /\
   px img' 2 ((2 + 8) / 2) = (255, 255, 255) /\
   px img' 8 ((2 + 8) / 2) = (255, 255, 255)).
Proof.
  apply (draw_rounded_rect_shape
           (ImageDraw_Draw (mkImage 10 10 (fun _ _ => (0, 0, 0))))
           2 2 8 8 2 (255, 255, 255)); cbn; unfold channel; try lia.
  intros _ _. discriminate.
Defined.

(** C7, as the specification has it, fails at radius 0, where the two
    rectangles already fill the whole box: the corner pixel takes the
    fill color. *)
Lemma draw_rounded_rect_radius_0 :
  2 * 0 < Z.min (8 - 2) (8 - 2) /\
  px (im (draw_rounded_rect
            (ImageDraw_Draw (mkImage 10 10 (fun _ _ => (0, 0, 0))))
            (2, 2, 8, 8) 0 (255, 255, 255))) 2 2
  = (255, 255, 255).
Proof. split; [lia | reflexivity]. Qed.

(** * The dumbbell *)

Lemma Forall_range (n : Z) (P : Z -> Prop) :
  Forall P (range n) <-> forall i, 0 <= i < n -> P i.
Proof.
  unfold range. rewrite Forall_forall. split.
  - intros H i Hi. apply H. apply list_elem_of_In, in_map_iff.
    exists (Z.to_nat i). split; [lia |]. apply in_seq. lia.
  - intros H i Hi. apply list_elem_of_In, in_map_iff in Hi.
    destruct Hi as (k & <- & Hk). apply in_seq in Hk. apply H. lia.
Qed.

Lemma range_20 :
  range bar_segments
  = [0; 1; 2; 3; 4; 5; 6; 7; 8; 9; 10; 11; 12; 13; 14; 15; 16; 17; 18; 19].
Proof. reflexivity. Qed.

(** One pass of the bar loop draws the box of its segment in the color
    of its segment. *)
Lemma bar_segment_spec (primary_color accent_color : color) :
  valid_color primary_color -> valid_color accent_color ->
  forall i, 0 <= i < bar_segments ->
  forall draw, exists c,
    segment_color primary_color accent_color i = Ok c /\
    bar_segment primary_color accent_color 20 draw i
    = Ok (rectangle draw (segment_box i) c).
Proof.
  intros Hp Ha. refine (proj1 (Forall_range bar_segments _) _). rewrite range_20.
  repeat constructor; intros draw; unfold segment_color, bar_segment;
    (destruct (Py.truediv _ (bar_segments - 1)) as [ratio |] eqn:Er;
       vm_compute in Er; [| discriminate Er]);
    injection Er as <-; cbn [rbind];
    (lazymatch goal with
     | |- context [interpolate_color _ _ ?r] =>
         destruct (interpolate_color_unit primary_color accent_color r Hp Ha)
           as (c & Hc & _); [split; vm_compute; reflexivity |];
         rewrite Hc; cbn [rbind]; exists c; split; [reflexivity |];
         vm_compute; reflexivity
     end).
Qed.

Lemma bar_loop (primary_color accent_color : color) (l : list Z) :
  valid_color primary_color -> valid_color accent_color ->
  Forall (fun i => 0 <= i < bar_segments) l ->
  forall draw, exists d cols,
    foldM (bar_segment primary_color accent_color 20) draw l = Ok d /\
    Forall2 (fun i c => segment_color primary_color accent_color i = Ok c) l cols /\
    extends draw d (zip_with (fun i c => Rectangle (segment_box i) c) l cols).
Proof.
  intros Hp Ha Hl. induction Hl as [| i l Hi _ IH]; intros draw.
  - exists draw, []. split; [reflexivity |]. split; [constructor |].
    apply extends_refl.
  - destruct (bar_segment_spec _ _ Hp Ha i Hi draw) as (c & Hc & Hstep).
    destruct (IH (rectangle draw (segment_box i) c)) as (d & cols & Hd & Hcols & Hext).
    exists d, (c :: cols). cbn [foldM]. rewrite Hstep. cbn [rbind].
    split; [exact Hd |]. split; [constructor; assumption |].
    cbn [zip_with].
    apply (extends_trans draw (rectangle draw (segment_box i) c) d
             [Rectangle (segment_box i) c]); [| exact Hext].
    apply (extends_issue draw draw []). apply extends_refl.
Qed.

Lemma valid_palette (k : color_name) : valid_color (COLORS k).
Proof. destruct k; cbn; unfold channel; lia. Qed.

Lemma segment_width_20 : Py.truediv bar_width bar_segments = Ok 20%float.
Proof. reflexivity. Qed.

(** What [draw_dumbbell] issues: the left plate and its inset, the
    twenty bar segments, the right plate and its inset. *)
Lemma draw_dumbbell_on_spec (draw : Draw) (primary_color accent_color : color) :
  valid_color primary_color -> valid_color accent_color ->
  exists inner_left cols inner_right d,
    interpolate_color primary_color (COLORS primary_light) 0.3 = Ok inner_left /\
    Forall2 (fun i c => segment_color primary_color accent_color i = Ok c)
      (range bar_segments) cols /\
    interpolate_color accent_color (COLORS white) 0.2 = Ok inner_right /\
    draw_dumbbell_on draw primary_color accent_color = Ok d /\
    extends draw d
      (dumbbell_prims primary_color accent_color inner_left cols inner_right).
Proof.
  intros Hp Ha. unfold draw_dumbbell_on.
  destruct (interpolate_color_unit primary_color (COLORS primary_light) 0.3 Hp
              (valid_palette _)) as (il & Hil & _); [split; reflexivity |].
  destruct (interpolate_color_unit accent_color (COLORS white) 0.2 Ha
              (valid_palette _)) as (ir & Hir & _); [split; reflexivity |].
  rewrite Hil, segment_width_20. cbn [rbind].
  set (d1 := draw_rounded_rect draw _ weight_radius primary_color).
  set (d2 := draw_rounded_rect d1 _ (weight_radius - 10) il).
  destruct (bar_loop primary_color accent_color (range bar_segments) Hp Ha
              (proj2 (Forall_range _ _) (fun i H => H)) d2)
    as (d3 & cols & Hd3 & Hcols & Hext3).
  rewrite Hd3, Hir. cbn [rbind].
  set (d4 := draw_rounded_rect d3 _ weight_radius accent_color).
  eexists il, cols, ir, _.
  split; [reflexivity |]. split; [exact Hcols |]. split; [reflexivity |].
  split; [reflexivity |].
  unfold dumbbell_prims.
  eapply extends_trans; [apply draw_rounded_rect_extends |].
  eapply extends_trans; [apply draw_rounded_rect_extends |].
  eapply extends_trans; [exact Hext3 |].
  eapply extends_trans; [apply draw_rounded_rect_extends |].
  apply draw_rounded_rect_extends.
Qed.

Lemma bar_prims_within (l : list Z) (cols : list color) :
  Forall (fun i => 0 <= i < bar_segments) l ->
  Forall (fun p => box_within (292, 372, 732, 652) (box_of p))
    (zip_with (fun i c => Rectangle (segment_box i) c) l cols).
Proof.
  intros Hl. revert cols. induction Hl as [| i l Hi _ IH]; intros cols.
  - constructor.
  - destruct cols as [| c cols]; cbn [zip_with]; constructor; [| apply IH].
    cbn [box_of]. unfold segment_box, seg_left, box_within.
    change bar_segments with 20 in Hi.
    change (bar_width / bar_segments) with 20. change bar_left with 312.
    change bar_top with 482. change bar_height with 60. lia.
Qed.

Lemma dumbbell_prims_within (p a il : color) (cols : list color) (ir : color) :
  Forall (fun q => box_within (292, 372, 732, 652) (box_of q))
    (dumbbell_prims p a il cols ir).
Proof.
  unfold dumbbell_prims. rewrite !Forall_app.
  split; [| split; [| split; [| split]]];
    try (apply bar_prims_within; apply Forall_range; intros i H; exact H);
    unfold left_plate, right_plate, inset; cbn [rounded_rect_prims];
    repeat (apply List.Forall_cons;
            [cbn [box_of]; unfold box_within;
             repeat split; apply Z.leb_le; reflexivity |]);
    apply List.Forall_nil.
Qed.

Lemma draw_dumbbell_spec (img : image) (p a : color) :
  valid_color p -> valid_color a ->
  exists il cols ir,
    draw_dumbbell img p a = Ok (replay (dumbbell_prims p a il cols ir) img).
Proof.
  intros Hp Ha.
  destruct (draw_dumbbell_on_spec (ImageDraw_Draw img) p a Hp Ha)
    as (il & cols & ir & d & _ & _ & _ & Hd & Him & _).
  exists il, cols, ir. unfold draw_dumbbell. rewrite Hd. cbn [rbind].
  rewrite Him. reflexivity.
Qed.

(** C10: [draw_dumbbell] returns an image of the same size in which
    every pixel outside the rectangle from (292, 372) to (732, 652)
    has the color it had before. *)
Theorem draw_dumbbell_frame (img : image) (primary_color accent_color : color) :
  valid_color primary_color -> valid_color accent_color ->
  exists img',
    draw_dumbbell img primary_color accent_color = Ok img' /\
    width img' = width img /\ height img' = height img /\
    forall x y, ~ (292 <= x <= 732 /\ 372 <= y <= 652) ->
                px img' x y = px img x y.
Proof.
  intros Hp Ha.
  destruct (draw_dumbbell_spec img _ _ Hp Ha) as (il & cols & ir & Himg).
  eexists. split; [exact Himg |].
  destruct (replay_size (dumbbell_prims primary_color accent_color il cols ir) img)
    as [Hw Hh].
  split; [exact Hw |]. split; [exact Hh |].
  intros x y Hout. apply (replay_frame (292, 372, 732, 652)).
  - apply dumbbell_prims_within.
  - apply not_true_is_false. rewrite in_bbox_spec. exact Hout.
Qed.

Lemma draw_dumbbell_frame_witness :
  exists img',
    draw_dumbbell (mkImage 1024 1024 (fun _ _ => (60, 60, 60)))
      (180, 180, 180) (220, 220, 220) = Ok img' /\
    width img' = 1024 /\ height img' = 1024 /\
    forall x y, ~ (292 <= x <= 732 /\ 372 <= y <= 652) ->
                px img' x y = (60, 60, 60).
Proof.
  apply (draw_dumbbell_frame (mkImage 1024 1024 (fun _ _ => (60, 60, 60)))
           (180, 180, 180) (220, 220, 220)); cbn; unfold channel; lia.
Defined.

(** C2: whatever the image and the accent color, the six primitives that
    make the inset of the left plate are filled with the blend of the
    primary color and the palette's [primary_light] (129, 140, 248) at
    ratio 0.3; for the gray (180, 180, 180) of the tinted variant that
    fill is (164, 168, 200). *)
Theorem left_inset_fill (primary_color : color) :
  valid_color primary_color ->
  exists inner,
    interpolate_color primary_color (129, 140, 248) 0.3 = Ok inner /\
    (forall img accent_color, valid_color accent_color ->
       exists d,
         draw_dumbbell_on (ImageDraw_Draw img) primary_color accent_color = Ok d /\
         firstn 6 (skipn 6 (calls d))
         = rounded_rect_prims (312, 392, 392, 632) 20 inner) /\
    interpolate_color (180, 180, 180) (129, 140, 248) 0.3 = Ok (164, 168, 200).
Proof.
  intros Hp.
  destruct (interpolate_color_unit primary_color (COLORS primary_light) 0.3 Hp
              (valid_palette _)) as (il & Hil & _); [split; reflexivity |].
  exists il. split; [exact Hil |]. split; [| reflexivity].
  intros img a Ha.
  destruct (draw_dumbbell_on_spec (ImageDraw_Draw img) primary_color a Hp Ha)
    as (il' & cols & ir & d & Hil' & _ & _ & Hd & _ & Hc).
  rewrite Hil in Hil'. injection Hil' as <-.
  exists d. split; [exact Hd |]. rewrite Hc. reflexivity.
Qed.

Lemma left_inset_fill_witness :
  exists inner,
    interpolate_color (99, 102, 241) (129, 140, 248) 0.3 = Ok inner /\
    (forall img accent_color, valid_color accent_color ->
       exists d,
         draw_dumbbell_on (ImageDraw_Draw img) (99, 102, 241) accent_color = Ok d /\
         firstn 6 (skipn 6 (calls d))
         = rounded_rect_prims (312, 392, 392, 632) 20 inner) /\
    interpolate_color (180, 180, 180) (129, 140, 248) 0.3 = Ok (164, 168, 200).
Proof.
  apply (left_inset_fill (99, 102, 241)). cbn. unfold channel. lia.
Defined.

Lemma range_lookup (n : Z) (i : nat) :
  (i < Z.to_nat n)%nat -> range n !! i = Some (Z.of_nat i).
Proof.
  intros H. unfold range. rewrite list_lookup_fmap.
  rewrite lookup_seq_lt by exact H. reflexivity.
Qed.

(** C6: the bar is 20 segments of width 20 = 400 / 20; the primitive
    issued for segment [i] (the one after the twelve of the left plate)
    is a rectangle from the left edge of the segment to one unit past
    the left edge of the next, filled with the blend of the primary and
    the accent color at ratio [i / 19]. *)
Theorem bar_gradient (img : image) (primary_color accent_color : color) :
  valid_color primary_color -> valid_color accent_color ->
  bar_width = bar_segments * 20 /\
  exists d,
    draw_dumbbell_on (ImageDraw_Draw img) primary_color accent_color = Ok d /\
    forall i, 0 <= i < bar_segments ->
      exists ratio c,
        Py.truediv i 19 = Ok ratio /\
        interpolate_color primary_color accent_color ratio = Ok c /\
        calls d !! (12 + Z.to_nat i)%nat
        = Some (Rectangle (bar_left + i * 20, bar_top,
                           bar_left + (i + 1) * 20 + 1, bar_top + bar_height) c).
Proof.
  intros Hp Ha. split; [reflexivity |].
  destruct (draw_dumbbell_on_spec (ImageDraw_Draw img) _ _ Hp Ha)
    as (il & cols & ir & d & _ & Hcols & _ & Hd & _ & Hc).
  exists d. split; [exact Hd |]. intros i Hi.
  assert (Hr : range bar_segments !! Z.to_nat i = Some i).
  { rewrite range_lookup by (change bar_segments with 20 in *; lia).
    f_equal. lia. }
  destruct (Forall2_lookup_l _ _ _ _ _ Hcols Hr) as (c & Hci & Hseg).
  unfold segment_color in Hseg. change (bar_segments - 1) with 19 in Hseg.
  destruct (Py.truediv i 19) as [ratio |]; [| discriminate Hseg].
  cbn [rbind] in Hseg. exists ratio, c. split; [reflexivity |].
  split; [exact Hseg |].
  rewrite Hc. change (calls (ImageDraw_Draw img)) with (@nil prim).
  rewrite app_nil_l. unfold dumbbell_prims. rewrite app_assoc.
  rewrite lookup_app_r by (unfold left_plate, inset; cbn [rounded_rect_prims length app]; lia).
  replace (12 + Z.to_nat i - _)%nat with (Z.to_nat i)
    by (unfold left_plate, inset; cbn [rounded_rect_prims length app]; lia).
  rewrite lookup_app_l.
  - unfold bar_prims. rewrite lookup_zip_with, Hr, Hci. reflexivity.
  - unfold bar_prims. rewrite length_zip_with.
    apply Forall2_length in Hcols. rewrite <- Hcols, Nat.min_id.
    unfold range. rewrite length_map, length_seq.
    change bar_segments with 20 in *. lia.
Qed.

Lemma bar_gradient_witness :
  bar_width = bar_segments * 20 /\
  exists d,
    draw_dumbbell_on (ImageDraw_Draw (mkImage 1024 1024 (fun _ _ => (0, 0, 0))))
      (99, 102, 241) (34, 211, 238) = Ok d /\
    forall i, 0 <= i < bar_segments ->
      exists ratio c,
        Py.truediv i 19 = Ok ratio /\
        interpolate_color (99, 102, 241) (34, 211, 238) ratio = Ok c /\
        calls d !! (12 + Z.to_nat i)%nat
        = Some (Rectangle (bar_left + i * 20, bar_top,
                           bar_left + (i + 1) * 20 + 1, bar_top + bar_height) c).
Proof.
  apply (bar_gradient (mkImage 1024 1024 (fun _ _ => (0, 0, 0)))
           (99, 102, 241) (34, 211, 238)); cbn; unfold channel; lia.
Defined.

(** * The gradient loops *)

Lemma foldM_app {A S : Type} (body : S -> A -> result S) (s : S) (l1 l2 : list A) :
  foldM body s (l1 ++ l2) = do s' <- foldM body s l1 ; foldM body s' l2.
Proof.
  revert s. induction l1 as [| a l1 IH]; intros s; [reflexivity |].
  cbn [foldM app]. destruct (body s a) as [s' | e]; cbn [rbind]; [apply IH | reflexivity].
Qed.

Lemma range_succ (k : nat) :
  range (Z.of_nat (S k)) = range (Z.of_nat k) ++ [Z.of_nat k].
Proof.
  unfold range. rewrite !Nat2Z.id, seq_S, map_app. reflexivity.
Qed.

(** Case analysis on the integer comparisons of the goal. *)
Ltac by_cases :=
  repeat match goal with
    | |- context [?a =? ?b] => destruct (Z.eqb_spec a b)
    | |- context [?a <=? ?b] => destruct (Z.leb_spec a b)
    | |- context [?a <? ?b] => destruct (Z.ltb_spec a b)
    end;
  cbn [andb orb negb]; try reflexivity; try lia.

(** The inner loop: row [y] of the image, columns below [k], is filled
    with the colors [f x]. *)
Lemma fill_row (body : Z -> result color) (f : Z -> color) (y : Z) (k : nat) :
  forall img,
    0 <= y < height img -> Z.of_nat k <= width img ->
    (forall x, 0 <= x < Z.of_nat k -> body x = Ok (f x)) ->
    exists img',
      foldM (fun img x => do c <- body x ; putpixel img x y c) img
        (range (Z.of_nat k)) = Ok img' /\
      width img' = width img /\ height img' = height img /\
      forall x' y',
        px img' x' y'
        = if (y' =? y) && (0 <=? x') && (x' <? Z.of_nat k) then ink (f x')
          else px img x' y'.
Proof.
  induction k as [| k IH]; intros img Hy Hk Hbody.
  - exists img. split; [reflexivity |]. split; [reflexivity |]. split; [reflexivity |].
    intros x' y'. by_cases.
  - destruct (IH img Hy ltac:(lia) ltac:(intros; apply Hbody; lia))
      as (img1 & Hrun & Hw & Hh & Hpx).
    rewrite range_succ, foldM_app, Hrun. cbn [rbind foldM].
    rewrite (Hbody (Z.of_nat k)) by lia. cbn [rbind]. unfold putpixel.
    rewrite inside_true by lia.
    eexists. split; [reflexivity |]. cbn [width height px].
    split; [exact Hw |]. split; [exact Hh |].
    intros x' y'. rewrite Hpx. by_cases; subst; reflexivity.
Qed.

(** The outer loop: the rows below [k] are filled with the colors
    [f x y]. *)
Lemma fill_rows (body : Z -> Z -> result color) (f : Z -> Z -> color)
    (n : nat) (k : nat) :
  forall img,
    Z.of_nat k <= height img -> Z.of_nat n <= width img ->
    (forall x y, 0 <= x < Z.of_nat n -> 0 <= y < Z.of_nat k ->
                 body x y = Ok (f x y)) ->
    exists img',
      foldM (fun img y =>
               foldM (fun img x => do c <- body x y ; putpixel img x y c)
                 img (range (Z.of_nat n)))
        img (range (Z.of_nat k)) = Ok img' /\
      width img' = width img /\ height img' = height img /\
      forall x' y',
        px img' x' y'
        = if (0 <=? y') && (y' <? Z.of_nat k) && (0 <=? x') && (x' <? Z.of_nat n)
          then ink (f x' y')
          else px img x' y'.
Proof.
  induction k as [| k IH]; intros img Hk Hn Hbody.
  - exists img. split; [reflexivity |]. split; [reflexivity |]. split; [reflexivity |].
    intros x' y'. by_cases.
  - destruct (IH img ltac:(lia) Hn ltac:(intros; apply Hbody; lia))
      as (img1 & Hrun & Hw & Hh & Hpx).
    rewrite range_succ, foldM_app, Hrun. cbn [rbind foldM].
    destruct (fill_row (fun x => body x (Z.of_nat k)) (fun x => f x (Z.of_nat k))
                (Z.of_nat k) n img1 ltac:(lia) ltac:(lia)
                ltac:(intros; apply Hbody; lia))
      as (img2 & Hrun2 & Hw2 & Hh2 & Hpx2).
    rewrite Hrun2. cbn [rbind].
    exists img2. split; [reflexivity |].
    split; [congruence |]. split; [congruence |].
    intros x' y'. rewrite Hpx2, Hpx. by_cases; subst; reflexivity.
Qed.

(** * Square root, quotient and minimum *)

Lemma iter_shr_1_nonneg (p : positive) :
  forall mrs, 0 <= shr_m mrs -> 0 <= shr_m (SpecFloat.iter_pos shr_1 p mrs).
Proof.
  assert (Hstep : forall mrs, 0 <= shr_m mrs -> 0 <= shr_m (shr_1 mrs)).
  { intros mrs H. destruct (shr_1_m mrs H) as (-> & _). apply Z.div_pos; lia. }
  induction p as [p IH | p IH |]; intros mrs H; cbn [SpecFloat.iter_pos]; auto.
Qed.

Lemma shr_fexp_nonneg (m e : Z) (l : location) :
  0 <= m -> 0 <= shr_m (fst (shr_fexp prec emax m e l)).
Proof.
  intros Hm. unfold shr_fexp, shr.
  assert (H0 : 0 <= shr_m (shr_record_of_loc m l)).
  { destruct l as [| []]; exact Hm. }
  destruct (fexp prec emax (Zdigits2 m + e) - e); cbn [fst]; try exact H0.
  apply iter_shr_1_nonneg. exact H0.
Qed.

Lemma round_nearest_even_nonneg (m : Z) (l : location) :
  0 <= m -> 0 <= round_nearest_even m l.
Proof.
  intros Hm. destruct l as [| []]; cbn [round_nearest_even]; try lia.
  destruct (Z.even m); lia.
Qed.

Lemma binary_round_aux_nonneg (m e : Z) (l : location) :
  0 <= m -> nonneg_sf (binary_round_aux prec emax false m e l).
Proof.
  intros Hm. unfold binary_round_aux.
  pose proof (shr_fexp_nonneg m e l Hm) as H1.
  destruct (shr_fexp prec emax m e l) as [mrs' e']. cbn [fst] in H1.
  pose proof (shr_fexp_nonneg _ e' loc_Exact
                (round_nearest_even_nonneg (shr_m mrs') (loc_of_shr_record mrs') H1))
    as H2.
  destruct (shr_fexp prec emax _ e' loc_Exact) as [mrs'' e'']. cbn [fst] in H2.
  destruct (shr_m mrs'') as [| q | q]; [exact I | | lia].
  destruct (e'' <=? emax - prec); reflexivity.
Qed.

Lemma SFsqrt_nonneg (x : spec_float) :
  nonneg_sf x -> nonneg_sf (SF64sqrt x).
Proof.
  unfold SF64sqrt. destruct x as [s | s | | s m e]; cbn [nonneg_sf SFsqrt];
    try tauto.
  - intros ->. reflexivity.
  - intros ->. unfold SFsqrt_core_binary.
    set (m' := match _ - _ with Z.pos _ => _ | Z0 => _ | Z.neg _ => _ end).
    assert (Hm' : 0 <= m').
    { unfold m'. destruct (e - 2 * _); try lia. apply Z.shiftl_nonneg. lia. }
    pose proof (Z.sqrtrem_spec m' Hm') as Hs.
    destruct (Z.sqrtrem m') as [q r].
    apply binary_round_aux_nonneg. nia.
Qed.

Lemma SFdiv_nonneg (x : spec_float) (sy : bool) (my : positive) (ey : Z) :
  nonneg_sf x -> nonneg_sf (SF64div x (S754_finite false my ey)).
Proof.
  unfold SF64div. destruct x as [s | s | | s m e]; cbn [nonneg_sf SFdiv];
    try tauto.
  - intros ->. reflexivity.
  - intros ->. unfold SFdiv_core_binary.
    set (m' := match _ - _ - _ with Z.pos _ => _ | Z0 => _ | Z.neg _ => _ end).
    assert (Hm' : 0 <= m').
    { unfold m'. destruct (e - ey - _); try lia. apply Z.shiftl_nonneg. lia. }
    pose proof (Z_div_mod m' (Z.pos my) ltac:(lia)) as Hd.
    destruct (Z.div_eucl m' (Z.pos my)) as [q r].
    cbn [xorb]. apply binary_round_aux_nonneg. nia.
Qed.

Lemma SF64mul_comm (x y : spec_float) : SF64mul x y = SF64mul y x.
Proof.
  unfold SF64mul.
  destruct x as [sx | sx | | sx mx ex], y as [sy | sy | | sy my ey];
    cbn [SFmul]; try reflexivity;
    try (rewrite (Bool.xorb_comm sx sy); reflexivity).
  rewrite (Bool.xorb_comm sx sy), (Pos.mul_comm mx my), (Z.add_comm ex ey). reflexivity.
Qed.

Lemma sqrt_2 : Py.sqrt_int 2 = Ok (sqrt 2).
Proof. reflexivity. Qed.

Lemma magnitude_sqrt_2 : magnitude false 1 2 (Prim2SF (sqrt 2)).
Proof.
  change (Prim2SF (sqrt 2)) with (S754_finite false 6369051672525773 (-52)).
  cbn [magnitude]. change (2 ^ (- (-52))) with 4503599627370496.
  split; [reflexivity |]. split; lia.
Qed.

(** [max_dist] is a positive finite float when the half size is at
    least 1. *)
Lemma max_dist_positive (h : Z) :
  1 <= h < 2 ^ 52 ->
  exists m e, Prim2SF (sqrt 2 * Z2F h) = S754_finite false m e.
Proof.
  intros Hh. pose proof pow2_53 as P53.
  assert (P52 : 2 ^ 53 = 2 * 2 ^ 52) by reflexivity.
  destruct (float_of_int_spec h ltac:(lia)) as (fh & Hfh & Hm).
  rewrite float_of_int_Z2F in Hfh by lia. injection Hfh as <-.
  replace (h <? 0) with false in Hm by (symmetry; apply Z.ltb_ge; lia).
  rewrite Z.abs_eq in Hm by lia.
  pose proof (SFmul_magnitude false h 1 2 _ _ ltac:(lia) ltac:(lia) ltac:(lia)
                Hm magnitude_sqrt_2) as Hp.
  rewrite SF64mul_comm, <- mul_spec in Hp.
  destruct (Prim2SF (sqrt 2 * Z2F h)) as [s | s | | s m e]; cbn in Hp;
    try contradiction; [lia |].
  destruct Hp as (-> & _). exists m, e. reflexivity.
Qed.

Lemma is_zero_finite (f : float) (s : bool) (m : positive) (e : Z) :
  Prim2SF f = S754_finite s m e -> is_zero f = false.
Proof.
  intros H. unfold is_zero. rewrite FloatAxioms.eqb_spec, H.
  change (Prim2SF PrimFloat.zero) with (S754_zero false). destruct s; reflexivity.
Qed.

(** [min(q, 1.0)] of a float that is not negative lies in the unit
    interval. *)
Lemma min_one_magnitude (q : float) :
  nonneg_sf (Prim2SF q) -> magnitude false 0 1 (Prim2SF (Py.min q 1)).
Proof.
  intros Hq. unfold Py.min. destruct (1 <? q)%float eqn:E.
  - apply (magnitude_weaken false 1 1); [lia | lia | apply magnitude_one].
  - rewrite FloatAxioms.ltb_spec in E.
    change (Prim2SF 1) with (S754_finite false 4503599627370496 (-52)) in E.
    pose proof (Prim2SF_valid q) as Hv.
    unfold SFltb, SFcompare in E.
    destruct (Prim2SF q) as [s | s | | s m e]; cbn [magnitude nonneg_sf] in *.
    + lia.
    + subst s. discriminate E.
    + contradiction.
    + subst s. apply valid_mantissa in Hv.
      destruct (Z.compare_spec (-52) e) as [He | He | He]; try discriminate E.
      * subst e. rewrite Pos.compare_cont_spec in E. cbn [Pos.switch_Eq] in E.
        change (2 ^ (- (-52))) with 4503599627370496.
        destruct (Pos.compare_spec 4503599627370496 m) as [Hm | Hm | Hm];
          try discriminate E; clear E.
        -- subst m. split; [reflexivity | split; lia].
        -- apply Pos2Z.pos_lt_pos in Hm. split; [reflexivity | split; lia].
      * clear E. split; [reflexivity |]. split; [lia |]. split; [lia |].
        apply Z.le_trans with (2 ^ 53); [lia |].
        rewrite Z.mul_1_l. apply Z.pow_le_mono_r; lia.
Qed.

(** * The radial gradient *)

Lemma dist2_bound (size x y : Z) :
  2 <= size <= 2 ^ 26 -> 0 <= x < size -> 0 <= y < size ->
  0 <= dist2 size x y < 2 ^ 53 /\ 1 <= size / 2 < 2 ^ 52.
Proof.
  intros Hs Hx Hy. unfold dist2.
  pose proof (Z.div_mod size 2 ltac:(lia)) as Hd.
  pose proof (Z.mod_pos_bound size 2 ltac:(lia)) as Hm.
  revert Hd Hm. generalize (size / 2) (size mod 2). intros h r Hd Hm.
  change (2 ^ 26) with 67108864 in Hs. change (2 ^ 53) with 9007199254740992.
  change (2 ^ 52) with 4503599627370496.
  rewrite !Z.pow_2_r. split; [| lia].
  assert (Ha : - 33554432 <= x - h <= 33554432) by lia.
  assert (Hb : - 33554432 <= y - h <= 33554432) by lia.
  revert Ha Hb. generalize (x - h) (y - h). intros a b Ha Hb.
  assert (0 <= a * a <= 33554432 * 33554432) by nia.
  assert (0 <= b * b <= 33554432 * 33554432) by nia.
  lia.
Qed.

Lemma sqrt_int_spec (d2 : Z) :
  0 <= d2 < 2 ^ 53 ->
  Py.sqrt_int d2 = Ok (sqrt (Z2F d2)) /\ nonneg_sf (Prim2SF (sqrt (Z2F d2))).
Proof.
  intros Hd. unfold Py.sqrt_int. rewrite float_of_int_Z2F by lia. cbn [rbind].
  replace (d2 <? 0) with false by (symmetry; apply Z.ltb_ge; lia).
  split; [reflexivity |]. rewrite sqrt_spec. apply SFsqrt_nonneg.
  destruct (float_of_int_spec d2 ltac:(lia)) as (f & Hf & Hm).
  rewrite float_of_int_Z2F in Hf by lia. injection Hf as <-.
  replace (d2 <? 0) with false in Hm by (symmetry; apply Z.ltb_ge; lia).
  destruct (Prim2SF (Z2F d2)) as [s | s | | s m e]; cbn in Hm |- *; tauto.
Qed.

(** The ratio of a pixel lies in the unit interval. *)
Lemma gradient_ratio_magnitude (size d2 : Z) :
  1 <= size / 2 < 2 ^ 52 -> 0 <= d2 < 2 ^ 53 ->
  magnitude false 0 1 (Prim2SF (gradient_ratio size d2)).
Proof.
  intros Hh Hd. unfold gradient_ratio. apply min_one_magnitude.
  destruct (max_dist_positive (size / 2) Hh) as (m & e & Hmax).
  rewrite div_spec, Hmax. apply (SFdiv_nonneg _ false).
  apply sqrt_int_spec. exact Hd.
Qed.

(** The body of the loops is the blend at the ratio of the pixel. *)
Lemma gradient_pixel_spec (size : Z) (c0 c1 : color) (x y : Z) :
  2 <= size <= 2 ^ 26 -> 0 <= x < size -> 0 <= y < size ->
  gradient_pixel size c0 c1 (sqrt 2 * Z2F (size / 2)) x y
  = interpolate_color c0 c1 (gradient_ratio size (dist2 size x y)).
Proof.
  intros Hs Hx Hy. destruct (dist2_bound size x y Hs Hx Hy) as [Hd Hh].
  unfold gradient_pixel, interpolate_color, gradient_ratio.
  destruct c0 as [[r0 g0] b0], c1 as [[r1 g1] b1].
  fold (dist2 size x y).
  destruct (sqrt_int_spec _ Hd) as [-> _]. cbn [rbind].
  destruct (max_dist_positive (size / 2) Hh) as (m & e & Hmax).
  unfold Py.fdiv. rewrite (is_zero_finite _ _ _ _ Hmax). reflexivity.
Qed.

(** At the center the ratio is zero. *)
Lemma gradient_ratio_center (size : Z) :
  1 <= size / 2 < 2 ^ 52 ->
  magnitude false 0 0 (Prim2SF (gradient_ratio size 0)).
Proof.
  intros Hh. unfold gradient_ratio.
  destruct (max_dist_positive (size / 2) Hh) as (m & e & Hmax).
  change (sqrt (Z2F 0)) with 0%float.
  assert (Hq : Prim2SF (0 / (sqrt 2 * Z2F (size / 2))) = S754_zero false).
  { rewrite div_spec, Hmax. change (Prim2SF 0) with (S754_zero false).
    reflexivity. }
  unfold Py.min. rewrite FloatAxioms.ltb_spec, Hq.
  change (Prim2SF 1) with (S754_finite false 4503599627370496 (-52)).
  unfold SFltb, SFcompare. rewrite Hq. cbn [magnitude]. lia.
Qed.

Lemma Image_new_ok (w h : Z) (c : color) :
  0 <= w < 2 ^ 31 -> 0 <= h < 2 ^ 31 -> valid_color c ->
  Image_new w h c = Ok (mkImage w h (fun _ _ => ink c)).
Proof.
  intros Hw Hh Hc. unfold Image_new, c_int.
  destruct c as [[r g] b]. destruct Hc as (Hr & Hg & Hb). unfold channel in *.
  change (2 ^ 31) with 2147483648 in *.
  replace ((w <? 0) || (h <? 0)) with false by by_cases.
  replace (negb _) with false; [reflexivity |]. by_cases.
Qed.

(** The image [create_radial_gradient] returns: every pixel is the
    blend at the ratio of the pixel. *)
Lemma gradient_image (size : Z) (c0 c1 : color) :
  2 <= size <= 2 ^ 26 -> valid_color c0 -> valid_color c1 ->
  exists img,
    create_radial_gradient size c0 c1 = Ok img /\
    width img = size /\ height img = size /\
    forall x y, 0 <= x < size -> 0 <= y < size ->
      in_unit (gradient_ratio size (dist2 size x y)) /\
      interpolate_color c0 c1 (gradient_ratio size (dist2 size x y))
      = Ok (px img x y).
Proof.
  intros Hs Hc0 Hc1.
  assert (Hs' : 2 <= size <= 67108864) by exact Hs.
  set (f := fun x y =>
              match interpolate_color c0 c1 (gradient_ratio size (dist2 size x y)) with
              | Ok c => c
              | Raise _ => c0
              end).
  assert (Hpix : forall x y, 0 <= x < size -> 0 <= y < size ->
            in_unit (gradient_ratio size (dist2 size x y)) /\
            interpolate_color c0 c1 (gradient_ratio size (dist2 size x y))
            = Ok (f x y) /\
            valid_color (f x y)).
  { intros x y Hx Hy. destruct (dist2_bound size x y Hs Hx Hy) as [Hd Hh].
    pose proof (gradient_ratio_magnitude size _ Hh Hd) as Hm.
    destruct (interpolate_color_magnitude c0 c1 0 1 _ Hc0 Hc1
                ltac:(lia) ltac:(lia) Hm) as (c & Hc & Hb & _).
    split; [apply magnitude_in_unit; exact Hm |].
    unfold f. rewrite Hc. split; [reflexivity |].
    apply (color_between_valid c0 c1); assumption. }
  clearbody f.
  destruct (dist2_bound size 0 0 Hs ltac:(lia) ltac:(lia)) as [_ Hh].
  pose proof pow2_53 as P53.
  assert (P52 : 2 ^ 53 = 2 * 2 ^ 52) by reflexivity.
  unfold create_radial_gradient.
  rewrite Image_new_ok by (try assumption; change (2 ^ 31) with 2147483648; lia).
  cbn [rbind]. rewrite sqrt_2. cbn [rbind].
  rewrite float_of_int_Z2F by lia. cbn [rbind].
  destruct (fill_rows (gradient_pixel size c0 c1 (sqrt 2 * Z2F (size / 2))) f
              (Z.to_nat size) (Z.to_nat size)
              (mkImage size size (fun _ _ => ink c0)))
    as (img & Hrun & Hw & Hh' & Hpx).
  { cbn [height]. lia. }
  { cbn [width]. lia. }
  { intros x y Hx Hy. rewrite gradient_pixel_spec by lia. apply Hpix; lia. }
  rewrite !Z2Nat.id in Hrun by lia.
  exists img. split; [exact Hrun |].
  split; [exact Hw |]. split; [exact Hh' |].
  intros x y Hx Hy. rewrite Hpx, !Z2Nat.id by lia.
  replace ((0 <=? y) && (y <? size) && (0 <=? x) && (x <? size)) with true
    by by_cases.
  destruct (Hpix x y Hx Hy) as (Hu & Hc & Hv).
  rewrite (ink_valid _ Hv). split; assumption.
Qed.

(** ** The tinted variant *)

(** C1 fails on the code: the tinted icon holds a pixel that is not
    gray.  Pixel (350, 420) lies in the inset of the left plate, which
    [draw_dumbbell] fills with a blend toward the palette's indigo
    [primary_light] whatever the variant. *)
Theorem tinted_icon_not_gray :
  (do img <- generate_tinted_icon ; Ok (px img 350 420)) = Ok (164, 168, 200).
Proof.
  unfold generate_tinted_icon.
  destruct (gradient_image SIZE (60, 60, 60) (30, 30, 30))
    as (img & Hg & Hw & Hh & _).
  - unfold SIZE. change (2 ^ 26) with 67108864. lia.
  - cbn. unfold channel. lia.
  - cbn. unfold channel. lia.
  - rewrite Hg. cbn [rbind]. destruct img as [w h f].
    cbn [width height] in Hw, Hh. subst w h.
    vm_compute. reflexivity.
Qed.

(** * Writing the files *)

(** The paths of the [save] calls that went through, in order. *)
Fixpoint saved_paths (t : list event) : list string :=
  match t with
  | [] => []
  | Saved p :: t' => p :: saved_paths t'
  | _ :: t' => saved_paths t'
  end.

(** The three variants are generated without an exception. *)
Lemma icons_generated :
  exists main_icon dark_icon tinted_icon,
    generate_main_icon = Ok main_icon /\
    generate_dark_icon = Ok dark_icon /\
    generate_tinted_icon = Ok tinted_icon.
Proof.
  assert (Hs : 2 <= SIZE <= 2 ^ 26)
    by (unfold SIZE; change (2 ^ 26) with 67108864; lia).
  assert (Hgen : forall c0 c1 p a,
            valid_color c0 -> valid_color c1 -> valid_color p -> valid_color a ->
            exists icon,
              (do img <- create_radial_gradient SIZE c0 c1 ; draw_dumbbell img p a)
              = Ok icon).
  { intros c0 c1 p a H0 H1 Hp Ha.
    destruct (gradient_image SIZE c0 c1 Hs H0 H1) as (img & -> & _).
    cbn [rbind].
    destruct (draw_dumbbell_spec img p a Hp Ha) as (il & cols & ir & ->).
    eexists. reflexivity. }
  assert (Hv : forall r g b, channel r -> channel g -> channel b ->
                           valid_color (r, g, b)) by (cbn; tauto).
  destruct (Hgen (COLORS card) (COLORS background) (COLORS primary) (COLORS accent)
              (valid_palette _) (valid_palette _) (valid_palette _) (valid_palette _))
    as (i1 & H1).
  destruct (Hgen (20, 30, 50) (10, 15, 30) (COLORS primary_light) (COLORS accent))
    as (i2 & H2);
    [apply Hv; unfold channel; lia | apply Hv; unfold channel; lia
    | apply valid_palette | apply valid_palette |].
  destruct (Hgen (60, 60, 60) (30, 30, 30) (180, 180, 180) (220, 220, 220))
    as (i3 & H3); [apply Hv; unfold channel; lia ..|].
  exists i1, i2, i3.
  split; [exact H1 |]. split; [exact H2 | exact H3].
Qed.

Lemma string_app_inj (a b c : string) :
  String.append a b = String.append a c -> b = c.
Proof.
  induction a as [| ch a IH]; cbn [String.append]; intros H; [exact H |].
  injection H as H. apply IH, H.
Qed.

(** Two relative names joined to one directory differ when the names
    differ. *)
Lemma os_path_join_inj (d a b : string) :
  String.prefix "/" a = false -> String.prefix "/" b = false ->
  os_path_join d a = os_path_join d b -> a = b.
Proof.
  unfold os_path_join. intros -> ->.
  destruct ((String.length d =? 0)%nat || ends_with_sep d); intros H.
  - apply string_app_inj in H. exact H.
  - apply string_app_inj, string_app_inj in H. exact H.
Qed.

Lemma icon_paths_distinct (w : world) :
  icon_path w "AppIcon.png" <> icon_path w "AppIcon-Dark.png" /\
  icon_path w "AppIcon.png" <> icon_path w "AppIcon-Tinted.png" /\
  icon_path w "AppIcon-Dark.png" <> icon_path w "AppIcon-Tinted.png".
Proof.
  unfold icon_path.
  repeat split; intros H; apply os_path_join_inj in H;
    try reflexivity; discriminate H.
Qed.

Lemma saved_paths_app (t1 t2 : list event) :
  saved_paths (t1 ++ t2) = saved_paths t1 ++ saved_paths t2.
Proof.
  induction t1 as [| [] t1 IH]; cbn [saved_paths app]; rewrite ?IH; reflexivity.
Qed.

(** Running [main] once the three icons are known: unfolds the script
    down to the oracles of the world. *)
Ltac run_main H1 H2 H3 :=
  unfold accepts, icon_path in *;
  unfold main, io_bind, print, os_makedirs, lift, save;
  cbn [log write project_dir files trace makedirs_fails save_fault fst snd];
  repeat first
    [ rewrite H1 | rewrite H2 | rewrite H3
    | match goal with
      | E : makedirs_fails _ _ = _ |- _ => rewrite E
      | E : save_fault _ _ = _ |- _ => rewrite E
      end
    | progress cbn [log write project_dir files trace makedirs_fails
                    save_fault fst snd] ];
  rewrite ?saved_paths_app; cbn [saved_paths];
  rewrite ?app_nil_r, <- ?app_assoc; cbn [app].

(** A run that the file system accepts throughout. *)
Lemma main_accepted (w : world) (i1 i2 i3 : image) :
  generate_main_icon = Ok i1 -> generate_dark_icon = Ok i2 ->
  generate_tinted_icon = Ok i3 -> accepts w ->
  fst (main w) = Ok tt /\
  saved_paths (trace (snd (main w)))
  = saved_paths (trace w)
    ++ [icon_path w "AppIcon.png"; icon_path w "AppIcon-Dark.png";
        icon_path w "AppIcon-Tinted.png"] /\
  files (snd (main w))
  = <[icon_path w "AppIcon-Tinted.png" := PNG i3]>
      (<[icon_path w "AppIcon-Dark.png" := PNG i2]>
         (<[icon_path w "AppIcon.png" := PNG i1]> (files w))).
Proof.
  intros H1 H2 H3 (Hm & Hs1 & Hs2 & Hs3).
  run_main H1 H2 H3. repeat split.
Qed.

(** What the three files hold after an accepted run. *)
Lemma main_accepted_files (w : world) (i1 i2 i3 : image) :
  generate_main_icon = Ok i1 -> generate_dark_icon = Ok i2 ->
  generate_tinted_icon = Ok i3 -> accepts w ->
  files (snd (main w)) !! icon_path w "AppIcon.png" = Some (PNG i1) /\
  files (snd (main w)) !! icon_path w "AppIcon-Dark.png" = Some (PNG i2) /\
  files (snd (main w)) !! icon_path w "AppIcon-Tinted.png" = Some (PNG i3).
Proof.
  intros H1 H2 H3 Hw.
  destruct (main_accepted w i1 i2 i3 H1 H2 H3 Hw) as (_ & _ & ->).
  destruct (icon_paths_distinct w) as (D12 & D13 & D23).
  split; [| split].
  - rewrite lookup_insert_ne, lookup_insert_ne, lookup_insert_eq by congruence.
    reflexivity.
  - rewrite lookup_insert_ne, lookup_insert_eq by congruence. reflexivity.
  - rewrite lookup_insert_eq. reflexivity.
Qed.

(** ** Order of the writes and failure *)

(** C8: [main] saves AppIcon.png, AppIcon-Dark.png and
    AppIcon-Tinted.png in that order.  When the file system rejects one
    of the saves, [main] raises at once: no later save happens, the
    files of the earlier variants hold the images written, and the
    files of the later variants are as they were. *)
Theorem main_sequential (w : world) :
  exists i1 i2 i3,
    generate_main_icon = Ok i1 /\ generate_dark_icon = Ok i2 /\
    generate_tinted_icon = Ok i3 /\
    let p1 := icon_path w "AppIcon.png" in
    let p2 := icon_path w "AppIcon-Dark.png" in
    let p3 := icon_path w "AppIcon-Tinted.png" in
    let w' := snd (main w) in
    (makedirs_fails w (output_dir_of w) = false ->
     (save_fault w p1 = None -> save_fault w p2 = None ->
      save_fault w p3 = None ->
      fst (main w) = Ok tt /\
      saved_paths (trace w') = saved_paths (trace w) ++ [p1; p2; p3]) /\
     (forall f, save_fault w p1 = Some f ->
      fst (main w) = Raise OSError /\
      saved_paths (trace w') = saved_paths (trace w) /\
      files w' !! p2 = files w !! p2 /\ files w' !! p3 = files w !! p3) /\
     (forall f, save_fault w p1 = None -> save_fault w p2 = Some f ->
      fst (main w) = Raise OSError /\
      saved_paths (trace w') = saved_paths (trace w) ++ [p1] /\
      files w' !! p1 = Some (PNG i1) /\ files w' !! p3 = files w !! p3) /\
     (forall f, save_fault w p1 = None -> save_fault w p2 = None ->
      save_fault w p3 = Some f ->
      fst (main w) = Raise OSError /\
      saved_paths (trace w') = saved_paths (trace w) ++ [p1; p2] /\
      files w' !! p1 = Some (PNG i1) /\ files w' !! p2 = Some (PNG i2))).
Proof.
  destruct icons_generated as (i1 & i2 & i3 & H1 & H2 & H3).
  exists i1, i2, i3. split; [exact H1 |]. split; [exact H2 |]. split; [exact H3 |].
  intros p1 p2 p3 w' Hm.
  destruct (icon_paths_distinct w) as (D12 & D13 & D23).
  subst p1 p2 p3 w'.
  split; [| split; [| split]].
  - intros Hs1 Hs2 Hs3.
    destruct (main_accepted w i1 i2 i3 H1 H2 H3) as (Hr & Ht & _).
    { unfold accepts. tauto. }
    split; assumption.
  - intros f Hs1. destruct f; run_main H1 H2 H3.
    + repeat split.
    + split; [reflexivity |]. split; [reflexivity |].
      rewrite !lookup_insert_ne by congruence. split; reflexivity.
  - intros f Hs1 Hs2. destruct f; run_main H1 H2 H3.
    + split; [reflexivity |]. split; [reflexivity |].
      rewrite lookup_insert_eq, lookup_insert_ne by congruence.
      split; reflexivity.
    + split; [reflexivity |]. split; [reflexivity |].
      rewrite lookup_insert_ne, lookup_insert_eq by congruence.
      rewrite !lookup_insert_ne by congruence. split; reflexivity.
  - intros f Hs1 Hs2 Hs3. destruct f; run_main H1 H2 H3.
    + split; [reflexivity |]. split; [reflexivity |].
      rewrite lookup_insert_ne, lookup_insert_eq by congruence.
      rewrite lookup_insert_eq. split; reflexivity.
    + split; [reflexivity |]. split; [reflexivity |].
      rewrite lookup_insert_ne, lookup_insert_ne, lookup_insert_eq by congruence.
      rewrite lookup_insert_ne, lookup_insert_eq by congruence.
      split; reflexivity.
Qed.

(** * Further properties

    ** Blending at the edges of the float range *)

Lemma Z2F_magnitude (n : Z) :
  0 <= n < 2 ^ 53 -> magnitude false n n (Prim2SF (Z2F n)).
Proof.
  intros Hn. destruct (float_of_int_spec n ltac:(lia)) as (f & Hf & Hm).
  rewrite float_of_int_Z2F in Hf by lia. injection Hf as <-.
  replace (n <? 0) with false in Hm by (symmetry; apply Z.ltb_ge; lia).
  rewrite Z.abs_eq in Hm by lia. exact Hm.
Qed.

Lemma lerp_same (c : Z) (r : float) :
  channel c -> finite_float r -> lerp c c r = Ok c.
Proof.
  intros Hc Hr. rewrite lerp_blend by assumption. unfold blend.
  rewrite Z.sub_diag. pose proof pow2_53 as P53.
  assert (Hm : magnitude false c c (Prim2SF (Z2F c + Z2F 0 * r))).
  { rewrite add_spec, mul_spec.
    change (Prim2SF (Z2F 0)) with (S754_zero false).
    pose proof (Z2F_magnitude c ltac:(unfold channel in Hc; lia)) as Hx.
    unfold finite_float in Hr. unfold SF64add, SF64mul.
    destruct (Prim2SF r) as [s | s | | s m e]; try contradiction;
      cbn [SFmul];
      destruct (Prim2SF (Z2F c)) as [sx | sx | | sx mx ex]; cbn [magnitude] in Hx;
      try contradiction; cbn [SFadd];
      try exact Hx;
      destruct sx, (xorb false s); cbn [magnitude]; lia. }
  destruct (int_magnitude _ false c c ltac:(unfold channel in Hc; lia) Hm)
    as (v & -> & Hv).
  cbn [cond_Zopp]. f_equal. lia.
Qed.

(** X1. Blending a color with itself returns it, whatever the finite
    ratio: the difference of the channels is 0, and a finite ratio
    times 0.0 adds nothing. *)
Theorem interpolate_color_same (c : color) (r : float) :
  valid_color c -> finite_float r -> interpolate_color c c r = Ok c.
Proof.
  destruct c as [[r0 g0] b0]. intros (Hr0 & Hg0 & Hb0) Hr.
  unfold interpolate_color. rewrite !lerp_same by assumption. reflexivity.
Qed.

Lemma interpolate_color_same_witness :
  interpolate_color (99, 102, 241) (99, 102, 241) (-7.25) = Ok (99, 102, 241).
Proof.
  apply (interpolate_color_same (99, 102, 241) (-7.25)).
  - cbn. unfold channel. lia.
  - exact I.
Defined.

Lemma lerp_nan (c1 c2 : Z) (r : float) :
  channel c1 -> channel c2 -> Prim2SF r = S754_nan ->
  lerp c1 c2 r = Raise ValueError.
Proof.
  intros H1 H2 Hr. rewrite lerp_blend by assumption. unfold blend, Py.int.
  rewrite add_spec, mul_spec, Hr. unfold SF64add, SF64mul.
  destruct (Prim2SF (Z2F (c2 - c1))), (Prim2SF (Z2F c1)); reflexivity.
Qed.

Lemma lerp_infinity (c1 c2 : Z) (r : float) (s : bool) :
  channel c1 -> channel c2 -> Prim2SF r = S754_infinity s ->
  lerp c1 c2 r = Raise (if c1 =? c2 then ValueError else OverflowError).
Proof.
  intros H1 H2 Hr. rewrite lerp_blend by assumption. unfold blend, Py.int.
  rewrite add_spec, mul_spec, Hr. unfold SF64add, SF64mul.
  pose proof pow2_53 as P53. unfold channel in H1, H2.
  pose proof (Z2F_magnitude c1 ltac:(lia)) as Ha.
  destruct (float_of_int_spec (c2 - c1) ltac:(lia)) as (f & Hf & Hd).
  rewrite float_of_int_Z2F in Hf by lia. injection Hf as <-.
  destruct (Z.eqb_spec c1 c2) as [E | E].
  - subst c2. rewrite Z.sub_diag.
    change (Prim2SF (Z2F 0)) with (S754_zero false). cbn [SFmul].
    destruct (Prim2SF (Z2F c1)); reflexivity.
  - destruct (Prim2SF (Z2F (c2 - c1))) as [sd | sd | | sd md ed];
      cbn [magnitude] in Hd; try contradiction; [lia |].
    cbn [SFmul].
    destruct (Prim2SF (Z2F c1)) as [sx | sx | | sx mx ex]; cbn [magnitude] in Ha;
      try contradiction; reflexivity.
Qed.

(** X2. A ratio that is a NaN or an infinity never yields a color:
    [int] raises [ValueError] on the NaN that the first channel
    becomes when the ratio is a NaN, or an infinity times a zero
    difference, and [OverflowError] on the infinity it becomes
    otherwise. *)
Theorem interpolate_color_not_finite (c0 c1 : color) (r : float) :
  valid_color c0 -> valid_color c1 ->
  (Prim2SF r = S754_nan -> interpolate_color c0 c1 r = Raise ValueError) /\
  (forall s, Prim2SF r = S754_infinity s ->
     interpolate_color c0 c1 r
     = Raise (if fst (fst c0) =? fst (fst c1) then ValueError
              else OverflowError)).
Proof.
  destruct c0 as [[r0 g0] b0], c1 as [[r1 g1] b1].
  intros (Hr0 & Hg0 & Hb0) (Hr1 & Hg1 & Hb1). unfold interpolate_color.
  split.
  - intros Hr. rewrite (lerp_nan r0 r1 r Hr0 Hr1 Hr). reflexivity.
  - intros s Hr. rewrite (lerp_infinity r0 r1 r s Hr0 Hr1 Hr). reflexivity.
Qed.

Lemma interpolate_color_not_finite_witness :
  (Prim2SF nan = S754_nan ->
   interpolate_color (99, 102, 241) (34, 211, 238) nan = Raise ValueError) /\
  (forall s, Prim2SF nan = S754_infinity s ->
     interpolate_color (99, 102, 241) (34, 211, 238) nan
     = Raise (if fst (fst (99, 102, 241)) =? fst (fst (34, 211, 238))
              then ValueError else OverflowError)).
Proof.
  apply (interpolate_color_not_finite (99, 102, 241) (34, 211, 238) nan);
    cbn; unfold channel; lia.
Defined.

(** ** The gradient at small sizes, and the colors it holds *)

(** X3. [create_radial_gradient] on the sizes below 2, for a center
    color with channels in [0, 255]: a negative size is refused by
    [Image.new]; size 0 gives the empty image, the loops not being
    entered; size 1 raises [ZeroDivisionError], the maximal distance
    [sqrt(2) * (1 // 2)] being 0.0. *)
Theorem create_radial_gradient_small (c0 c1 : color) :
  valid_color c0 ->
  (forall size, size < 0 ->
     create_radial_gradient size c0 c1 = Raise ValueError) /\
  (exists img, create_radial_gradient 0 c0 c1 = Ok img /\
               width img = 0 /\ height img = 0) /\
  create_radial_gradient 1 c0 c1 = Raise ZeroDivisionError.
Proof.
  intros Hc0. split; [| split].
  - intros size Hs. unfold create_radial_gradient, Image_new.
    destruct c0 as [[r0 g0] b0].
    replace (size <? 0) with true by (symmetry; apply Z.ltb_lt; exact Hs).
    reflexivity.
  - unfold create_radial_gradient.
    rewrite Image_new_ok
      by (try assumption; change (2 ^ 31) with 2147483648; lia).
    eexists. split; [reflexivity |]. split; reflexivity.
  - unfold create_radial_gradient.
    rewrite Image_new_ok
      by (try assumption; change (2 ^ 31) with 2147483648; lia).
    destruct c0 as [[r0 g0] b0], c1 as [[r1 g1] b1]. reflexivity.
Qed.

Lemma create_radial_gradient_small_witness :
  (forall size, size < 0 ->
     create_radial_gradient size (30, 41, 59) (15, 23, 42) = Raise ValueError) /\
  (exists img, create_radial_gradient 0 (30, 41, 59) (15, 23, 42) = Ok img /\
               width img = 0 /\ height img = 0) /\
  create_radial_gradient 1 (30, 41, 59) (15, 23, 42) = Raise ZeroDivisionError.
Proof.
  apply (create_radial_gradient_small (30, 41, 59) (15, 23, 42)).
  cbn. unfold channel. lia.
Defined.

(** X4. Every pixel of the gradient lies, channel by channel, between
    the center color and the edge color. *)
Theorem create_radial_gradient_between (size : Z) (c0 c1 : color) :
  2 <= size <= 2 ^ 26 -> valid_color c0 -> valid_color c1 ->
  exists img,
    create_radial_gradient size c0 c1 = Ok img /\
    forall x y, 0 <= x < size -> 0 <= y < size ->
      color_between c0 c1 (px img x y) /\ valid_color (px img x y).
Proof.
  intros Hs Hc0 Hc1.
  destruct (gradient_image size c0 c1 Hs Hc0 Hc1) as (img & Hrun & _ & _ & Hpix).
  exists img. split; [exact Hrun |]. intros x y Hx Hy.
  destruct (Hpix x y Hx Hy) as [Hu Hc].
  destruct (interpolate_color_unit c0 c1 _ Hc0 Hc1 Hu) as (c & Hc' & Hb).
  rewrite Hc in Hc'. injection Hc' as <-.
  split; [exact Hb |]. apply (color_between_valid c0 c1); assumption.
Qed.

Lemma create_radial_gradient_between_witness :
  exists img,
    create_radial_gradient 4 (30, 41, 59) (15, 23, 42) = Ok img /\
    forall x y, 0 <= x < 4 -> 0 <= y < 4 ->
      color_between (30, 41, 59) (15, 23, 42) (px img x y) /\
      valid_color (px img x y).
Proof.
  apply (create_radial_gradient_between 4 (30, 41, 59) (15, 23, 42)).
  - change (2 ^ 26) with 67108864. lia.
  - cbn. unfold channel. lia.
  - cbn. unfold channel. lia.
Defined.

(** X5. The gradient is radial: two pixels at the same distance from
    the center [(size // 2, size // 2)] have the same color; so the
    image is its own mirror image in the diagonal. *)
Theorem create_radial_gradient_radial (size : Z) (c0 c1 : color) :
  2 <= size <= 2 ^ 26 -> valid_color c0 -> valid_color c1 ->
  exists img,
    create_radial_gradient size c0 c1 = Ok img /\
    (forall x y x' y',
       0 <= x < size -> 0 <= y < size -> 0 <= x' < size -> 0 <= y' < size ->
       (x - size / 2) ^ 2 + (y - size / 2) ^ 2
       = (x' - size / 2) ^ 2 + (y' - size / 2) ^ 2 ->
       px img x y = px img x' y') /\
    (forall x y, 0 <= x < size -> 0 <= y < size -> px img x y = px img y x).
Proof.
  intros Hs Hc0 Hc1.
  destruct (gradient_image size c0 c1 Hs Hc0 Hc1) as (img & Hrun & _ & _ & Hpix).
  assert (Hsame : forall x y x' y',
            0 <= x < size -> 0 <= y < size -> 0 <= x' < size -> 0 <= y' < size ->
            dist2 size x y = dist2 size x' y' -> px img x y = px img x' y').
  { intros x y x' y' Hx Hy Hx' Hy' E.
    destruct (Hpix x y Hx Hy) as [_ H1]. destruct (Hpix x' y' Hx' Hy') as [_ H2].
    rewrite E, H2 in H1. injection H1 as H1. symmetry. exact H1. }
  exists img. split; [exact Hrun |]. split.
  - exact Hsame.
  - intros x y Hx Hy. apply Hsame; try assumption. unfold dist2. ring.
Qed.

Lemma create_radial_gradient_radial_witness :
  exists img,
    create_radial_gradient 4 (30, 41, 59) (15, 23, 42) = Ok img /\
    (forall x y x' y',
       0 <= x < 4 -> 0 <= y < 4 -> 0 <= x' < 4 -> 0 <= y' < 4 ->
       (x - 4 / 2) ^ 2 + (y - 4 / 2) ^ 2 = (x' - 4 / 2) ^ 2 + (y' - 4 / 2) ^ 2 ->
       px img x y = px img x' y') /\
    (forall x y, 0 <= x < 4 -> 0 <= y < 4 -> px img x y = px img y x).
Proof.
  apply (create_radial_gradient_radial 4 (30, 41, 59) (15, 23, 42)).
  - change (2 ^ 26) with 67108864. lia.
  - cbn. unfold channel. lia.
  - cbn. unfold channel. lia.
Defined.

(** ** The shape of a rounded rectangle *)

(** The ellipse inscribed in a square box is the disc. *)
Lemma in_ellipse_disc (x0 y0 x1 y1 cx cy r x y : Z) :
  0 <= r -> x0 = cx - r -> x1 = cx + r -> y0 = cy - r -> y1 = cy + r ->
  in_ellipse (x0, y0, x1, y1) x y = in_disc cx cy r x y.
Proof.
  intros Hr -> -> -> ->. unfold in_ellipse, in_disc, in_bbox.
  replace (cx + r - (cx - r)) with (2 * r) by lia.
  replace (cy + r - (cy - r)) with (2 * r) by lia.
  replace (2 * x - (cx - r) - (cx + r)) with (2 * (x - cx)) by lia.
  replace (2 * y - (cy - r) - (cy + r)) with (2 * (y - cy)) by lia.
  replace (cx - r <=? x) with (- r <=? x - cx)
    by (apply eq_true_iff_eq; rewrite !Z.leb_le; lia).
  replace (x <=? cx + r) with (x - cx <=? r)
    by (apply eq_true_iff_eq; rewrite !Z.leb_le; lia).
  replace (cy - r <=? y) with (- r <=? y - cy)
    by (apply eq_true_iff_eq; rewrite !Z.leb_le; lia).
  replace (y <=? cy + r) with (y - cy <=? r)
    by (apply eq_true_iff_eq; rewrite !Z.leb_le; lia).
  generalize (x - cx) (y - cy). clear x y. intros dx dy.
  apply eq_true_iff_eq. rewrite !andb_true_iff, !Z.leb_le.
  rewrite !Z.pow_2_r.
  assert (Hx : 0 <= dx * dx) by nia. assert (Hy : 0 <= dy * dy) by nia.
  split.
  - intros [Hb H].
    replace (2 * dx * (2 * dx) * (2 * r * (2 * r)) + 2 * dy * (2 * dy) * (2 * r * (2 * r)))
      with (16 * ((dx * dx + dy * dy) * (r * r))) in H by ring.
    replace (2 * r * (2 * r) * (2 * r * (2 * r))) with (16 * ((r * r) * (r * r))) in H by ring.
    destruct (Z.eq_dec r 0) as [-> | Hr0].
    + assert (dx = 0 /\ dy = 0) as [-> ->] by lia. lia.
    + assert (0 < r * r) by nia. nia.
  - intros H. split; [nia |].
    replace (2 * dx * (2 * dx) * (2 * r * (2 * r)) + 2 * dy * (2 * dy) * (2 * r * (2 * r)))
      with (16 * ((dx * dx + dy * dy) * (r * r))) by ring.
    replace (2 * r * (2 * r) * (2 * r * (2 * r))) with (16 * ((r * r) * (r * r))) by ring.
    assert (0 <= r * r) by nia. nia.
Qed.

(** A pixel after primitives of one fill: the fill where one of them
    covers it, the old color elsewhere. *)
Lemma replay_same_fill (l : list prim) (fill : color) :
  Forall (fun p => fill_of p = fill) l ->
  forall (img : image) (x y : Z),
    px (replay l img) x y
    = if inside img x y && existsb (fun p => covers p x y) l then ink fill
      else px img x y.
Proof.
  intros Hl. induction Hl as [| p l Hp _ IH]; intros img x y.
  - cbn [replay fold_left existsb]. rewrite andb_false_r. reflexivity.
  - change (replay (p :: l) img) with (replay l (paint p img)).
    rewrite IH. cbn [existsb]. change (inside (paint p img) x y) with (inside img x y).
    cbn [paint px]. rewrite Hp.
    destruct (inside img x y), (covers p x y), (existsb _ l); reflexivity.
Qed.

Lemma rounded_rect_covers (x1 y1 x2 y2 r : Z) (fill : color) (x y : Z) :
  0 <= r ->
  existsb (fun p => covers p x y) (rounded_rect_prims (x1, y1, x2, y2) r fill)
  = in_rounded_rect (x1, y1, x2, y2) r x y.
Proof.
  intros Hr. cbn [rounded_rect_prims existsb covers in_rounded_rect].
  rewrite (in_ellipse_disc x1 y1 _ _ (x1 + r) (y1 + r) r) by lia.
  rewrite (in_ellipse_disc (x2 - 2 * r) y1 _ _ (x2 - r) (y1 + r) r) by lia.
  rewrite (in_ellipse_disc x1 (y2 - 2 * r) _ _ (x1 + r) (y2 - r) r) by lia.
  rewrite (in_ellipse_disc (x2 - 2 * r) (y2 - 2 * r) _ _ (x2 - r) (y2 - r) r) by lia.
  rewrite orb_false_r, !orb_assoc. reflexivity.
Qed.

Lemma rounded_rect_replay (b : bbox) (r : Z) (fill : color) (img : image) (x y : Z) :
  0 <= r ->
  px (replay (rounded_rect_prims b r fill) img) x y
  = if inside img x y && in_rounded_rect b r x y then ink fill else px img x y.
Proof.
  intros Hr. destruct b as [[[x1 y1] x2] y2].
  rewrite (replay_same_fill _ fill) by apply rounded_rect_fill.
  rewrite rounded_rect_covers by exact Hr. reflexivity.
Qed.

Lemma in_disc_spec (cx cy r x y : Z) :
  in_disc cx cy r x y = true <-> (x - cx) * (x - cx) + (y - cy) * (y - cy) <= r * r.
Proof. unfold in_disc. rewrite Z.leb_le, !Z.pow_2_r. tauto. Qed.

Lemma in_disc_bounds (cx cy r x y : Z) :
  0 <= r -> in_disc cx cy r x y = true ->
  cx - r <= x <= cx + r /\ cy - r <= y <= cy + r.
Proof.
  intros Hr H. apply in_disc_spec in H. revert H.
  replace x with (cx + (x - cx)) at 3 4 by lia.
  replace y with (cy + (y - cy)) at 3 4 by lia.
  generalize (x - cx) (y - cy). intros dx dy H.
  assert (0 <= dx * dx) by nia. assert (0 <= dy * dy) by nia.
  assert (- r <= dx <= r) by nia. assert (- r <= dy <= r) by nia. lia.
Qed.

(** The shape stays in its box when the corners fit in it. *)
Lemma in_rounded_rect_box (x1 y1 x2 y2 r x y : Z) :
  0 <= r -> 2 * r <= x2 - x1 -> 2 * r <= y2 - y1 ->
  in_rounded_rect (x1, y1, x2, y2) r x y = true ->
  in_bbox (x1, y1, x2, y2) x y = true.
Proof.
  intros Hr Hw Hh H. unfold in_rounded_rect in H.
  rewrite !orb_true_iff, !in_bbox_spec in H.
  apply in_bbox_spec.
  destruct H as [[[[[H | H] | H] | H] | H] | H]; try lia;
    apply in_disc_bounds in H; lia.
Qed.

Lemma in_cross_rounded (b : bbox) (r x y : Z) :
  in_cross b r x y = true -> in_rounded_rect b r x y = true.
Proof.
  destruct b as [[[x1 y1] x2] y2]. unfold in_cross, in_rounded_rect.
  intros ->. reflexivity.
Qed.

Lemma rounded_rect_outside (x1 y1 x2 y2 r x y : Z) :
  0 <= r -> 2 * r <= x2 - x1 -> 2 * r <= y2 - y1 ->
  in_bbox (x1, y1, x2, y2) x y = false ->
  in_rounded_rect (x1, y1, x2, y2) r x y = false.
Proof.
  intros Hr Hw Hh Hout. apply not_true_is_false. intros H.
  apply in_rounded_rect_box in H; try assumption. congruence.
Qed.

(** X6. With a radius from 0 to half the width and half the height
    of the box, [draw_rounded_rect] keeps the size of the image and
    fills the whole cross of its two rectangles: every pixel of the
    image there takes the fill color, whatever lay there before. *)
Theorem draw_rounded_rect_cross (draw : Draw) (x1 y1 x2 y2 radius : Z)
    (fill : color) :
  0 <= radius -> 2 * radius <= x2 - x1 -> 2 * radius <= y2 - y1 ->
  valid_color fill ->
  let img' := im (draw_rounded_rect draw (x1, y1, x2, y2) radius fill) in
  width img' = width (im draw) /\ height img' = height (im draw) /\
  forall x y,
    inside (im draw) x y = true ->
    in_cross (x1, y1, x2, y2) radius x y = true ->
    px img' x y = fill.
Proof.
  intros Hr Hw Hh Hf img'.
  destruct (draw_rounded_rect_extends draw (x1, y1, x2, y2) radius fill) as [Him _].
  unfold img'. rewrite Him.
  destruct (replay_size (rounded_rect_prims (x1, y1, x2, y2) radius fill) (im draw))
    as [Hw' Hh'].
  split; [exact Hw' |]. split; [exact Hh' |].
  intros x y Hin Hc. rewrite rounded_rect_replay by exact Hr.
  rewrite Hin, (in_cross_rounded _ _ _ _ Hc). apply ink_valid, Hf.
Qed.

Lemma draw_rounded_rect_cross_witness :
  let draw := ImageDraw_Draw (mkImage 10 10 (fun _ _ => (0, 0, 0))) in
  let img' := im (draw_rounded_rect draw (2, 2, 8, 8) 2 (255, 255, 255)) in
  width img' = width (im draw) /\ height img' = height (im draw) /\
  forall x y,
    inside (im draw) x y = true ->
    in_cross (2, 2, 8, 8) 2 x y = true ->
    px img' x y = (255, 255, 255).
Proof.
  apply (draw_rounded_rect_cross
           (ImageDraw_Draw (mkImage 10 10 (fun _ _ => (0, 0, 0))))
           2 2 8 8 2 (255, 255, 255)); try lia.
  cbn. unfold channel. lia.
Defined.

(** X7. With a radius from 0 to half the width and half the height
    of the box, [draw_rounded_rect] changes no pixel outside the box,
    and every pixel it changes takes the fill color. *)
Theorem draw_rounded_rect_confined (draw : Draw) (x1 y1 x2 y2 radius : Z)
    (fill : color) :
  0 <= radius -> 2 * radius <= x2 - x1 -> 2 * radius <= y2 - y1 ->
  let img' := im (draw_rounded_rect draw (x1, y1, x2, y2) radius fill) in
  forall x y,
    (~ (x1 <= x <= x2 /\ y1 <= y <= y2) -> px img' x y = px (im draw) x y) /\
    (px img' x y = px (im draw) x y \/ px img' x y = ink fill).
Proof.
  intros Hr Hw Hh img' x y.
  destruct (draw_rounded_rect_extends draw (x1, y1, x2, y2) radius fill) as [Him _].
  unfold img'. rewrite Him, rounded_rect_replay by exact Hr.
  split.
  - intros Hout.
    destruct (in_rounded_rect (x1, y1, x2, y2) radius x y) eqn:E.
    + apply in_rounded_rect_box in E; try assumption.
      apply in_bbox_spec in E. contradiction.
    + rewrite andb_false_r. reflexivity.
  - destruct (inside (im draw) x y && in_rounded_rect (x1, y1, x2, y2) radius x y);
      [right | left]; reflexivity.
Qed.

Lemma draw_rounded_rect_confined_witness :
  let draw := ImageDraw_Draw (mkImage 10 10 (fun _ _ => (0, 0, 0))) in
  let img' := im (draw_rounded_rect draw (2, 2, 8, 8) 3 (255, 255, 255)) in
  (~ (2 <= 9 <= 8 /\ 2 <= 5 <= 8) -> px img' 9 5 = px (im draw) 9 5) /\
  (px img' 9 5 = px (im draw) 9 5 \/ px img' 9 5 = ink (255, 255, 255)).
Proof.
  apply (draw_rounded_rect_confined
           (ImageDraw_Draw (mkImage 10 10 (fun _ _ => (0, 0, 0))))
           2 2 8 8 3 (255, 255, 255)); lia.
Defined.

(** The shape is its own mirror image in both axes of the box. *)
Lemma in_rounded_rect_mirror (x1 y1 x2 y2 r x y : Z) :
  in_rounded_rect (x1, y1, x2, y2) r (x1 + x2 - x) y
  = in_rounded_rect (x1, y1, x2, y2) r x y /\
  in_rounded_rect (x1, y1, x2, y2) r x (y1 + y2 - y)
  = in_rounded_rect (x1, y1, x2, y2) r x y.
Proof.
  assert (Hb : forall a b c d u v a' b' c' d' u' v',
            (a <= u <= c /\ b <= v <= d <-> a' <= u' <= c' /\ b' <= v' <= d') ->
            in_bbox (a, b, c, d) u v = in_bbox (a', b', c', d') u' v').
  { intros. apply eq_true_iff_eq. rewrite !in_bbox_spec. assumption. }
  assert (Hd : forall cx cy u v cx' cy' u' v',
            (u - cx) ^ 2 + (v - cy) ^ 2 = (u' - cx') ^ 2 + (v' - cy') ^ 2 ->
            in_disc cx cy r u v = in_disc cx' cy' r u' v').
  { intros cx cy u v cx' cy' u' v' E. unfold in_disc. rewrite E. reflexivity. }
  unfold in_rounded_rect. split.
  - rewrite (Hb (x1 + r) y1 (x2 - r) y2 (x1 + x2 - x) y
               (x1 + r) y1 (x2 - r) y2 x y) by lia.
    rewrite (Hb x1 (y1 + r) x2 (y2 - r) (x1 + x2 - x) y
               x1 (y1 + r) x2 (y2 - r) x y) by lia.
    rewrite (Hd (x1 + r) (y1 + r) (x1 + x2 - x) y (x2 - r) (y1 + r) x y) by ring.
    rewrite (Hd (x2 - r) (y1 + r) (x1 + x2 - x) y (x1 + r) (y1 + r) x y) by ring.
    rewrite (Hd (x1 + r) (y2 - r) (x1 + x2 - x) y (x2 - r) (y2 - r) x y) by ring.
    rewrite (Hd (x2 - r) (y2 - r) (x1 + x2 - x) y (x1 + r) (y2 - r) x y) by ring.
    destruct (in_bbox _ x y), (in_bbox _ x y), (in_disc (x2 - r) (y1 + r) r x y),
      (in_disc (x1 + r) (y1 + r) r x y), (in_disc (x2 - r) (y2 - r) r x y),
      (in_disc (x1 + r) (y2 - r) r x y); reflexivity.
  - rewrite (Hb (x1 + r) y1 (x2 - r) y2 x (y1 + y2 - y)
               (x1 + r) y1 (x2 - r) y2 x y) by lia.
    rewrite (Hb x1 (y1 + r) x2 (y2 - r) x (y1 + y2 - y)
               x1 (y1 + r) x2 (y2 - r) x y) by lia.
    rewrite (Hd (x1 + r) (y1 + r) x (y1 + y2 - y) (x1 + r) (y2 - r) x y) by ring.
    rewrite (Hd (x2 - r) (y1 + r) x (y1 + y2 - y) (x2 - r) (y2 - r) x y) by ring.
    rewrite (Hd (x1 + r) (y2 - r) x (y1 + y2 - y) (x1 + r) (y1 + r) x y) by ring.
    rewrite (Hd (x2 - r) (y2 - r) x (y1 + y2 - y) (x2 - r) (y1 + r) x y) by ring.
    destruct (in_bbox _ x y), (in_bbox _ x y), (in_disc (x2 - r) (y1 + r) r x y),
      (in_disc (x1 + r) (y1 + r) r x y), (in_disc (x2 - r) (y2 - r) r x y),
      (in_disc (x1 + r) (y2 - r) r x y); reflexivity.
Qed.

(** X19. On a canvas of one color, a rounded rectangle whose box lies
    in the image, drawn with a radius from 0 to half the width and half
    the height of the box, is symmetric: a pixel of the box and its
    mirror images in the vertical and in the horizontal axis of the box
    have the same color. *)
Theorem draw_rounded_rect_symmetric (draw : Draw) (x1 y1 x2 y2 radius : Z)
    (fill bg : color) :
  0 <= radius -> 2 * radius <= x2 - x1 -> 2 * radius <= y2 - y1 ->
  valid_color fill ->
  0 <= x1 -> 0 <= y1 -> x2 < width (im draw) -> y2 < height (im draw) ->
  (forall x y, px (im draw) x y = bg) ->
  let img' := im (draw_rounded_rect draw (x1, y1, x2, y2) radius fill) in
  forall x y, x1 <= x <= x2 -> y1 <= y <= y2 ->
    px img' (x1 + x2 - x) y = px img' x y /\
    px img' x (y1 + y2 - y) = px img' x y.
Proof.
  intros Hr _ _ _ Hx1 Hy1 Hx2 Hy2 Hbg img' x y Hx Hy.
  destruct (draw_rounded_rect_extends draw (x1, y1, x2, y2) radius fill) as [Him _].
  unfold img'. rewrite Him, !rounded_rect_replay by exact Hr.
  destruct (in_rounded_rect_mirror x1 y1 x2 y2 radius x y) as [-> ->].
  rewrite !Hbg, !inside_true by lia. split; reflexivity.
Qed.

Lemma draw_rounded_rect_symmetric_witness :
  let draw := ImageDraw_Draw (mkImage 10 10 (fun _ _ => (0, 0, 0))) in
  let img' := im (draw_rounded_rect draw (2, 2, 8, 8) 2 (255, 255, 255)) in
  px img' (2 + 8 - 3) 2 = px img' 3 2 /\ px img' 3 (2 + 8 - 2) = px img' 3 2.
Proof.
  apply (draw_rounded_rect_symmetric
           (ImageDraw_Draw (mkImage 10 10 (fun _ _ => (0, 0, 0))))
           2 2 8 8 2 (255, 255, 255) (0, 0, 0)); cbn [im ImageDraw_Draw width height];
    try lia; try reflexivity.
  cbn. unfold channel. lia.
Defined.

(** ** The pixels of the dumbbell *)

(** The last primitive covers the pixel, or the pixel is as the
    earlier ones left it. *)
Lemma replay_snoc (l : list prim) (p : prim) (img : image) (x y : Z) :
  px (replay (l ++ [p]) img) x y
  = if inside img x y && covers p x y then ink (fill_of p)
    else px (replay l img) x y.
Proof.
  rewrite replay_app. cbn [replay fold_left paint px].
  fold (replay l img). rewrite inside_replay. reflexivity.
Qed.

(** A pixel is as the last primitive that covers it paints it. *)
Lemma replay_top (l1 l2 : list prim) (p : prim) (img : image) (x y : Z) :
  inside img x y = true -> covers p x y = true ->
  Forall (fun q => covers q x y = false) l2 ->
  px (replay (l1 ++ p :: l2) img) x y = ink (fill_of p).
Proof.
  intros Hin Hp Hl2.
  change (p :: l2) with ([p] ++ l2). rewrite app_assoc, replay_app.
  rewrite replay_untouched by exact Hl2.
  rewrite replay_snoc, Hin, Hp. reflexivity.
Qed.

(** A property of colors that the canvas has at a pixel, and the fill
    of every primitive covering the pixel, holds of the pixel after
    the primitives. *)
Lemma replay_invariant (P : color -> Prop) (l : list prim) (x y : Z) :
  Forall (fun q => covers q x y = true -> P (ink (fill_of q))) l ->
  forall img, P (px img x y) -> P (px (replay l img) x y).
Proof.
  intros Hl. induction Hl as [| q l Hq _ IH]; intros img H; [exact H |].
  change (replay (q :: l) img) with (replay l (paint q img)).
  apply IH. cbn [paint px].
  destruct (inside img x y && covers q x y) eqn:E; [| exact H].
  apply andb_true_iff in E. apply Hq, E.
Qed.

Lemma segment_color_between (primary_color accent_color : color) :
  valid_color primary_color -> valid_color accent_color ->
  forall i, 0 <= i < bar_segments ->
  forall c, segment_color primary_color accent_color i = Ok c ->
            color_between primary_color accent_color c.
Proof.
  intros Hp Ha. refine (proj1 (Forall_range bar_segments _) _). rewrite range_20.
  repeat constructor; intros c; unfold segment_color;
    (destruct (Py.truediv _ (bar_segments - 1)) as [ratio |] eqn:Er;
       vm_compute in Er; [| discriminate Er]);
    injection Er as <-; cbn [rbind];
    (lazymatch goal with
     | |- context [interpolate_color _ _ ?r] =>
         destruct (interpolate_color_unit primary_color accent_color r Hp Ha)
           as (c' & Hc & Hb); [split; vm_compute; reflexivity |];
         rewrite Hc; intros E; injection E as <-; exact Hb
     end).
Qed.

Lemma bar_prims_lookup (cols : list color) (i : Z) (c : color) :
  0 <= i < bar_segments -> cols !! Z.to_nat i = Some c ->
  bar_prims cols !! Z.to_nat i = Some (Rectangle (segment_box i) c).
Proof.
  intros Hi Hc. unfold bar_prims. rewrite lookup_zip_with.
  rewrite range_lookup by (change bar_segments with 20 in *; lia).
  rewrite Z2Nat.id by lia. cbn. rewrite Hc. reflexivity.
Qed.

Lemma bar_prims_elem (cols : list color) (k : nat) (q : prim) :
  bar_prims cols !! k = Some q ->
  exists c, cols !! k = Some c /\ (k < 20)%nat /\
            q = Rectangle (segment_box (Z.of_nat k)) c.
Proof.
  unfold bar_prims. rewrite lookup_zip_with. intros H.
  destruct (range bar_segments !! k) as [i |] eqn:Ei; [| discriminate H].
  cbn in H. destruct (cols !! k) as [c |] eqn:Ec; [| discriminate H].
  cbn in H. injection H as <-.
  assert (Hk : (k < 20)%nat).
  { apply lookup_lt_Some in Ei. unfold range in Ei.
    rewrite length_map, length_seq in Ei. exact Ei. }
  rewrite range_lookup in Ei by exact Hk. injection Ei as <-.
  exists c. split; [reflexivity |]. split; [exact Hk | reflexivity].
Qed.

Lemma segment_box_eq (i : Z) :
  segment_box i = (312 + 20 * i, 482, 333 + 20 * i, 542).
Proof.
  unfold segment_box, seg_left. change bar_left with 312.
  change (bar_width / bar_segments) with 20. change bar_top with 482.
  change bar_height with 60.
  replace (312 + i * 20) with (312 + 20 * i) by lia.
  replace (312 + (i + 1) * 20 + 1) with (333 + 20 * i) by lia.
  reflexivity.
Qed.

(** The bar at a pixel: the color of the last segment that covers
    it. *)
Lemma bar_replay (cols : list color) (img : image) (x y i : Z) (c : color) :
  0 <= i < bar_segments -> cols !! Z.to_nat i = Some c ->
  inside img x y = true ->
  in_bbox (segment_box i) x y = true -> x < 312 + 20 * (i + 1) \/ i = 19 ->
  px (replay (bar_prims cols) img) x y = ink c.
Proof.
  intros Hi Hc Hin Hcov Hlast.
  pose proof (bar_prims_lookup cols i c Hi Hc) as Hl.
  rewrite <- (take_drop_middle _ _ _ Hl).
  apply (replay_top _ _ (Rectangle (segment_box i) c)); [exact Hin | exact Hcov |].
  apply Forall_lookup. intros k q Hq.
  rewrite lookup_drop in Hq. apply bar_prims_elem in Hq.
  destruct Hq as (c' & _ & Hk & ->). cbn [covers].
  rewrite segment_box_eq. apply in_bbox_false.
  change bar_segments with 20 in Hi. lia.
Qed.

Lemma bar_prims_in_box (cols : list color) :
  Forall (fun q => box_within bar_box (box_of q)) (bar_prims cols).
Proof.
  apply Forall_lookup. intros k q Hq. apply bar_prims_elem in Hq.
  destruct Hq as (c & _ & Hk & ->). cbn [box_of]. rewrite segment_box_eq.
  unfold bar_box, box_within. change bar_left with 312. change bar_top with 482.
  change bar_width with 400. change bar_height with 60. lia.
Qed.

(** What [draw_dumbbell] returns, with what is known of the colors
    it computes. *)
Lemma draw_dumbbell_colors (img : image) (p a : color) :
  valid_color p -> valid_color a ->
  exists il cols ir,
    interpolate_color p (COLORS primary_light) 0.3 = Ok il /\ valid_color il /\
    interpolate_color a (COLORS white) 0.2 = Ok ir /\ valid_color ir /\
    Forall2 (fun i c => segment_color p a i = Ok c) (range bar_segments) cols /\
    draw_dumbbell img p a = Ok (replay (dumbbell_prims p a il cols ir) img).
Proof.
  intros Hp Ha.
  destruct (draw_dumbbell_on_spec (ImageDraw_Draw img) p a Hp Ha)
    as (il & cols & ir & d & Hil & Hcols & Hir & Hd & Him & _).
  exists il, cols, ir.
  destruct (interpolate_color_unit p (COLORS primary_light) 0.3 Hp
              (valid_palette _)) as (il' & Hil' & Hbl); [split; reflexivity |].
  destruct (interpolate_color_unit a (COLORS white) 0.2 Ha
              (valid_palette _)) as (ir' & Hir' & Hbr); [split; reflexivity |].
  rewrite Hil in Hil'. injection Hil' as <-.
  rewrite Hir in Hir'. injection Hir' as <-.
  split; [exact Hil |].
  split; [apply (color_between_valid _ _ _ Hp (valid_palette _) Hbl) |].
  split; [exact Hir |].
  split; [apply (color_between_valid _ _ _ Ha (valid_palette _) Hbr) |].
  split; [exact Hcols |].
  unfold draw_dumbbell. rewrite Hd. cbn [rbind]. rewrite Him. reflexivity.
Qed.

(** The dumbbell at a pixel, from the top: the inset of the right
    plate, the right plate, then the bar and what lies under it. *)
Lemma dumbbell_replay (p a il : color) (cols : list color) (ir : color)
    (img : image) (x y : Z) :
  px (replay (dumbbell_prims p a il cols ir) img) x y
  = if inside img x y && in_rounded_rect (inset right_plate) 20 x y then ink ir
    else if inside img x y && in_rounded_rect right_plate 30 x y then ink a
    else px (replay (bar_prims cols)
               (replay (rounded_rect_prims (inset left_plate) 20 il)
                  (replay (rounded_rect_prims left_plate 30 p) img))) x y.
Proof.
  unfold dumbbell_prims. change (weight_radius - 10) with 20.
  change weight_radius with 30.
  rewrite !replay_app, !rounded_rect_replay by lia.
  rewrite !inside_replay. reflexivity.
Qed.

Lemma plate_boxes :
  left_plate = (292, 372, 412, 652) /\ inset left_plate = (312, 392, 392, 632) /\
  right_plate = (612, 372, 732, 652) /\ inset right_plate = (632, 392, 712, 632) /\
  bar_box = (312, 482, 713, 542).
Proof. repeat split. Qed.

Lemma not_in_rounded_rect (x1 y1 x2 y2 r x y : Z) :
  0 <= r -> 2 * r <= x2 - x1 -> 2 * r <= y2 - y1 ->
  ~ (x1 <= x <= x2 /\ y1 <= y <= y2) ->
  in_rounded_rect (x1, y1, x2, y2) r x y = false.
Proof.
  intros Hr Hw Hh Hout. apply not_true_is_false. intros H.
  apply in_rounded_rect_box in H; try assumption.
  apply in_bbox_spec in H. contradiction.
Qed.

(** The pixels of the bar, up to the right plate, segment by segment. *)
Lemma bar_pixels (img : image) (primary_color accent_color : color) :
  valid_color primary_color -> valid_color accent_color ->
  exists img',
    draw_dumbbell img primary_color accent_color = Ok img' /\
    forall x y,
      inside img x y = true ->
      bar_left <= x < right_weight_left ->
      bar_top <= y <= bar_top + bar_height ->
      exists ratio c,
        Py.truediv ((x - bar_left) / 20) 19 = Ok ratio /\
        interpolate_color primary_color accent_color ratio = Ok c /\
        px img' x y = c.
Proof.
  intros Hp Ha.
  destruct (draw_dumbbell_colors img _ _ Hp Ha)
    as (il & cols & ir & _ & _ & _ & _ & Hcols & Hd).
  eexists. split; [exact Hd |].
  change bar_left with 312. change right_weight_left with 612.
  change bar_top with 482. change bar_height with 60.
  intros x y Hin Hx Hy.
  set (i := (x - 312) / 20).
  assert (Hi : 20 * i <= x - 312 < 20 * i + 20).
  { pose proof (Z.div_mod (x - 312) 20 ltac:(lia)).
    pose proof (Z.mod_pos_bound (x - 312) 20 ltac:(lia)). unfold i. lia. }
  assert (Hi20 : 0 <= i < bar_segments) by (change bar_segments with 20; lia).
  assert (Hr : range bar_segments !! Z.to_nat i = Some i).
  { rewrite range_lookup by (change bar_segments with 20 in *; lia).
    f_equal. lia. }
  destruct (Forall2_lookup_l _ _ _ _ _ Hcols Hr) as (c & Hci & Hseg).
  pose proof (segment_color_between _ _ Hp Ha i Hi20 c Hseg) as Hb.
  unfold segment_color in Hseg. change (bar_segments - 1) with 19 in Hseg.
  destruct (Py.truediv i 19) as [ratio |]; [| discriminate Hseg].
  cbn [rbind] in Hseg. exists ratio, c. split; [reflexivity |].
  split; [exact Hseg |].
  rewrite dumbbell_replay.
  destruct plate_boxes as (_ & _ & -> & -> & _).
  rewrite !not_in_rounded_rect, !andb_false_r by lia.
  rewrite (bar_replay cols _ x y i c Hi20 Hci).
  - apply ink_valid. apply (color_between_valid _ _ _ Hp Ha Hb).
  - rewrite !inside_replay. exact Hin.
  - rewrite segment_box_eq. apply in_bbox_true; lia.
  - left. lia.
Qed.

(** X8. The bar lies over the left plate: from the left end of the
    bar to the left edge of the right plate, a pixel of the bar's rows
    has the color of the segment it falls in, the blend of the primary
    and the accent color at ratio [i / 19] for segment [i]. *)
Theorem draw_dumbbell_bar (img : image) (primary_color accent_color : color) :
  valid_color primary_color -> valid_color accent_color ->
  exists img',
    draw_dumbbell img primary_color accent_color = Ok img' /\
    forall x y,
      inside img x y = true ->
      bar_left <= x < right_weight_left ->
      bar_top <= y <= bar_top + bar_height ->
      exists ratio c,
        Py.truediv ((x - bar_left) / 20) 19 = Ok ratio /\
        interpolate_color primary_color accent_color ratio = Ok c /\
        px img' x y = c.
Proof. apply bar_pixels. Qed.

Lemma draw_dumbbell_bar_witness :
  exists img',
    draw_dumbbell (mkImage 1024 1024 (fun _ _ => (60, 60, 60)))
      (99, 102, 241) (34, 211, 238) = Ok img' /\
    forall x y,
      inside (mkImage 1024 1024 (fun _ _ => (60, 60, 60))) x y = true ->
      bar_left <= x < right_weight_left ->
      bar_top <= y <= bar_top + bar_height ->
      exists ratio c,
        Py.truediv ((x - bar_left) / 20) 19 = Ok ratio /\
        interpolate_color (99, 102, 241) (34, 211, 238) ratio = Ok c /\
        px img' x y = c.
Proof.
  apply (draw_dumbbell_bar (mkImage 1024 1024 (fun _ _ => (60, 60, 60)))
           (99, 102, 241) (34, 211, 238)); cbn; unfold channel; lia.
Defined.

(** X9. The right plate lies over the bar.  The cross of the inset
    of the right plate has the blend of the accent color and the
    palette's [white] at ratio 0.2, and the cross of the plate outside
    the box of the inset has the accent color, whatever the primary
    color; so in the bar's rows, from the left edge of the right plate
    on, nothing of the bar shows: its last five segments, and with them
    the accent end of its gradient, are hidden. *)
Theorem draw_dumbbell_right_plate (img : image)
    (primary_color accent_color : color) :
  valid_color primary_color -> valid_color accent_color ->
  exists inner img',
    interpolate_color accent_color (248, 250, 252) 0.2 = Ok inner /\
    draw_dumbbell img primary_color accent_color = Ok img' /\
    (forall x y,
       inside img x y = true ->
       in_cross (inset right_plate) (weight_radius - 10) x y = true ->
       px img' x y = inner) /\
    (forall x y,
       inside img x y = true ->
       in_cross right_plate weight_radius x y = true ->
       in_bbox (inset right_plate) x y = false ->
       px img' x y = accent_color) /\
    (forall x y,
       inside img x y = true ->
       right_weight_left <= x <= right_weight_right ->
       bar_top <= y <= bar_top + bar_height ->
       px img' x y
       = if (right_weight_left + inner_margin <=? x)
            && (x <=? right_weight_right - inner_margin)
         then inner else accent_color).
Proof.
  intros Hp Ha.
  destruct (draw_dumbbell_colors img _ _ Hp Ha)
    as (il & cols & ir & _ & _ & Hir & Hvr & _ & Hd).
  exists ir. eexists. split; [exact Hir |]. split; [exact Hd |].
  change (weight_radius - 10) with 20. change weight_radius with 30.
  destruct plate_boxes as (_ & _ & Er & Eri & _).
  split; [| split].
  - intros x y Hin Hc. rewrite dumbbell_replay, Hin.
    rewrite (in_cross_rounded _ _ _ _ Hc). cbn [andb].
    apply ink_valid, Hvr.
  - intros x y Hin Hc Hout. rewrite dumbbell_replay, Hin.
    rewrite (in_cross_rounded _ _ _ _ Hc). cbn [andb].
    rewrite Eri in Hout |- *. rewrite rounded_rect_outside by (lia || exact Hout).
    apply ink_valid, Ha.
  - change right_weight_left with 612. change right_weight_right with 732.
    change bar_top with 482. change bar_height with 60.
    change inner_margin with 20.
    intros x y Hin Hx Hy. rewrite dumbbell_replay, Hin. cbn [andb].
    rewrite (ink_valid _ Hvr), (ink_valid _ Ha). rewrite Eri, Er.
    assert (Hrp : in_rounded_rect (612, 372, 732, 652) 30 x y = true).
    { unfold in_rounded_rect. rewrite (in_bbox_true 612 (372 + 30)) by lia.
      rewrite orb_true_r. reflexivity. }
    rewrite Hrp.
    destruct (Z.leb_spec (612 + 20) x) as [H1 | H1];
      [destruct (Z.leb_spec x (732 - 20)) as [H2 | H2] |]; cbn [andb].
    + unfold in_rounded_rect. rewrite (in_bbox_true 632 (392 + 20)) by lia.
      rewrite orb_true_r. reflexivity.
    + rewrite not_in_rounded_rect by lia. reflexivity.
    + rewrite not_in_rounded_rect by lia. reflexivity.
Qed.

Lemma draw_dumbbell_right_plate_witness :
  exists inner img',
    interpolate_color (34, 211, 238) (248, 250, 252) 0.2 = Ok inner /\
    draw_dumbbell (mkImage 1024 1024 (fun _ _ => (60, 60, 60)))
      (99, 102, 241) (34, 211, 238) = Ok img' /\
    (forall x y,
       inside (mkImage 1024 1024 (fun _ _ => (60, 60, 60))) x y = true ->
       in_cross (inset right_plate) (weight_radius - 10) x y = true ->
       px img' x y = inner) /\
    (forall x y,
       inside (mkImage 1024 1024 (fun _ _ => (60, 60, 60))) x y = true ->
       in_cross right_plate weight_radius x y = true ->
       in_bbox (inset right_plate) x y = false ->
       px img' x y = (34, 211, 238)) /\
    (forall x y,
       inside (mkImage 1024 1024 (fun _ _ => (60, 60, 60))) x y = true ->
       right_weight_left <= x <= right_weight_right ->
       bar_top <= y <= bar_top + bar_height ->
       px img' x y
       = if (right_weight_left + inner_margin <=? x)
            && (x <=? right_weight_right - inner_margin)
         then inner else (34, 211, 238)).
Proof.
  apply (draw_dumbbell_right_plate (mkImage 1024 1024 (fun _ _ => (60, 60, 60)))
           (99, 102, 241) (34, 211, 238)); cbn; unfold channel; lia.
Defined.

(** X10. Off the box of the bar, the cross of the inset of the left
    plate has the blend of the primary color and the palette's
    [primary_light] at ratio 0.3, and the cross of the plate outside
    the box of the inset has the primary color. *)
Theorem draw_dumbbell_left_plate (img : image)
    (primary_color accent_color : color) :
  valid_color primary_color -> valid_color accent_color ->
  exists inner img',
    interpolate_color primary_color (129, 140, 248) 0.3 = Ok inner /\
    draw_dumbbell img primary_color accent_color = Ok img' /\
    (forall x y,
       inside img x y = true -> in_bbox bar_box x y = false ->
       in_cross (inset left_plate) (weight_radius - 10) x y = true ->
       px img' x y = inner) /\
    (forall x y,
       inside img x y = true -> in_bbox bar_box x y = false ->
       in_cross left_plate weight_radius x y = true ->
       in_bbox (inset left_plate) x y = false ->
       px img' x y = primary_color).
Proof.
  intros Hp Ha.
  destruct (draw_dumbbell_colors img _ _ Hp Ha)
    as (il & cols & ir & Hil & Hvl & _ & _ & _ & Hd).
  exists il. eexists. split; [exact Hil |]. split; [exact Hd |].
  change (weight_radius - 10) with 20. change weight_radius with 30.
  destruct plate_boxes as (El & Eli & Er & Eri & _).
  assert (Hleft : forall x y,
            in_bbox left_plate x y = true ->
            in_rounded_rect (inset right_plate) 20 x y = false /\
            in_rounded_rect right_plate 30 x y = false).
  { intros x y H. rewrite El in H. apply in_bbox_spec in H.
    rewrite Eri, Er. split; apply not_in_rounded_rect; lia. }
  split.
  - intros x y Hin Hbar Hc.
    pose proof (in_cross_rounded _ _ _ _ Hc) as Hi.
    assert (Hbox : in_bbox left_plate x y = true).
    { rewrite Eli in Hi. apply in_rounded_rect_box in Hi; try lia.
      apply in_bbox_spec in Hi. rewrite El. apply in_bbox_true; lia. }
    destruct (Hleft x y Hbox) as [H1 H2].
    rewrite dumbbell_replay, H1, H2, !andb_false_r.
    rewrite (replay_frame bar_box) by (apply bar_prims_in_box || exact Hbar).
    rewrite rounded_rect_replay, inside_replay, Hin, Hi by lia.
    cbn [andb]. apply ink_valid, Hvl.
  - intros x y Hin Hbar Hc Hout.
    pose proof (in_cross_rounded _ _ _ _ Hc) as Hi.
    assert (Hbox : in_bbox left_plate x y = true).
    { rewrite El in Hi |- *. apply in_rounded_rect_box in Hi; try lia. exact Hi. }
    destruct (Hleft x y Hbox) as [H1 H2].
    rewrite dumbbell_replay, H1, H2, !andb_false_r.
    rewrite (replay_frame bar_box) by (apply bar_prims_in_box || exact Hbar).
    rewrite !rounded_rect_replay, !inside_replay, Hin, Hi by lia.
    rewrite Eli in Hout |- *. rewrite rounded_rect_outside by (lia || exact Hout).
    cbn [andb]. apply ink_valid, Hp.
Qed.

Lemma draw_dumbbell_left_plate_witness :
  exists inner img',
    interpolate_color (99, 102, 241) (129, 140, 248) 0.3 = Ok inner /\
    draw_dumbbell (mkImage 1024 1024 (fun _ _ => (60, 60, 60)))
      (99, 102, 241) (34, 211, 238) = Ok img' /\
    (forall x y,
       inside (mkImage 1024 1024 (fun _ _ => (60, 60, 60))) x y = true ->
       in_bbox bar_box x y = false ->
       in_cross (inset left_plate) (weight_radius - 10) x y = true ->
       px img' x y = inner) /\
    (forall x y,
       inside (mkImage 1024 1024 (fun _ _ => (60, 60, 60))) x y = true ->
       in_bbox bar_box x y = false ->
       in_cross left_plate weight_radius x y = true ->
       in_bbox (inset left_plate) x y = false ->
       px img' x y = (99, 102, 241)).
Proof.
  apply (draw_dumbbell_left_plate (mkImage 1024 1024 (fun _ _ => (60, 60, 60)))
           (99, 102, 241) (34, 211, 238)); cbn; unfold channel; lia.
Defined.

(** The dumbbell leaves what lies outside the boxes of the two plates
    and of the bar. *)
Lemma dumbbell_outside (p a il : color) (cols : list color) (ir : color)
    (img : image) (x y : Z) :
  in_bbox left_plate x y = false -> in_bbox right_plate x y = false ->
  in_bbox bar_box x y = false ->
  px (replay (dumbbell_prims p a il cols ir) img) x y = px img x y.
Proof.
  intros Hl Hr Hbar.
  destruct plate_boxes as (El & Eli & Er & Eri & _).
  rewrite El in Hl. rewrite Er in Hr.
  pose proof (in_bbox_spec 292 372 412 652 x y) as Sl.
  pose proof (in_bbox_spec 612 372 732 652 x y) as Sr.
  assert (Nl : ~ (292 <= x <= 412 /\ 372 <= y <= 652))
    by (intros H; apply Sl in H; congruence).
  assert (Nr : ~ (612 <= x <= 732 /\ 372 <= y <= 652))
    by (intros H; apply Sr in H; congruence).
  rewrite dumbbell_replay, Eli, El, Eri, Er.
  rewrite !not_in_rounded_rect, !andb_false_r by lia.
  rewrite (replay_frame bar_box) by (apply bar_prims_in_box || exact Hbar).
  rewrite !rounded_rect_replay by lia.
  rewrite !not_in_rounded_rect, !andb_false_r by lia. reflexivity.
Qed.

(** X11. Outside the boxes of the two plates and the box of the bar,
    [draw_dumbbell] changes nothing: between the plates, above and
    below the bar, the background shows. *)
Theorem draw_dumbbell_outline (img : image)
    (primary_color accent_color : color) :
  valid_color primary_color -> valid_color accent_color ->
  exists img',
    draw_dumbbell img primary_color accent_color = Ok img' /\
    forall x y,
      in_bbox left_plate x y = false ->
      in_bbox right_plate x y = false ->
      in_bbox bar_box x y = false ->
      px img' x y = px img x y.
Proof.
  intros Hp Ha.
  destruct (draw_dumbbell_colors img _ _ Hp Ha)
    as (il & cols & ir & _ & _ & _ & _ & _ & Hd).
  eexists. split; [exact Hd |].
  intros x y Hl Hr Hbar. apply dumbbell_outside; assumption.
Qed.

Lemma draw_dumbbell_outline_witness :
  exists img',
    draw_dumbbell (mkImage 1024 1024 (fun _ _ => (60, 60, 60)))
      (99, 102, 241) (34, 211, 238) = Ok img' /\
    forall x y,
      in_bbox left_plate x y = false ->
      in_bbox right_plate x y = false ->
      in_bbox bar_box x y = false ->
      px img' x y = px (mkImage 1024 1024 (fun _ _ => (60, 60, 60))) x y.
Proof.
  apply (draw_dumbbell_outline (mkImage 1024 1024 (fun _ _ => (60, 60, 60)))
           (99, 102, 241) (34, 211, 238)); cbn; unfold channel; lia.
Defined.

(** ** The three variants *)

(** A blend of two grays is a gray. *)
Lemma interpolate_color_gray (u v : Z) (r : float) (c : color) :
  interpolate_color (u, u, u) (v, v, v) r = Ok c -> exists k, c = (k, k, k).
Proof.
  unfold interpolate_color. destruct (lerp u v r) as [k |]; cbn [rbind];
    intros E; [| discriminate E].
  injection E as <-. exists k. reflexivity.
Qed.

(** A variant: a gradient of size [SIZE] with the dumbbell on top. *)
Lemma variant_spec (c0 c1 p a : color) :
  valid_color c0 -> valid_color c1 -> valid_color p -> valid_color a ->
  exists bg il cols ir,
    create_radial_gradient SIZE c0 c1 = Ok bg /\
    width bg = SIZE /\ height bg = SIZE /\
    (forall x y, 0 <= x < SIZE -> 0 <= y < SIZE ->
       interpolate_color c0 c1 (gradient_ratio SIZE (dist2 SIZE x y))
       = Ok (px bg x y)) /\
    valid_color il /\ valid_color ir /\
    Forall2 (fun i c => segment_color p a i = Ok c) (range bar_segments) cols /\
    (do img <- create_radial_gradient SIZE c0 c1 ; draw_dumbbell img p a)
    = Ok (replay (dumbbell_prims p a il cols ir) bg).
Proof.
  intros H0 H1 Hp Ha.
  destruct (gradient_image SIZE c0 c1) as (bg & Hbg & Hw & Hh & Hpix);
    [unfold SIZE; change (2 ^ 26) with 67108864; lia | assumption ..|].
  destruct (draw_dumbbell_colors bg p a Hp Ha)
    as (il & cols & ir & _ & Hvl & _ & Hvr & Hcols & Hd).
  exists bg, il, cols, ir. split; [exact Hbg |].
  split; [exact Hw |]. split; [exact Hh |].
  split; [intros x y Hx Hy; apply Hpix; assumption |].
  split; [exact Hvl |]. split; [exact Hvr |]. split; [exact Hcols |].
  rewrite Hbg. cbn [rbind]. exact Hd.
Qed.

(** X12. Each of the three variants is an image of 1024 by 1024
    pixels that, outside the boxes of the two plates and the box of the
    bar, is the gradient of the variant: the blend of its center color
    and its edge color at the ratio of the pixel. *)
Theorem variants_background (gen : result image) (c0 c1 : color) :
  In (gen, c0, c1)
    [(generate_main_icon, COLORS card, COLORS background);
     (generate_dark_icon, (20, 30, 50), (10, 15, 30));
     (generate_tinted_icon, (60, 60, 60), (30, 30, 30))] ->
  exists icon,
    gen = Ok icon /\ width icon = 1024 /\ height icon = 1024 /\
    forall x y,
      0 <= x < 1024 -> 0 <= y < 1024 ->
      in_bbox left_plate x y = false ->
      in_bbox right_plate x y = false ->
      in_bbox bar_box x y = false ->
      interpolate_color c0 c1 (gradient_ratio 1024 (dist2 1024 x y))
      = Ok (px icon x y).
Proof.
  assert (Hv : forall r g b, channel r -> channel g -> channel b ->
                           valid_color (r, g, b)) by (cbn; tauto).
  assert (Hgen : forall c0 c1 p a, valid_color c0 -> valid_color c1 ->
            valid_color p -> valid_color a ->
            exists icon,
              (do img <- create_radial_gradient SIZE c0 c1 ;
               draw_dumbbell img p a) = Ok icon /\
              width icon = 1024 /\ height icon = 1024 /\
              forall x y,
                0 <= x < 1024 -> 0 <= y < 1024 ->
                in_bbox left_plate x y = false ->
                in_bbox right_plate x y = false ->
                in_bbox bar_box x y = false ->
                interpolate_color c0 c1 (gradient_ratio 1024 (dist2 1024 x y))
                = Ok (px icon x y)).
  { clear gen c0 c1. intros c0 c1 p a H0 H1 Hp Ha.
    destruct (variant_spec c0 c1 p a H0 H1 Hp Ha)
      as (bg & il & cols & ir & Hbg & Hw & Hh & Hpix & _ & _ & _ & Hd).
    rewrite Hd. eexists. split; [reflexivity |].
    destruct (replay_size (dumbbell_prims p a il cols ir) bg) as [Hw' Hh'].
    split; [rewrite Hw'; exact Hw |]. split; [rewrite Hh'; exact Hh |].
    intros x y Hx Hy Hl Hr Hbar.
    rewrite dumbbell_outside by assumption. apply (Hpix x y); assumption. }
  intros [E | [E | [E | []]]];
    apply pair_equal_spec in E as [E <-];
    apply pair_equal_spec in E as [<- <-].
  - unfold generate_main_icon.
    apply (Hgen (COLORS card) (COLORS background) (COLORS primary) (COLORS accent));
      apply valid_palette.
  - unfold generate_dark_icon. cbv zeta.
    apply (Hgen (20, 30, 50) (10, 15, 30) (COLORS primary_light) (COLORS accent));
      [apply Hv; unfold channel; lia | apply Hv; unfold channel; lia
      | apply valid_palette | apply valid_palette].
  - unfold generate_tinted_icon.
    apply (Hgen (60, 60, 60) (30, 30, 30) (180, 180, 180) (220, 220, 220));
      apply Hv; unfold channel; lia.
Qed.

Lemma variants_background_witness :
  exists icon,
    generate_dark_icon = Ok icon /\ width icon = 1024 /\ height icon = 1024 /\
    forall x y,
      0 <= x < 1024 -> 0 <= y < 1024 ->
      in_bbox left_plate x y = false ->
      in_bbox right_plate x y = false ->
      in_bbox bar_box x y = false ->
      interpolate_color (20, 30, 50) (10, 15, 30)
        (gradient_ratio 1024 (dist2 1024 x y))
      = Ok (px icon x y).
Proof.
  apply (variants_background generate_dark_icon (20, 30, 50) (10, 15, 30)).
  apply in_cons, in_eq.
Defined.

(** X13. The tinted variant is gray outside the two insets: a pixel
    that lies in neither of the boxes of the insets has its three
    channels equal.  The colors that are not gray are confined to the
    insets. *)
Theorem generate_tinted_icon_gray :
  exists icon,
    generate_tinted_icon = Ok icon /\
    forall x y,
      0 <= x < 1024 -> 0 <= y < 1024 ->
      in_bbox (inset left_plate) x y = false ->
      in_bbox (inset right_plate) x y = false ->
      exists k, px icon x y = (k, k, k).
Proof.
  assert (Hv : forall k, channel k -> valid_color (k, k, k)) by (cbn; tauto).
  unfold generate_tinted_icon.
  destruct (variant_spec (60, 60, 60) (30, 30, 30) (180, 180, 180) (220, 220, 220))
    as (bg & il & cols & ir & _ & Hw & Hh & Hpix & Hvl & Hvr & Hcols & Hd);
    try (apply Hv; unfold channel; lia).
  rewrite Hd. eexists. split; [reflexivity |].
  intros x y Hx Hy Hli Hri.
  destruct plate_boxes as (El & Eli & Er & Eri & _).
  assert (Hli' : in_rounded_rect (inset left_plate) 20 x y = false).
  { rewrite Eli in *. apply not_true_is_false. intros H.
    apply in_rounded_rect_box in H; try lia. congruence. }
  assert (Hri' : in_rounded_rect (inset right_plate) 20 x y = false).
  { rewrite Eri in *. apply not_true_is_false. intros H.
    apply in_rounded_rect_box in H; try lia. congruence. }
  rewrite dumbbell_replay, Hri', andb_false_r.
  destruct (inside bg x y && in_rounded_rect right_plate 30 x y);
    [exists 220; reflexivity |].
  apply (replay_invariant (fun c => exists k, c = (k, k, k))).
  - apply Forall_lookup. intros k q Hq. apply bar_prims_elem in Hq.
    destruct Hq as (c & Hc & Hk & ->). intros _. cbn [fill_of].
    destruct (Forall2_lookup_r _ _ _ _ _ Hcols Hc) as (i & _ & Hseg).
    unfold segment_color in Hseg.
    destruct (Py.truediv i (bar_segments - 1)) as [ratio |];
      [| discriminate Hseg].
    cbn [rbind] in Hseg. apply interpolate_color_gray in Hseg.
    destruct Hseg as (v & ->). exists (clip8 v). reflexivity.
  - rewrite !rounded_rect_replay by lia. rewrite Hli', andb_false_r.
    destruct (inside _ x y && in_rounded_rect left_plate 30 x y);
      [exists 180; reflexivity |].
    apply (interpolate_color_gray 60 30 (gradient_ratio SIZE (dist2 SIZE x y))).
    apply Hpix; assumption.
Qed.

(** ** Runs of [main] *)

(** X14. When the output directory cannot be made, [main] raises
    [OSError] after its first line of output: no icon is generated,
    no file is written. *)
Theorem main_makedirs_fails (w : world) :
  makedirs_fails w (output_dir_of w) = true ->
  fst (main w) = Raise OSError /\
  files (snd (main w)) = files w /\
  trace (snd (main w))
  = trace w ++ [Printed (String.append "Output directory: " (output_dir_of w))].
Proof.
  intros Hm. unfold main, io_bind, print, os_makedirs.
  cbn [log write project_dir files trace makedirs_fails save_fault fst snd].
  rewrite Hm. repeat split.
Qed.

Lemma main_makedirs_fails_witness :
  let w := mkWorld "/home/dev/app" ∅ [] (fun _ => true) (fun _ => None) in
  fst (main w) = Raise OSError /\
  files (snd (main w)) = files w /\
  trace (snd (main w))
  = trace w ++ [Printed (String.append "Output directory: " (output_dir_of w))].
Proof.
  intros w. apply (main_makedirs_fails w). reflexivity.
Defined.

(** Every run of [main], case by case on what the file system does. *)
Ltac main_cases w H1 H2 H3 :=
  destruct (makedirs_fails w (output_dir_of w)) eqn:Hm;
  [ unfold main, io_bind, print, os_makedirs;
    cbn [log write project_dir files trace makedirs_fails save_fault fst snd];
    rewrite Hm
  | destruct (save_fault w (icon_path w "AppIcon.png")) as [[] |] eqn:Hs1;
    [ | | destruct (save_fault w (icon_path w "AppIcon-Dark.png")) as [[] |] eqn:Hs2;
          [ | | destruct (save_fault w (icon_path w "AppIcon-Tinted.png"))
                  as [[] |] eqn:Hs3 ] ];
    run_main H1 H2 H3 ].

(** X15. Whatever happens, [main] touches no file but the three
    icons: every other path holds after the run what it held before. *)
Theorem main_other_files (w : world) (path : string) :
  ~ In path [icon_path w "AppIcon.png"; icon_path w "AppIcon-Dark.png";
             icon_path w "AppIcon-Tinted.png"] ->
  files (snd (main w)) !! path = files w !! path.
Proof.
  intros Hp. cbn [In] in Hp.
  assert (Hp1 : icon_path w "AppIcon.png" <> path) by tauto.
  assert (Hp2 : icon_path w "AppIcon-Dark.png" <> path) by tauto.
  assert (Hp3 : icon_path w "AppIcon-Tinted.png" <> path) by tauto.
  clear Hp.
  destruct icons_generated as (i1 & i2 & i3 & H1 & H2 & H3).
  main_cases w H1 H2 H3; cbn [files snd];
    rewrite ?lookup_insert_ne by assumption; reflexivity.
Qed.

Lemma main_other_files_witness :
  let w := mkWorld "/home/dev/app" {["/home/dev/app/notes.txt" := Truncated]} []
             (fun _ => false) (fun _ => Some WriteFails) in
  files (snd (main w)) !! "/home/dev/app/notes.txt"
  = files w !! "/home/dev/app/notes.txt".
Proof.
  intros w. apply (main_other_files w "/home/dev/app/notes.txt").
  vm_compute. intros [H | [H | [H | []]]]; discriminate H.
Defined.




(** X17. [main] prints its line of success exactly when it returns
    without an exception: after a failure of [os.makedirs] or of a
    [save], the lines it has added to the output do not hold it. *)
Theorem main_reports_success (w : world) :
  exists out,
    trace (snd (main w)) = trace w ++ out /\
    (In (Printed (String "010"%char "All icons generated successfully!")) out
     <-> fst (main w) = Ok tt).
Proof.
  destruct icons_generated as (i1 & i2 & i3 & H1 & H2 & H3).
  main_cases w H1 H2 H3;
    (eexists; split; [reflexivity |]);
    cbn [fst In]; split; intros H;
    try reflexivity; try discriminate H;
    try (repeat (destruct H as [H | H]; [discriminate H |]); contradiction).
  do 11 right. left. reflexivity.
Qed.

(** * Rounding to nearest, over the reals

    The float operations round the exact result to the nearest float.
    The exact square root is not a rational, so this part places the
    results among the real numbers. *)

Lemma pow2_gt0 (e : Z) : (0 < pow2 e)%R.
Proof. apply powerRZ_lt. lra. Qed.

Lemma pow2_add (a b : Z) : pow2 (a + b) = (pow2 a * pow2 b)%R.
Proof. apply powerRZ_add. lra. Qed.

Lemma pow2_0 : pow2 0 = 1%R.
Proof. reflexivity. Qed.

Lemma pow2_IZR (k : Z) : 0 <= k -> pow2 k = IZR (2 ^ k).
Proof.
  intros Hk. unfold pow2. rewrite <- (Z2Nat.id k Hk) at 1.
  rewrite <- pow_powerRZ, pow_IZR, Z2Nat.id by exact Hk. reflexivity.
Qed.

Lemma pow2_1 : pow2 1 = 2%R.
Proof. rewrite (pow2_IZR 1) by lia. reflexivity. Qed.

Lemma pow2_opp (e : Z) : (pow2 e * pow2 (- e) = 1)%R.
Proof. rewrite <- pow2_add, Z.add_opp_diag_r. apply pow2_0. Qed.

Lemma pow2_m1 : pow2 (-1) = (/ 2)%R.
Proof.
  pose proof (pow2_opp 1) as H. rewrite pow2_1 in H.
  change (Z.opp 1) with (-1) in H. lra.
Qed.

Lemma pow2_le (a b : Z) : a <= b -> (pow2 a <= pow2 b)%R.
Proof.
  intros H. replace b with (a + (b - a)) by lia.
  rewrite pow2_add, (pow2_IZR (b - a)) by lia.
  pose proof (pow2_gt0 a) as Ha.
  assert (H1 : (1 <= IZR (2 ^ (b - a)))%R).
  { apply IZR_le. pose proof (pow2_pos (b - a) ltac:(lia)). lia. }
  rewrite <- (Rmult_1_r (pow2 a)) at 1.
  apply Rmult_le_compat_l; lra.
Qed.

Lemma pow2_lt (a b : Z) : a < b -> (pow2 a < pow2 b)%R.
Proof.
  intros H. apply Rlt_le_trans with (pow2 (a + 1)); [| apply pow2_le; lia].
  rewrite pow2_add, pow2_1. pose proof (pow2_gt0 a). lra.
Qed.

(** A real lies in one binade only. *)
Lemma binade_unique (x : R) (j k : Z) :
  (pow2 (j - 1) <= x < pow2 j)%R -> (pow2 (k - 1) <= x < pow2 k)%R -> j = k.
Proof.
  intros [Hj1 Hj2] [Hk1 Hk2].
  destruct (Z.lt_trichotomy j k) as [H | [H | H]]; [| exact H |]; exfalso.
  - pose proof (pow2_le j (k - 1) ltac:(lia)). lra.
  - pose proof (pow2_le k (j - 1) ltac:(lia)). lra.
Qed.

(** Scaling an inequality by a power of two. *)
Lemma scale_le (a b : R) (e : Z) :
  (a <= b)%R -> (a * pow2 e <= b * pow2 e)%R.
Proof.
  intros H. apply Rmult_le_compat_r; [| exact H].
  apply Rlt_le, pow2_gt0.
Qed.

Lemma scale_lt (a b : R) (e : Z) :
  (a < b)%R -> (a * pow2 e < b * pow2 e)%R.
Proof. intros H. apply Rmult_lt_compat_r; [apply pow2_gt0 | exact H]. Qed.

Lemma located_bounds (x : R) (m e : Z) (l : location) :
  located x m e l -> (IZR m <= x * pow2 (- e) < IZR m + 1)%R.
Proof. destruct l as [| []]; cbn [located]; intros H; lra. Qed.

(** One more bit dropped: the place in the cell twice as wide. *)
Lemma located_shr_1 (x : R) (mrs : shr_record) (e : Z) :
  0 <= shr_m mrs ->
  located x (shr_m mrs) e (loc_of_shr_record mrs) ->
  located x (shr_m (shr_1 mrs)) (e + 1) (loc_of_shr_record (shr_1 mrs)).
Proof.
  assert (HxO : forall p, IZR (Z.pos p~0) = (2 * IZR (Z.pos p))%R).
  { intros p. rewrite Pos2Z.inj_xO, mult_IZR. reflexivity. }
  assert (HxI : forall p, IZR (Z.pos p~1) = (2 * IZR (Z.pos p) + 1)%R).
  { intros p. rewrite Pos2Z.inj_xI, plus_IZR, mult_IZR. reflexivity. }
  assert (H1 : (x * pow2 (- (e + 1)) = x * pow2 (- e) / 2)%R).
  { replace (- (e + 1)) with (- e + -1) by lia.
    rewrite pow2_add, pow2_m1. lra. }
  destruct mrs as [m r s]. cbn [shr_m]. intros Hm.
  destruct m as [| [p | p |] | p]; [| | | | lia];
    try pose proof (HxO p) as Hp0; try pose proof (HxI p) as Hp1;
    destruct r, s;
    cbn [shr_1 shr_m loc_of_shr_record orb located];
    rewrite H1; intros H; lra.
Qed.

Lemma located_iter (x : R) (p : positive) :
  forall (mrs : shr_record) (e : Z),
    0 <= shr_m mrs ->
    located x (shr_m mrs) e (loc_of_shr_record mrs) ->
    located x (shr_m (SpecFloat.iter_pos shr_1 p mrs)) (e + Z.pos p)
      (loc_of_shr_record (SpecFloat.iter_pos shr_1 p mrs)).
Proof.
  assert (Hnn : forall mrs, 0 <= shr_m mrs -> 0 <= shr_m (shr_1 mrs)).
  { intros mrs H. destruct (shr_1_m mrs H) as (-> & _). apply Z.div_pos; lia. }
  induction p as [p IH | p IH |]; intros mrs e Hm H; cbn [SpecFloat.iter_pos].
  - replace (e + Z.pos p~1) with (e + 1 + Z.pos p + Z.pos p) by lia.
    apply IH; [apply iter_shr_1_nonneg, Hnn, Hm |].
    apply IH; [apply Hnn, Hm |]. apply located_shr_1; assumption.
  - replace (e + Z.pos p~0) with (e + Z.pos p + Z.pos p) by lia.
    apply IH; [apply iter_shr_1_nonneg, Hm |]. apply IH; assumption.
  - apply located_shr_1; assumption.
Qed.

Lemma loc_of_shr_record_of_loc (m : Z) (l : location) :
  loc_of_shr_record (shr_record_of_loc m l) = l /\
  shr_m (shr_record_of_loc m l) = m.
Proof. destruct l as [| []]; split; reflexivity. Qed.

(** [shr_fexp] keeps the place of the real, at the exponent it moves
    to. *)
Lemma located_shr_fexp (x : R) (m e : Z) (l : location) :
  0 <= m -> located x m e l ->
  located x (shr_m (fst (shr_fexp prec emax m e l)))
    (snd (shr_fexp prec emax m e l))
    (loc_of_shr_record (fst (shr_fexp prec emax m e l))) /\
  snd (shr_fexp prec emax m e l) = Z.max e (fexp prec emax (Zdigits2 m + e)).
Proof.
  intros Hm H. unfold shr_fexp, shr.
  destruct (loc_of_shr_record_of_loc m l) as [Hl Hsm].
  destruct (fexp prec emax (Zdigits2 m + e) - e) as [| p | p] eqn:E;
    cbn [fst snd].
  - rewrite Hl, Hsm. split; [exact H | lia].
  - split; [| lia]. apply located_iter; rewrite ?Hl, Hsm; assumption.
  - rewrite Hl, Hsm. split; [exact H | lia].
Qed.

Lemma round_nearest_even_range (m : Z) (l : location) :
  m <= round_nearest_even m l <= m + 1.
Proof.
  destruct l as [| []]; cbn [round_nearest_even]; try lia.
  destruct (Z.even m); lia.
Qed.

(** Rounding to nearest even is monotone: of two reals on the same
    grid, the larger one does not round below the smaller one. *)
Lemma round_nearest_even_mono (x y : R) (m1 m2 e : Z) (l1 l2 : location) :
  located x m1 e l1 -> located y m2 e l2 -> (x <= y)%R ->
  round_nearest_even m1 l1 <= round_nearest_even m2 l2.
Proof.
  intros H1 H2 Hxy. apply (scale_le _ _ (- e)) in Hxy.
  pose proof (round_nearest_even_range m1 l1) as R1.
  pose proof (round_nearest_even_range m2 l2) as R2.
  destruct (Z.lt_trichotomy m1 m2) as [H | [H | H]].
  - lia.
  - subst m2.
    destruct l1 as [| []], l2 as [| []];
      cbn [round_nearest_even located] in *;
      try lia; try (destruct (Z.even m1); lia); exfalso; lra.
  - exfalso. apply located_bounds in H1, H2.
    assert (Hm : (IZR m2 + 1 <= IZR m1)%R).
    { rewrite <- plus_IZR. apply IZR_le. lia. }
    lra.
Qed.

Lemma unscale (x : R) (e : Z) : (x * pow2 (- e) * pow2 e = x)%R.
Proof.
  rewrite Rmult_assoc, (Rmult_comm (pow2 (- e))), pow2_opp. lra.
Qed.

(** A real of the binade [k], in units of [2^e]. *)
Lemma scaled_binade (x : R) (k e : Z) :
  e < k ->
  (pow2 (k - 1) <= x < pow2 k)%R ->
  (IZR (2 ^ (k - 1 - e)) <= x * pow2 (- e) < IZR (2 ^ (k - e)))%R.
Proof.
  intros He [H1 H2].
  apply (scale_le _ _ (- e)) in H1. apply (scale_lt _ _ (- e)) in H2.
  rewrite <- pow2_add in H1, H2.
  rewrite <- !pow2_IZR by lia.
  replace (k - 1 - e) with (k - 1 + - e) by lia.
  replace (k - e) with (k + - e) by lia. split; assumption.
Qed.

(** The integer cell of a real between two powers of two. *)
Lemma cell_bounds (t : R) (m a b : Z) :
  (IZR m <= t < IZR m + 1)%R -> (IZR a <= t < IZR b)%R -> a <= m < b.
Proof.
  intros [H1 H2] [H3 H4]. split.
  - assert (H : (IZR a < IZR (m + 1))%R) by (rewrite plus_IZR; lra).
    apply lt_IZR in H. lia.
  - apply lt_IZR. lra.
Qed.

Lemma digits_unique (p : positive) (K : Z) :
  2 ^ (K - 1) <= Z.pos p < 2 ^ K -> 1 <= K -> Z.pos (digits2_pos p) = K.
Proof.
  intros [H1 H2] HK. pose proof (digits2_pos_bounds p) as [D1 D2].
  set (d := Z.pos (digits2_pos p)) in *.
  assert (Hd : 1 <= d) by (unfold d; lia).
  assert (A : 2 ^ (d - 1) < 2 ^ K) by lia.
  assert (B : 2 ^ (K - 1) < 2 ^ d) by lia.
  apply Z.pow_lt_mono_r_iff in A; [| lia | lia].
  apply Z.pow_lt_mono_r_iff in B; [| lia | lia]. lia.
Qed.

(** Rounding a real of a normal binade [k]: the result is the float
    whose value is the real's cell on the grid [2^(k - 53)], rounded
    to nearest even. *)
Lemma binary_round_aux_located (x : R) (k m e : Z) (l : location) :
  0 <= m -> located x m e l ->
  (pow2 (k - 1) <= x < pow2 k)%R -> e <= k - 53 -> -1021 <= k <= 1023 ->
  exists m' l' mf ef,
    located x m' (k - 53) l' /\
    2 ^ 52 <= round_nearest_even m' l' <= 2 ^ 53 /\
    binary_round_aux prec emax false m e l = S754_finite false mf ef /\
    (IZR (Z.pos mf) * pow2 ef
     = IZR (round_nearest_even m' l') * pow2 (k - 53))%R.
Proof.
  intros Hm Hloc Hx He Hk.
  pose proof (scaled_binade x k e ltac:(lia) Hx) as Hte.
  pose proof (located_bounds _ _ _ _ Hloc) as Hcell.
  pose proof (cell_bounds _ _ _ _ Hcell Hte) as Hmb.
  assert (Hpos : 0 < 2 ^ (k - 1 - e)) by (apply pow2_pos; lia).
  destruct m as [| p | p]; [lia | | lia].
  pose proof (digits_unique p (k - e)) as Hd.
  replace (k - e - 1) with (k - 1 - e) in Hd by lia.
  specialize (Hd Hmb ltac:(lia)).
  destruct (located_shr_fexp x (Z.pos p) e l Hm Hloc) as [Hloc1 He1].
  cbn [Zdigits2] in He1. rewrite Hd, fexp64_eq in He1.
  replace (Z.max e (Z.max (k - e + e - 53) (-1074))) with (k - 53) in He1 by lia.
  unfold binary_round_aux.
  destruct (shr_fexp prec emax (Z.pos p) e l) as [mrs' e1]. cbn [fst snd] in *.
  subst e1. set (m' := shr_m mrs') in *. set (l' := loc_of_shr_record mrs') in *.
  pose proof (scaled_binade x k (k - 53) ltac:(lia) Hx) as Ht1.
  replace (k - 1 - (k - 53)) with 52 in Ht1 by lia.
  replace (k - (k - 53)) with 53 in Ht1 by lia.
  pose proof (cell_bounds _ _ _ _ (located_bounds _ _ _ _ Hloc1) Ht1) as Hm'.
  pose proof (round_nearest_even_range m' l') as Hn.
  set (n := round_nearest_even m' l') in *.
  exists m', l'.
  pose proof pow2_53 as P53.
  assert (P52 : 2 ^ 53 = 2 * 2 ^ 52) by reflexivity.
  assert (P52' : 0 < 2 ^ 52) by (apply pow2_pos; lia).
  destruct n as [| q | q] eqn:Hq; [lia | | lia].
  unfold shr_fexp. cbn [Zdigits2]. rewrite fexp64_eq.
  destruct (Z_lt_le_dec (Z.pos q) (2 ^ 53)) as [Hlt | Hge].
  - rewrite (digits_unique q 53) by (change (53 - 1) with 52; lia).
    replace (Z.max (53 + (k - 53) - 53) (-1074) - (k - 53)) with 0 by lia.
    cbn [shr shr_record_of_loc shr_m].
    replace (k - 53 <=? emax - prec) with true
      by (symmetry; apply Z.leb_le; change (emax - prec) with 971; lia).
    exists q, (k - 53). split; [exact Hloc1 |].
    split; [change (round_nearest_even m' l') with n; rewrite Hq; lia |].
    split; [reflexivity |].
    change (round_nearest_even m' l') with n. rewrite Hq. reflexivity.
  - assert (Hq53 : Z.pos q = 2 ^ 53) by lia.
    rewrite (digits_unique q 54)
      by (change (54 - 1) with 53; change (2 ^ 54) with (2 * 2 ^ 53); lia).
    replace (Z.max (54 + (k - 53) - 53) (-1074) - (k - 53)) with 1 by lia.
    cbn [shr shr_record_of_loc SpecFloat.iter_pos].
    destruct q as [q' | q' |]; cbn [shr_1 shr_m];
      try (exfalso; rewrite P53 in Hq53; lia).
    replace (k - 53 + 1 <=? emax - prec) with true
      by (symmetry; apply Z.leb_le; change (emax - prec) with 971; lia).
    exists q', (k - 53 + 1). split; [exact Hloc1 |].
    split; [change (round_nearest_even m' l') with n; rewrite Hq; lia |].
    split; [reflexivity |].
    change (round_nearest_even m' l') with n. rewrite Hq.
    rewrite pow2_add, pow2_1, (Pos2Z.inj_xO q'), mult_IZR. ring.
Qed.

(** Rounding is monotone: of two reals of normal binades, the larger
    one does not round to the smaller float. *)
Lemma binary_round_aux_mono (x y : R) (kx ky mx ex my ey : Z)
    (lx ly : location) :
  0 <= mx -> located x mx ex lx ->
  (pow2 (kx - 1) <= x < pow2 kx)%R -> ex <= kx - 53 -> -1021 <= kx <= 1023 ->
  0 <= my -> located y my ey ly ->
  (pow2 (ky - 1) <= y < pow2 ky)%R -> ey <= ky - 53 -> -1021 <= ky <= 1023 ->
  (x <= y)%R ->
  (SF2R (binary_round_aux prec emax false mx ex lx)
   <= SF2R (binary_round_aux prec emax false my ey ly))%R.
Proof.
  intros Hmx Hlx Hx Hex Hkx Hmy Hly Hy Hey Hky Hxy.
  destruct (binary_round_aux_located x kx mx ex lx Hmx Hlx Hx Hex Hkx)
    as (mx' & lx' & fx & gx & Hlx' & Hnx & -> & Vx).
  destruct (binary_round_aux_located y ky my ey ly Hmy Hly Hy Hey Hky)
    as (my' & ly' & fy & gy & Hly' & Hny & -> & Vy).
  cbn [SF2R cond_Zopp]. rewrite Vx, Vy.
  assert (Hk : kx <= ky).
  { destruct (Z_le_gt_dec kx ky) as [H | H]; [exact H | exfalso].
    pose proof (pow2_le ky (kx - 1) ltac:(lia)). lra. }
  destruct (Z.eq_dec kx ky) as [E | N].
  - subst ky. apply scale_le, IZR_le.
    apply (round_nearest_even_mono x y _ _ (kx - 53)); assumption.
  - apply Rle_trans with (pow2 kx).
    + replace kx with (53 + (kx - 53)) at 2 by lia.
      rewrite pow2_add, (pow2_IZR 53) by lia. apply scale_le, IZR_le. lia.
    + apply Rle_trans with (pow2 (ky - 1)); [apply pow2_le; lia |].
      replace (ky - 1) with (52 + (ky - 53)) by lia.
      rewrite pow2_add, (pow2_IZR 52) by lia. apply scale_le, IZR_le. lia.
Qed.

(** ** The exact results the operations round *)

(** A finite float lies in the binade its digits and exponent name. *)
Lemma float_binade (m : positive) (e : Z) :
  (pow2 (Z.pos (digits2_pos m) + e - 1) <= IZR (Z.pos m) * pow2 e
   < pow2 (Z.pos (digits2_pos m) + e))%R.
Proof.
  pose proof (digits2_pos_bounds m) as [D1 D2].
  set (d := Z.pos (digits2_pos m)) in *.
  assert (Hd : 1 <= d) by (unfold d; lia).
  replace (d + e - 1) with (d - 1 + e) by lia.
  rewrite !pow2_add, (pow2_IZR (d - 1)), (pow2_IZR d) by lia.
  split; [apply scale_le, IZR_le; exact D1 | apply scale_lt, IZR_lt; exact D2].
Qed.

Lemma sq_le_inv (a b : R) :
  (0 <= a)%R -> (0 <= b)%R -> (a * a <= b * b)%R -> (a <= b)%R.
Proof. intros Ha Hb H. apply Rsqr_incr_0; assumption. Qed.

Lemma sq_lt_inv (a b : R) :
  (0 <= a)%R -> (0 <= b)%R -> (a * a < b * b)%R -> (a < b)%R.
Proof. intros Ha Hb H. apply Rsqr_incrst_0; assumption. Qed.

Lemma div2_bounds (a : Z) : 2 * Z.div2 a <= a <= 2 * Z.div2 a + 1.
Proof.
  rewrite Z.div2_div. pose proof (Z.div_mod a 2 ltac:(lia)).
  pose proof (Z.mod_pos_bound a 2 ltac:(lia)). lia.
Qed.

(** The place of the exact square root of a real with an integer
    square on the grid. *)
Lemma sqrt_located (t : R) (n q r : Z) :
  (0 <= t)%R -> (t * t = IZR n)%R -> n = q * q + r -> 0 <= q -> 0 <= r <= 2 * q ->
  match (if r =? 0 then loc_Exact else loc_Inexact (if r <=? q then Lt else Gt)) with
  | loc_Exact => (t = IZR q)%R
  | loc_Inexact Lt => (IZR q < t < IZR q + / 2)%R
  | loc_Inexact Eq => (t = IZR q + / 2)%R
  | loc_Inexact Gt => (IZR q + / 2 < t < IZR q + 1)%R
  end.
Proof.
  intros Ht Hsq -> Hq Hr. rewrite plus_IZR, mult_IZR in Hsq.
  assert (HQ : (0 <= IZR q)%R) by (apply IZR_le; exact Hq).
  assert (HR : (0 <= IZR r <= 2 * IZR q)%R).
  { split; [apply IZR_le; lia |]. rewrite <- mult_IZR. apply IZR_le. lia. }
  set (Q := IZR q) in *. set (Rr := IZR r) in *.
  assert (Hhalf : ((Q + / 2) * (Q + / 2) = Q * Q + Q + / 4)%R) by field.
  assert (Hone : ((Q + 1) * (Q + 1) = Q * Q + 2 * Q + 1)%R) by ring.
  destruct (Z.eqb_spec r 0) as [E | N].
  - assert (Rr = 0%R) by (unfold Rr; rewrite E; reflexivity).
    apply Rle_antisym; apply sq_le_inv; try assumption; lra.
  - assert (H1 : (1 <= Rr)%R) by (apply IZR_le; lia).
    destruct (Z.leb_spec r q) as [L | G].
    + assert (Rr <= Q)%R by (apply IZR_le; exact L).
      split; apply sq_lt_inv; try assumption; lra.
    + assert (Q + 1 <= Rr)%R by (unfold Q; rewrite <- plus_IZR; apply IZR_le; lia).
      split; apply sq_lt_inv; try assumption; lra.
Qed.

(** What [SFsqrt_core_binary] hands to the rounding: the place of the
    exact square root, in the binade [k] of the root. *)
Lemma SFsqrt_core_located (m : positive) (e : Z) :
  let k := Z.div2 (Z.pos (digits2_pos m) + e + 1) in
  -1021 <= k ->
  exists q e' l,
    SFsqrt_core_binary prec emax (Z.pos m) e = (q, e', l) /\
    0 <= q /\ located (R_sqrt.sqrt (IZR (Z.pos m) * pow2 e)) q e' l /\
    e' <= k - 53 /\
    (pow2 (k - 1) <= R_sqrt.sqrt (IZR (Z.pos m) * pow2 e) < pow2 k)%R.
Proof.
  intros k Hk. pose proof (float_binade m e) as Hbin.
  set (X := (IZR (Z.pos m) * pow2 e)%R) in *.
  assert (HX : (0 <= X)%R).
  { pose proof (pow2_gt0 (Z.pos (digits2_pos m) + e - 1)). lra. }
  pose proof (sqrt_sqrt X HX) as Hss. pose proof (sqrt_pos X) as Hsp.
  set (S := R_sqrt.sqrt X) in *.
  unfold SFsqrt_core_binary. cbn [Zdigits2]. rewrite fexp64_eq.
  fold k. set (e' := Z.min (Z.max (k - 53) (-1074)) (Z.div2 e)).
  pose proof (div2_bounds e) as He2.
  pose proof (div2_bounds (Z.pos (digits2_pos m) + e + 1)) as Hk2. fold k in Hk2.
  assert (He' : e' <= k - 53 /\ 2 * e' <= e) by (unfold e'; lia).
  set (s := e - 2 * e').
  assert (Hs : 0 <= s) by (unfold s; lia).
  set (m' := match s with
             | 0 => Z.pos m
             | Z.pos _ => Z.shiftl (Z.pos m) s
             | Z.neg _ => 0
             end).
  assert (Hm' : m' = Z.pos m * 2 ^ s).
  { unfold m'. destruct s as [| p | p] eqn:Es; [cbn; lia | | lia].
    apply Z.shiftl_mul_pow2. lia. }
  assert (Hm'0 : 0 <= m').
  { rewrite Hm'. pose proof (pow2_pos s Hs). lia. }
  pose proof (Z.sqrtrem_spec m' Hm'0) as Hspec.
  destruct (Z.sqrtrem m') as [q r]. destruct Hspec as [Hqr Hr].
  assert (Hq : 0 <= q) by nia.
  exists q, e'. eexists. split; [reflexivity |]. split; [exact Hq |].
  assert (HT : (S * pow2 (- e') * (S * pow2 (- e')) = IZR m')%R).
  { rewrite Hm', mult_IZR, <- pow2_IZR by exact Hs.
    replace (S * pow2 (- e') * (S * pow2 (- e')))%R
      with (S * S * (pow2 (- e') * pow2 (- e')))%R by ring.
    rewrite Hss, <- pow2_add. unfold X. rewrite Rmult_assoc, <- pow2_add.
    do 2 f_equal. unfold s. lia. }
  assert (HT0 : (0 <= S * pow2 (- e'))%R).
  { apply Rmult_le_pos; [exact Hsp | apply Rlt_le, pow2_gt0]. }
  split; [| split; [lia |]].
  - pose proof (sqrt_located _ m' q r HT0 HT Hqr Hq Hr) as Hl.
    destruct (r =? 0); [exact Hl |]. destruct (r <=? q); exact Hl.
  - destruct Hbin as [B1 B2]. split.
    + apply sq_le_inv; [apply Rlt_le, pow2_gt0 | exact Hsp |].
      rewrite Hss, <- pow2_add.
      apply Rle_trans with (2 := B1). apply pow2_le. lia.
    + apply sq_lt_inv; [exact Hsp | apply Rlt_le, pow2_gt0 |].
      rewrite Hss, <- pow2_add.
      apply Rlt_le_trans with (1 := B2). apply pow2_le. lia.
Qed.

(** The place of a quotient [T] with [T * M = Q * M + R]: the
    remainder against half the divisor. *)
Lemma quotient_place (T Q M Rr : R) :
  (0 < M)%R -> (T * M = Q * M + Rr)%R ->
  (Rr = 0 -> T = Q)%R /\
  (0 < Rr -> 2 * Rr < M -> Q < T < Q + / 2)%R /\
  (2 * Rr = M -> T = Q + / 2)%R /\
  (M < 2 * Rr -> Rr < M -> Q + / 2 < T < Q + 1)%R.
Proof.
  intros HM H.
  assert (E : (T = Q + Rr / M)%R).
  { apply (Rmult_eq_reg_r M); [| lra]. rewrite H. field. lra. }
  assert (Hlt : forall c : R, (Rr < c * M -> Rr / M < c)%R).
  { intros c Hc. apply (Rmult_lt_reg_r M); [exact HM |].
    replace (Rr / M * M)%R with Rr by (field; lra). exact Hc. }
  assert (Hgt : forall c : R, (c * M < Rr -> c < Rr / M)%R).
  { intros c Hc. apply (Rmult_lt_reg_r M); [exact HM |].
    replace (Rr / M * M)%R with Rr by (field; lra). exact Hc. }
  split; [| split; [| split]].
  - intros E0. rewrite E, E0. field. lra.
  - intros H0 H2. pose proof (Hlt (/ 2)%R ltac:(lra)).
    pose proof (Hgt 0%R ltac:(lra)). lra.
  - intros H2. rewrite E. replace Rr with (M / 2)%R by lra. field. lra.
  - intros H2 H1. pose proof (Hgt (/ 2)%R ltac:(lra)).
    pose proof (Hlt 1%R ltac:(lra)). lra.
Qed.

(** What [SFdiv_core_binary] hands to the rounding: the place of the
    exact quotient, which lies in one of two binades. *)
Lemma SFdiv_core_located (m1 : positive) (e1 : Z) (m2 : positive) (e2 : Z) :
  let D := Z.pos (digits2_pos m1) + e1 - (Z.pos (digits2_pos m2) + e2) in
  -1021 <= D ->
  exists q e' l,
    SFdiv_core_binary prec emax (Z.pos m1) e1 (Z.pos m2) e2 = (q, e', l) /\
    0 <= q /\
    located (IZR (Z.pos m1) * pow2 e1 / (IZR (Z.pos m2) * pow2 e2)) q e' l /\
    e' <= D - 53 /\
    (pow2 (D - 1) < IZR (Z.pos m1) * pow2 e1 / (IZR (Z.pos m2) * pow2 e2)
     < pow2 (D + 1))%R.
Proof.
  intros D HD.
  pose proof (float_binade m1 e1) as [A1 A2].
  pose proof (float_binade m2 e2) as [B1 B2].
  set (K1 := Z.pos (digits2_pos m1) + e1) in *.
  set (K2 := Z.pos (digits2_pos m2) + e2) in *.
  set (A := (IZR (Z.pos m1) * pow2 e1)%R) in *.
  set (B := (IZR (Z.pos m2) * pow2 e2)%R) in *.
  assert (HB : (0 < B)%R) by (pose proof (pow2_gt0 (K2 - 1)); lra).
  assert (HM2 : (0 < IZR (Z.pos m2))%R) by (apply IZR_lt; lia).
  assert (Hx : (A / B * B = A)%R) by (field; lra).
  unfold SFdiv_core_binary. cbn [Zdigits2]. rewrite fexp64_eq.
  fold K1 K2. change (K1 - K2) with D.
  set (e' := Z.min (Z.max (D - 53) (-1074)) (e1 - e2)).
  assert (He' : e' <= D - 53 /\ e' <= e1 - e2) by (unfold e'; lia).
  set (s := e1 - e2 - e').
  assert (Hs : 0 <= s) by (unfold s; lia).
  set (m' := match s with
             | 0 => Z.pos m1
             | Z.pos _ => Z.shiftl (Z.pos m1) s
             | Z.neg _ => 0
             end).
  assert (Hm' : m' = Z.pos m1 * 2 ^ s).
  { unfold m'. destruct s as [| p | p] eqn:Es; [cbn; lia | | lia].
    apply Z.shiftl_mul_pow2. lia. }
  assert (Hm'0 : 0 <= m').
  { rewrite Hm'. pose proof (pow2_pos s Hs). lia. }
  pose proof (Z_div_mod m' (Z.pos m2) ltac:(lia)) as Hdm.
  destruct (Z.div_eucl m' (Z.pos m2)) as [q r]. destruct Hdm as [Hqr Hr].
  assert (Hq : 0 <= q) by nia.
  exists q, e'. eexists. split; [reflexivity |]. split; [exact Hq |].
  assert (HT : (A / B * pow2 (- e') * IZR (Z.pos m2)
                = IZR q * IZR (Z.pos m2) + IZR r)%R).
  { rewrite <- mult_IZR, <- plus_IZR.
    replace (q * Z.pos m2 + r) with m' by lia.
    rewrite Hm', mult_IZR, <- pow2_IZR by exact Hs.
    unfold A, B.
    replace e1 with (s + (e2 + e')) at 1 by (unfold s; lia).
    rewrite !pow2_add.
    pose proof (pow2_opp e') as Ho. pose proof (pow2_gt0 e2) as H2.
    pose proof (pow2_gt0 e') as H3.
    replace (pow2 (- e')) with (/ pow2 e')%R
      by (apply (Rmult_eq_reg_l (pow2 e')); [rewrite Ho; field; lra | lra]).
    field. lra. }
  destruct (quotient_place _ _ _ _ HM2 HT) as (P0 & P1 & P2 & P3).
  assert (HR : (0 <= IZR r < IZR (Z.pos m2))%R)
    by (split; [apply IZR_le | apply IZR_lt]; lia).
  assert (Hcmp : forall a b : Z, a < b -> (IZR a < IZR b)%R)
    by (intros; apply IZR_lt; assumption).
  split; [| split; [lia |]].
  - assert (Hex : r = 0 -> located (A / B) q e' loc_Exact)
      by (intros E; cbn [located]; apply P0; rewrite E; reflexivity).
    assert (H0 : r <> 0 -> (0 < IZR r)%R) by (intros N; apply IZR_lt; lia).
    unfold new_location.
    destruct (Z.even (Z.pos m2)) eqn:Ev;
      unfold new_location_even, new_location_odd;
      (destruct (Z.eqb_spec r 0) as [E | N]; [exact (Hex E) |]);
      specialize (H0 N).
    + destruct (Z.compare_spec (2 * r) (Z.pos m2)) as [C | C | C];
        cbn [located].
      * apply P2. rewrite <- C, mult_IZR. reflexivity.
      * apply P1; [exact H0 |]. apply Hcmp in C. rewrite mult_IZR in C. exact C.
      * apply P3; [| lra]. apply Hcmp in C. rewrite mult_IZR in C. exact C.
    + assert (Hodd : 2 * r <> Z.pos m2).
      { intros C. rewrite <- C, Z.even_mul in Ev. discriminate Ev. }
      destruct (Z.compare_spec (2 * r + 1) (Z.pos m2)) as [C | C | C];
        cbn [located].
      * apply P1; [exact H0 |].
        assert (C' : 2 * r < Z.pos m2) by lia.
        apply Hcmp in C'. rewrite mult_IZR in C'. exact C'.
      * apply P1; [exact H0 |].
        assert (C' : 2 * r < Z.pos m2) by lia.
        apply Hcmp in C'. rewrite mult_IZR in C'. exact C'.
      * apply P3; [| lra].
        assert (C' : Z.pos m2 < 2 * r) by lia.
        apply Hcmp in C'. rewrite mult_IZR in C'. exact C'.
  - split.
    + apply (Rmult_lt_reg_r B); [exact HB |]. rewrite Hx.
      apply Rlt_le_trans with (pow2 (D - 1) * pow2 K2)%R;
        [apply Rmult_lt_compat_l; [apply pow2_gt0 | exact B2] |].
      rewrite <- pow2_add. replace (D - 1 + K2) with (K1 - 1) by (unfold D; lia).
      exact A1.
    + apply (Rmult_lt_reg_r B); [exact HB |]. rewrite Hx.
      apply Rlt_le_trans with (1 := A2).
      apply Rle_trans with (pow2 (D + 1) * pow2 (K2 - 1))%R;
        [| apply Rmult_le_compat_l; [apply Rlt_le, pow2_gt0 | exact B1]].
      rewrite <- pow2_add. apply pow2_le. unfold D. lia.
Qed.

(** ** The order of floats and of their values *)

Lemma SF2R_pos (m : positive) (e : Z) :
  (0 < SF2R (S754_finite false m e))%R.
Proof.
  cbn [SF2R cond_Zopp]. apply Rmult_lt_0_compat; [| apply pow2_gt0].
  apply IZR_lt. lia.
Qed.

(** Of two valid floats with [e1 < e2], the first has the smaller
    value. *)
Lemma exponent_order (m1 : positive) (e1 : Z) (m2 : positive) (e2 : Z) :
  valid_binary (S754_finite false m1 e1) = true ->
  valid_binary (S754_finite false m2 e2) = true ->
  e1 < e2 ->
  (SF2R (S754_finite false m1 e1) < SF2R (S754_finite false m2 e2))%R.
Proof.
  intros V1 V2 He. cbn [SF2R cond_Zopp].
  pose proof (valid_mantissa m1 e1 V1) as H1.
  assert (Hmin : -1074 <= e1).
  { cbn [valid_binary] in V1. unfold bounded, canonical_mantissa in V1.
    rewrite fexp64_eq in V1. apply andb_prop in V1 as [V1 _].
    apply Z.eqb_eq in V1. lia. }
  pose proof (canonical_digits m2 e2 V2 ltac:(lia)) as H2.
  apply Rlt_le_trans with (IZR (2 ^ 53) * pow2 e1)%R;
    [apply scale_lt, IZR_lt; exact H1 |].
  apply Rle_trans with (IZR (2 ^ 52) * pow2 e2)%R;
    [| apply scale_le, IZR_le; exact H2].
  rewrite <- !pow2_IZR, <- !pow2_add by lia. apply pow2_le. lia.
Qed.

(** The comparison of two valid floats that are not negative is the
    comparison of their values. *)
Lemma SFcompare_value (F G : spec_float) :
  valid_binary F = true -> valid_binary G = true ->
  finite_nonneg F -> finite_nonneg G ->
  match SFcompare F G with
  | Some Lt => (SF2R F < SF2R G)%R
  | Some Eq => SF2R F = SF2R G
  | Some Gt => (SF2R G < SF2R F)%R
  | None => False
  end.
Proof.
  intros VF VG HF HG.
  destruct F as [sf | sf | | sf mf ef]; cbn [finite_nonneg] in HF;
    try contradiction;
    destruct G as [sg | sg | | sg mg eg]; cbn [finite_nonneg] in HG;
    try contradiction.
  - reflexivity.
  - destruct sg; [contradiction |]. cbn [SFcompare]. apply SF2R_pos.
  - destruct sf; [contradiction |]. cbn [SFcompare]. apply SF2R_pos.
  - destruct sf; [contradiction |]. destruct sg; [contradiction |].
    cbn [SFcompare].
    destruct (Z.compare_spec ef eg) as [E | L | L].
    + subst eg. rewrite Pos.compare_cont_spec. cbn [Pos.switch_Eq].
      cbn [SF2R cond_Zopp].
      destruct (Pos.compare_spec mf mg) as [C | C | C].
      * subst mg. reflexivity.
      * apply scale_lt, IZR_lt. apply Pos2Z.pos_lt_pos. exact C.
      * apply scale_lt, IZR_lt. apply Pos2Z.pos_lt_pos. exact C.
    + apply exponent_order; assumption.
    + apply exponent_order; assumption.
Qed.

Lemma SFleb_value (F G : spec_float) :
  valid_binary F = true -> valid_binary G = true ->
  finite_nonneg F -> finite_nonneg G ->
  (SF2R F <= SF2R G)%R -> SFleb F G = true.
Proof.
  intros VF VG HF HG H. pose proof (SFcompare_value F G VF VG HF HG) as Hc.
  unfold SFleb. destruct (SFcompare F G) as [[] |]; try reflexivity;
    [exfalso; lra | contradiction].
Qed.

Lemma SFltb_value (F G : spec_float) :
  valid_binary F = true -> valid_binary G = true ->
  finite_nonneg F -> finite_nonneg G ->
  if SFltb F G then (SF2R F < SF2R G)%R else (SF2R G <= SF2R F)%R.
Proof.
  intros VF VG HF HG. pose proof (SFcompare_value F G VF VG HF HG) as Hc.
  unfold SFltb. destruct (SFcompare F G) as [[] |]; try lra; contradiction.
Qed.

(** The value of a float of a known magnitude. *)
Lemma magnitude_value (lo hi : Z) (x : spec_float) :
  magnitude false lo hi x -> 1 <= lo ->
  exists m e, x = S754_finite false m e /\
              (IZR lo <= SF2R x <= IZR hi)%R.
Proof.
  intros Hm Hlo.
  destruct x as [s | s | | s m e]; cbn [magnitude] in Hm; try contradiction;
    [lia |].
  destruct Hm as (-> & He & H1 & H2). exists m, e. split; [reflexivity |].
  cbn [SF2R cond_Zopp].
  assert (Hs : forall z : Z, (IZR (z * 2 ^ (- e)) * pow2 e = IZR z)%R).
  { intros z. rewrite mult_IZR, <- pow2_IZR by lia.
    rewrite Rmult_assoc, (Rmult_comm (pow2 (- e))), pow2_opp. lra. }
  rewrite <- (Hs lo), <- (Hs hi).
  split; apply scale_le, IZR_le; assumption.
Qed.

(** ** Square root and quotient are monotone *)

(** The binade of a float from bounds on its value. *)
Lemma binade_of_value (m : positive) (e a b : Z) :
  (pow2 a <= IZR (Z.pos m) * pow2 e <= pow2 b)%R ->
  a < Z.pos (digits2_pos m) + e <= b + 1.
Proof.
  intros [H1 H2]. pose proof (float_binade m e) as [B1 B2].
  set (K := Z.pos (digits2_pos m) + e) in *. split.
  - destruct (Z_lt_le_dec a K) as [H | H]; [exact H | exfalso].
    pose proof (pow2_le K a H). lra.
  - destruct (Z_le_gt_dec K (b + 1)) as [H | H]; [exact H | exfalso].
    pose proof (pow2_lt b (K - 1) ltac:(lia)). lra.
Qed.

(** The square root of a positive float: the rounding of the exact
    root, which lies in the binade [k]. *)
Lemma SFsqrt_rounds (m : positive) (e : Z) :
  let k := Z.div2 (Z.pos (digits2_pos m) + e + 1) in
  -1021 <= k ->
  exists q e' l,
    0 <= q /\ located (R_sqrt.sqrt (IZR (Z.pos m) * pow2 e)) q e' l /\
    e' <= k - 53 /\
    (pow2 (k - 1) <= R_sqrt.sqrt (IZR (Z.pos m) * pow2 e) < pow2 k)%R /\
    SF64sqrt (S754_finite false m e) = binary_round_aux prec emax false q e' l.
Proof.
  intros k Hk.
  destruct (SFsqrt_core_located m e Hk) as (q & e' & l & Hc & Hq & Hl & He & Hb).
  exists q, e', l. split; [exact Hq |]. split; [exact Hl |].
  split; [exact He |]. split; [exact Hb |].
  unfold SF64sqrt. cbn [SFsqrt]. rewrite Hc. reflexivity.
Qed.

(** The quotient of two positive floats: the rounding of the exact
    quotient, which lies in the binade [k]. *)
Lemma SFdiv_rounds (m1 : positive) (e1 : Z) (m2 : positive) (e2 : Z) :
  let D := Z.pos (digits2_pos m1) + e1 - (Z.pos (digits2_pos m2) + e2) in
  -1021 <= D ->
  exists k q e' l,
    D <= k <= D + 1 /\ 0 <= q /\
    located (IZR (Z.pos m1) * pow2 e1 / (IZR (Z.pos m2) * pow2 e2)) q e' l /\
    e' <= k - 53 /\
    (pow2 (k - 1) <= IZR (Z.pos m1) * pow2 e1 / (IZR (Z.pos m2) * pow2 e2)
     < pow2 k)%R /\
    SF64div (S754_finite false m1 e1) (S754_finite false m2 e2)
    = binary_round_aux prec emax false q e' l.
Proof.
  intros D HD.
  destruct (SFdiv_core_located m1 e1 m2 e2 HD)
    as (q & e' & l & Hc & Hq & Hl & He & Hb1 & Hb2).
  fold D in He, Hb1, Hb2.
  set (x := (IZR (Z.pos m1) * pow2 e1 / (IZR (Z.pos m2) * pow2 e2))%R) in *.
  assert (Hdiv : SF64div (S754_finite false m1 e1) (S754_finite false m2 e2)
                 = binary_round_aux prec emax false q e' l).
  { unfold SF64div. cbn [SFdiv xorb]. rewrite Hc. reflexivity. }
  destruct (Rlt_le_dec x (pow2 D)) as [H | H].
  - exists D, q, e', l. split; [lia |]. split; [exact Hq |].
    split; [exact Hl |]. split; [lia |]. split; [lra | exact Hdiv].
  - exists (D + 1), q, e', l. split; [lia |]. split; [exact Hq |].
    split; [exact Hl |]. split; [lia |].
    replace (D + 1 - 1) with D by lia. split; [lra | exact Hdiv].
Qed.

(** The float a rounding returns, with its value between the ends of
    the binade. *)
Lemma binary_round_aux_value (x : R) (k m e : Z) (l : location) :
  0 <= m -> located x m e l ->
  (pow2 (k - 1) <= x < pow2 k)%R -> e <= k - 53 -> -1021 <= k <= 1023 ->
  exists mf ef,
    binary_round_aux prec emax false m e l = S754_finite false mf ef /\
    (pow2 (k - 1) <= IZR (Z.pos mf) * pow2 ef <= pow2 k)%R.
Proof.
  intros Hm Hl Hx He Hk.
  destruct (binary_round_aux_located x k m e l Hm Hl Hx He Hk)
    as (m' & l' & mf & ef & _ & Hn & Hr & Hv).
  exists mf, ef. split; [exact Hr |]. rewrite Hv. split.
  - replace (k - 1) with (52 + (k - 53)) by lia.
    rewrite pow2_add, (pow2_IZR 52) by lia. apply scale_le, IZR_le. lia.
  - replace k with (53 + (k - 53)) at 2 by lia.
    rewrite pow2_add, (pow2_IZR 53) by lia. apply scale_le, IZR_le. lia.
Qed.

(** ** The ratio of the gradient grows with the distance *)

Lemma max_dist_magnitude (h : Z) :
  1 <= h < 2 ^ 52 -> magnitude false h (2 * h) (Prim2SF (sqrt 2 * Z2F h)).
Proof.
  intros Hh. pose proof pow2_53 as P53.
  assert (P52 : 2 ^ 53 = 2 * 2 ^ 52) by reflexivity.
  pose proof (Z2F_magnitude h ltac:(lia)) as Hm.
  pose proof (SFmul_magnitude false h 1 2 _ _ ltac:(lia) ltac:(lia) ltac:(lia)
                Hm magnitude_sqrt_2) as Hp.
  rewrite SF64mul_comm, <- mul_spec in Hp.
  replace (h * 1) with h in Hp by lia. replace (h * 2) with (2 * h) in Hp by lia.
  exact Hp.
Qed.

(** [math.sqrt(d)] for an integer [d] from 1 to [2^53 - 1]: the
    rounding of the exact root. *)
Lemma sqrt_int_rounds (d : Z) :
  1 <= d < 2 ^ 53 ->
  exists k q e l,
    1 <= k <= 27 /\ 0 <= q /\ located (R_sqrt.sqrt (IZR d)) q e l /\
    e <= k - 53 /\ (pow2 (k - 1) <= R_sqrt.sqrt (IZR d) < pow2 k)%R /\
    Prim2SF (sqrt (Z2F d)) = binary_round_aux prec emax false q e l.
Proof.
  intros Hd.
  destruct (magnitude_value d d _ (Z2F_magnitude d ltac:(lia)) ltac:(lia))
    as (m & e & Hf & Hv).
  rewrite Hf in Hv. cbn [SF2R cond_Zopp] in Hv.
  assert (Ev : (IZR (Z.pos m) * pow2 e = IZR d)%R) by lra.
  assert (Hb : (pow2 0 <= IZR (Z.pos m) * pow2 e <= pow2 53)%R).
  { rewrite Ev, pow2_0, (pow2_IZR 53) by lia.
    split; [apply (IZR_le 1); lia | apply IZR_le; lia]. }
  apply binade_of_value in Hb.
  pose proof (div2_bounds (Z.pos (digits2_pos m) + e + 1)) as H2.
  destruct (SFsqrt_rounds m e) as (q & e' & l & Hq & Hl & He & Hbin & Hs);
    [lia |].
  rewrite Ev in Hl, Hbin.
  exists (Z.div2 (Z.pos (digits2_pos m) + e + 1)), q, e', l.
  split; [lia |]. split; [exact Hq |]. split; [exact Hl |].
  split; [exact He |]. split; [exact Hbin |].
  rewrite sqrt_spec, Hf. exact Hs.
Qed.

(** The quotient of a float from 1 to [2^27] by one from 1 to
    [2^53]: the rounding of the exact quotient. *)
Lemma quotient_rounds (ms : positive) (es : Z) (mm : positive) (em : Z) :
  (pow2 0 <= IZR (Z.pos ms) * pow2 es <= pow2 27)%R ->
  (pow2 0 <= IZR (Z.pos mm) * pow2 em <= pow2 53)%R ->
  exists k q e l,
    -53 <= k <= 28 /\ 0 <= q /\
    located (IZR (Z.pos ms) * pow2 es / (IZR (Z.pos mm) * pow2 em)) q e l /\
    e <= k - 53 /\
    (pow2 (k - 1) <= IZR (Z.pos ms) * pow2 es / (IZR (Z.pos mm) * pow2 em)
     < pow2 k)%R /\
    SF64div (S754_finite false ms es) (S754_finite false mm em)
    = binary_round_aux prec emax false q e l.
Proof.
  intros Hs Hm. apply binade_of_value in Hs, Hm.
  destruct (SFdiv_rounds ms es mm em) as (k & q & e & l & Hk & Hq & Hl & He & Hb & Hd);
    [lia |].
  exists k, q, e, l. split; [lia |]. split; [exact Hq |].
  split; [exact Hl |]. split; [exact He |]. split; [exact Hb | exact Hd].
Qed.

(** The quotient [dist / max_dist] of the loop body does not decrease
    when the squared distance grows. *)
Lemma quotient_mono (h d d' : Z) :
  1 <= h < 2 ^ 52 -> 1 <= d <= d' -> d' < 2 ^ 53 ->
  finite_nonneg (Prim2SF (sqrt (Z2F d) / (sqrt 2 * Z2F h))) /\
  finite_nonneg (Prim2SF (sqrt (Z2F d') / (sqrt 2 * Z2F h))) /\
  (pow2 (-54) <= SF2R (Prim2SF (sqrt (Z2F d) / (sqrt 2 * Z2F h)))
   <= SF2R (Prim2SF (sqrt (Z2F d') / (sqrt 2 * Z2F h))))%R.
Proof.
  intros Hh Hd Hd'. pose proof pow2_53 as P53.
  assert (P52 : 2 ^ 53 = 2 * 2 ^ 52) by reflexivity.
  (* the divisor *)
  destruct (magnitude_value h (2 * h) _ (max_dist_magnitude h Hh) ltac:(lia))
    as (mm & em & HM & HMv).
  rewrite HM in HMv. cbn [SF2R cond_Zopp] in HMv.
  set (VM := (IZR (Z.pos mm) * pow2 em)%R) in *.
  assert (HVM : (pow2 0 <= VM <= pow2 53)%R).
  { rewrite pow2_0, (pow2_IZR 53) by lia. split.
    - apply Rle_trans with (IZR h); [apply (IZR_le 1); lia | lra].
    - apply Rle_trans with (IZR (2 * h)); [lra | apply IZR_le; lia]. }
  assert (HVM0 : (0 < VM)%R) by (rewrite pow2_0 in HVM; lra).
  (* the two roots *)
  destruct (sqrt_int_rounds d ltac:(lia))
    as (k1 & q1 & e1 & l1 & Hk1 & Hq1 & Hl1 & He1 & Hb1 & Hs1).
  destruct (sqrt_int_rounds d' ltac:(lia))
    as (k2 & q2 & e2 & l2 & Hk2 & Hq2 & Hl2 & He2 & Hb2 & Hs2).
  assert (Hroot : (R_sqrt.sqrt (IZR d) <= R_sqrt.sqrt (IZR d'))%R).
  { apply sqrt_le_1_alt, IZR_le. lia. }
  pose proof (binary_round_aux_mono _ _ k1 k2 q1 e1 q2 e2 l1 l2
                Hq1 Hl1 Hb1 He1 ltac:(lia) Hq2 Hl2 Hb2 He2 ltac:(lia) Hroot)
    as Hmono.
  destruct (binary_round_aux_value _ k1 q1 e1 l1 Hq1 Hl1 Hb1 He1 ltac:(lia))
    as (ms1 & es1 & Hr1 & Hv1).
  destruct (binary_round_aux_value _ k2 q2 e2 l2 Hq2 Hl2 Hb2 He2 ltac:(lia))
    as (ms2 & es2 & Hr2 & Hv2).
  rewrite Hr1, Hr2 in Hmono. cbn [SF2R cond_Zopp] in Hmono.
  rewrite Hr1 in Hs1. rewrite Hr2 in Hs2.
  assert (Hrange : forall k v, 1 <= k <= 27 ->
            (pow2 (k - 1) <= v <= pow2 k)%R -> (pow2 0 <= v <= pow2 27)%R).
  { intros k v Hk [H1 H2]. split.
    - apply Rle_trans with (2 := H1). apply pow2_le. lia.
    - apply Rle_trans with (1 := H2). apply pow2_le. lia. }
  apply (Hrange k1 _ Hk1) in Hv1. apply (Hrange k2 _ Hk2) in Hv2.
  (* the two quotients *)
  destruct (quotient_rounds ms1 es1 mm em Hv1 HVM)
    as (j1 & u1 & f1 & n1 & Hj1 & Hu1 & Hn1 & Hf1 & Hc1 & Hdiv1).
  destruct (quotient_rounds ms2 es2 mm em Hv2 HVM)
    as (j2 & u2 & f2 & n2 & Hj2 & Hu2 & Hn2 & Hf2 & Hc2 & Hdiv2).
  fold VM in Hn1, Hc1, Hn2, Hc2.
  assert (Hquot : (IZR (Z.pos ms1) * pow2 es1 / VM
                   <= IZR (Z.pos ms2) * pow2 es2 / VM)%R).
  { apply Rmult_le_compat_r; [apply Rlt_le, Rinv_0_lt_compat; exact HVM0 |].
    exact Hmono. }
  pose proof (binary_round_aux_mono _ _ j1 j2 u1 f1 u2 f2 n1 n2
                Hu1 Hn1 Hc1 Hf1 ltac:(lia) Hu2 Hn2 Hc2 Hf2 ltac:(lia) Hquot)
    as Hmono2.
  destruct (binary_round_aux_value _ j1 u1 f1 n1 Hu1 Hn1 Hc1 Hf1 ltac:(lia))
    as (mq1 & eq1 & Hrq1 & Hlow & _).
  destruct (binary_round_aux_value _ j2 u2 f2 n2 Hu2 Hn2 Hc2 Hf2 ltac:(lia))
    as (mq2 & eq2 & Hrq2 & _).
  rewrite !div_spec, Hs1, Hs2, HM, Hdiv1, Hdiv2.
  rewrite Hrq1, Hrq2 in *.
  split; [exact I |]. split; [exact I |]. split; [| exact Hmono2].
  cbn [SF2R cond_Zopp]. apply Rle_trans with (2 := Hlow). apply pow2_le. lia.
Qed.

Lemma min_one_mono (q q' : float) :
  finite_nonneg (Prim2SF q) -> finite_nonneg (Prim2SF q') ->
  (SF2R (Prim2SF q) <= SF2R (Prim2SF q'))%R ->
  (Py.min q 1 <=? Py.min q' 1)%float = true.
Proof.
  intros Hq Hq' H. unfold Py.min.
  pose proof (SFltb_value (Prim2SF 1) (Prim2SF q) (Prim2SF_valid 1)
                (Prim2SF_valid q) I Hq) as L1.
  pose proof (SFltb_value (Prim2SF 1) (Prim2SF q') (Prim2SF_valid 1)
                (Prim2SF_valid q') I Hq') as L2.
  rewrite <- !FloatAxioms.ltb_spec in L1, L2.
  destruct (1 <? q)%float, (1 <? q')%float.
  - reflexivity.
  - exfalso. lra.
  - rewrite leb_spec. apply SFleb_value; try apply Prim2SF_valid; try assumption.
    exact I.
  - rewrite leb_spec. apply SFleb_value; try apply Prim2SF_valid; assumption.
Qed.

Lemma gradient_ratio_mono (size d d' : Z) :
  1 <= size / 2 < 2 ^ 52 -> 0 <= d <= d' -> d' < 2 ^ 53 ->
  (gradient_ratio size d <=? gradient_ratio size d')%float = true.
Proof.
  intros Hh Hd Hd'.
  destruct (Z.eq_dec d 0) as [-> | Hd0].
  - pose proof (gradient_ratio_center size Hh) as H0.
    pose proof (gradient_ratio_magnitude size d' Hh ltac:(lia)) as H1.
    rewrite leb_spec.
    destruct (Prim2SF (gradient_ratio size 0)) as [s | s | | s m e];
      cbn [magnitude] in H0; try contradiction.
    + destruct (Prim2SF (gradient_ratio size d')) as [s' | s' | | s' m' e'];
        cbn [magnitude] in H1; try contradiction; [reflexivity |].
      destruct H1 as (-> & _). reflexivity.
    + exfalso. destruct H0 as (_ & He & H0).
      pose proof (pow2_pos (- e) ltac:(lia)). lia.
  - destruct (quotient_mono (size / 2) d d' Hh ltac:(lia) Hd') as (F1 & F2 & _ & H).
    unfold gradient_ratio. apply min_one_mono; assumption.
Qed.

(** X18. The ratio [min(dist / max_dist, 1.0)] that the loop body of
    [create_radial_gradient] computes in binary64 does not decrease
    with the distance from the center: of two pixels, the one farther
    from [(size // 2, size // 2)] has the greater or the same ratio.
    Square root and division are correctly rounded, and rounding
    keeps the order. *)
Theorem gradient_ratio_monotone (size x y x' y' : Z) :
  2 <= size <= 2 ^ 26 ->
  0 <= x < size -> 0 <= y < size -> 0 <= x' < size -> 0 <= y' < size ->
  (x - size / 2) ^ 2 + (y - size / 2) ^ 2
  <= (x' - size / 2) ^ 2 + (y' - size / 2) ^ 2 ->
  (gradient_ratio size ((x - size / 2) ^ 2 + (y - size / 2) ^ 2)
   <=? gradient_ratio size ((x' - size / 2) ^ 2 + (y' - size / 2) ^ 2))%float
  = true.
Proof.
  intros Hs Hx Hy Hx' Hy' Hle.
  destruct (dist2_bound size x y Hs Hx Hy) as [Hd Hh].
  destruct (dist2_bound size x' y' Hs Hx' Hy') as [Hd' _].
  unfold dist2 in Hd, Hd'. apply gradient_ratio_mono; [exact Hh | lia | lia].
Qed.

Lemma gradient_ratio_monotone_witness :
  (gradient_ratio 1024 ((300 - 1024 / 2) ^ 2 + (400 - 1024 / 2) ^ 2)
   <=? gradient_ratio 1024 ((0 - 1024 / 2) ^ 2 + (1 - 1024 / 2) ^ 2))%float
  = true.
Proof.
  apply (gradient_ratio_monotone 1024 300 400 0 1).
  - change (2 ^ 26) with 67108864. lia.
  - lia.
  - lia.
  - lia.
  - lia.
  - vm_compute. discriminate.
Defined.

(** ** Rounding as a relation on the reals *)

Lemma rne_range (x : R) (k m : Z) (l : location) :
  (pow2 (k - 1) <= x < pow2 k)%R -> located x m (k - 53) l ->
  2 ^ 52 <= round_nearest_even m l <= 2 ^ 53 /\
  (pow2 (k - 1) <= IZR (round_nearest_even m l) * pow2 (k - 53) <= pow2 k)%R.
Proof.
  intros Hx Hl.
  pose proof (scaled_binade x k (k - 53) ltac:(lia) Hx) as Ht.
  replace (k - 1 - (k - 53)) with 52 in Ht by lia.
  replace (k - (k - 53)) with 53 in Ht by lia.
  pose proof (cell_bounds _ _ _ _ (located_bounds _ _ _ _ Hl) Ht) as Hm.
  pose proof (round_nearest_even_range m l) as Hn.
  split; [lia |]. split.
  - replace (k - 1) with (52 + (k - 53)) by lia.
    rewrite pow2_add, (pow2_IZR 52) by lia. apply scale_le, IZR_le. lia.
  - replace k with (53 + (k - 53)) at 2 by lia.
    rewrite pow2_add, (pow2_IZR 53) by lia. apply scale_le, IZR_le. lia.
Qed.

Lemma rne_nonneg (x v : R) : rne x v -> (0 <= x /\ 0 <= v)%R.
Proof.
  intros [[-> ->] | (k & m & l & Hk & Hx & Hl & ->)]; [lra |].
  destruct (rne_range x k m l Hx Hl) as [_ [H _]].
  pose proof (pow2_gt0 (k - 1)). lra.
Qed.

Lemma rne_mono (x y v w : R) :
  rne x v -> rne y w -> (x <= y)%R -> (v <= w)%R.
Proof.
  intros Hx Hy Hxy. pose proof (rne_nonneg y w Hy) as [_ Hw].
  destruct Hx as [[-> ->] | (kx & mx & lx & Hkx & Hbx & Hlx & ->)]; [exact Hw |].
  destruct Hy as [[-> ->] | (ky & my & ly & Hky & Hby & Hly & ->)].
  - pose proof (pow2_gt0 (kx - 1)). lra.
  - destruct (rne_range x kx mx lx Hbx Hlx) as [Hnx _].
    destruct (rne_range y ky my ly Hby Hly) as [Hny _].
    assert (Hk : kx <= ky).
    { destruct (Z_le_gt_dec kx ky) as [H | H]; [exact H | exfalso].
      pose proof (pow2_le ky (kx - 1) ltac:(lia)). lra. }
    destruct (Z.eq_dec kx ky) as [E | N].
    + subst ky. apply scale_le, IZR_le.
      apply (round_nearest_even_mono x y _ _ (kx - 53)); assumption.
    + apply Rle_trans with (pow2 kx).
      * replace kx with (53 + (kx - 53)) at 2 by lia.
        rewrite pow2_add, (pow2_IZR 53) by lia. apply scale_le, IZR_le. lia.
      * apply Rle_trans with (pow2 (ky - 1)); [apply pow2_le; lia |].
        replace (ky - 1) with (52 + (ky - 53)) by lia.
        rewrite pow2_add, (pow2_IZR 52) by lia. apply scale_le, IZR_le. lia.
Qed.

(** [binary_round_aux] rounds. *)
Lemma binary_round_aux_rne (x : R) (k m e : Z) (l : location) :
  0 <= m -> located x m e l ->
  (pow2 (k - 1) <= x < pow2 k)%R -> e <= k - 53 -> -1021 <= k <= 1023 ->
  exists mf ef,
    binary_round_aux prec emax false m e l = S754_finite false mf ef /\
    rne x (IZR (Z.pos mf) * pow2 ef).
Proof.
  intros Hm Hl Hx He Hk.
  destruct (binary_round_aux_located x k m e l Hm Hl Hx He Hk)
    as (m' & l' & mf & ef & Hl' & _ & Hr & Hv).
  exists mf, ef. split; [exact Hr |]. right. exists k, m', l'.
  split; [exact Hk |]. split; [exact Hx |]. split; [exact Hl' | exact Hv].
Qed.

(** The exponent of a valid float that is not subnormal. *)
Lemma canonical_exponent (m : positive) (e : Z) :
  valid_binary (S754_finite false m e) = true -> -1074 < e ->
  e = Z.pos (digits2_pos m) + e - 53 /\ e <= 971.
Proof.
  cbn [valid_binary]. unfold bounded, canonical_mantissa.
  rewrite fexp64_eq. intros H He. apply andb_prop in H as [H1 H2].
  apply Z.eqb_eq in H1. apply Z.leb_le in H2.
  change (emax - prec) with 971 in H2. lia.
Qed.

(** A float that is not subnormal is its own rounding. *)
Lemma rne_float (m : positive) (e : Z) :
  valid_binary (S754_finite false m e) = true -> -1074 < e <= 900 ->
  rne (IZR (Z.pos m) * pow2 e) (IZR (Z.pos m) * pow2 e).
Proof.
  intros Hv He. destruct (canonical_exponent m e Hv ltac:(lia)) as [Hc _].
  pose proof (float_binade m e) as Hb.
  set (k := Z.pos (digits2_pos m) + e) in *.
  right. exists k, (Z.pos m), loc_Exact.
  split; [lia |]. split; [exact Hb |].
  replace (k - 53) with e by lia. cbn [located round_nearest_even].
  split; [| reflexivity].
  rewrite Rmult_assoc, pow2_opp. lra.
Qed.

Lemma rne_int (n : Z) : 0 <= n < 2 ^ 53 -> rne (IZR n) (IZR n).
Proof.
  intros Hn. destruct (Z.eq_dec n 0) as [-> | N]; [left; split; reflexivity |].
  destruct (magnitude_value n n _ (Z2F_magnitude n Hn) ltac:(lia))
    as (m & e & Hf & Hv).
  pose proof (Prim2SF_valid (Z2F n)) as Hval. rewrite Hf in Hval, Hv.
  cbn [SF2R cond_Zopp] in Hv.
  assert (E : (IZR (Z.pos m) * pow2 e = IZR n)%R) by lra.
  pose proof (Z2F_magnitude n Hn) as Hm. rewrite Hf in Hm.
  cbn [magnitude] in Hm. destruct Hm as (_ & He & _).
  rewrite <- E. apply rne_float; [exact Hval |].
  assert (Hmin : -1074 < e); [| lia].
  destruct (Z_lt_le_dec (-1074) e) as [H | H]; [exact H | exfalso].
  pose proof (valid_mantissa m e Hval) as Hmm.
  assert (Hlt : (IZR (Z.pos m) * pow2 e < 1)%R).
  { apply Rlt_le_trans with (IZR (2 ^ 53) * pow2 e)%R;
      [apply scale_lt, IZR_lt; exact Hmm |].
    rewrite <- pow2_IZR, <- pow2_add, <- pow2_0 by lia. apply pow2_le. lia. }
  assert (1 <= IZR n)%R by (apply (IZR_le 1); lia). lra.
Qed.

(** Rounding does not cross an integer below [2^53]. *)
Lemma rne_le_int (x v : R) (n : Z) :
  rne x v -> 0 <= n < 2 ^ 53 -> (x <= IZR n)%R -> (v <= IZR n)%R.
Proof. intros H Hn Hx. exact (rne_mono _ _ _ _ H (rne_int n Hn) Hx). Qed.

Lemma rne_ge_int (x v : R) (n : Z) :
  rne x v -> 0 <= n < 2 ^ 53 -> (IZR n <= x)%R -> (IZR n <= v)%R.
Proof. intros H Hn Hx. exact (rne_mono _ _ _ _ (rne_int n Hn) H Hx). Qed.

(** ** Product and sum of a blend *)

(** The float of a positive integer below [2^53]. *)
Lemma Z2F_float (n : Z) :
  1 <= n < 2 ^ 53 ->
  exists m e,
    Prim2SF (Z2F n) = S754_finite false m e /\
    (IZR (Z.pos m) * pow2 e = IZR n)%R /\ -53 < e <= 0 /\
    valid_binary (S754_finite false m e) = true.
Proof.
  intros Hn.
  destruct (magnitude_value n n _ (Z2F_magnitude n ltac:(lia)) ltac:(lia))
    as (m & e & Hf & Hv).
  pose proof (Prim2SF_valid (Z2F n)) as Hval. rewrite Hf in Hval, Hv.
  cbn [SF2R cond_Zopp] in Hv.
  pose proof (Z2F_magnitude n ltac:(lia)) as Hm. rewrite Hf in Hm.
  cbn [magnitude] in Hm. destruct Hm as (_ & He & _).
  exists m, e. split; [exact Hf |]. split; [lra |]. split; [| exact Hval].
  split; [| exact He].
  destruct (Z_lt_le_dec (-53) e) as [H | H]; [exact H | exfalso].
  pose proof (valid_mantissa m e Hval) as Hmm.
  assert (Hlt : (IZR (Z.pos m) * pow2 e < 1)%R).
  { apply Rlt_le_trans with (IZR (2 ^ 53) * pow2 e)%R;
      [apply scale_lt, IZR_lt; exact Hmm |].
    rewrite <- pow2_IZR, <- pow2_add, <- pow2_0 by lia. apply pow2_le. lia. }
  assert (1 <= IZR n)%R by (apply (IZR_le 1); lia). lra.
Qed.

(** The float of a negative integer is the opposite of the float of
    its absolute value. *)
Lemma Z2F_opp (n : Z) :
  1 <= n < 2 ^ 53 -> Prim2SF (Z2F (- n)) = SFopp (Prim2SF (Z2F n)).
Proof.
  intros Hn. unfold Z2F.
  assert (H63 : 2 ^ 53 < 2 ^ 63) by reflexivity.
  rewrite !Prim2SF_SF2Prim by (apply binary_normalize_valid; lia).
  destruct n as [| p | p]; try lia.
  cbn [Z.opp binary_normalize]. apply binary_round_opp.
Qed.

(** The exponent of a valid float from a lower bound of its value. *)
Lemma exponent_lower (m : positive) (e a : Z) :
  valid_binary (S754_finite false m e) = true -> -1021 <= a ->
  (pow2 a <= IZR (Z.pos m) * pow2 e)%R -> a - 53 < e.
Proof.
  intros Hv Ha Hx.
  pose proof (valid_mantissa m e Hv) as Hm.
  destruct (Z_lt_le_dec (a - 53) e) as [H | H]; [exact H | exfalso].
  assert (Hlt : (IZR (Z.pos m) * pow2 e < pow2 a)%R); [| lra].
  apply Rlt_le_trans with (IZR (2 ^ 53) * pow2 e)%R;
    [apply scale_lt, IZR_lt; exact Hm |].
  rewrite <- pow2_IZR, <- pow2_add by lia. apply pow2_le. lia.
Qed.

(** The product of a positive integer and a ratio. *)
Lemma SFmul_rne (d : Z) (r : spec_float) :
  1 <= d <= 255 -> valid_binary r = true -> unit_ratio r ->
  exists P,
    SF64mul (Prim2SF (Z2F d)) r = P /\ finite_nonneg P /\
    rne (IZR d * SF2R r) (SF2R P) /\
    match P with
    | S754_finite _ _ ep => -200 <= ep <= 900
    | _ => True
    end.
Proof.
  intros Hd Hv Hr. pose proof pow2_53 as P53.
  destruct (Z2F_float d ltac:(lia)) as (md & ed & Hf & Hvd & Hed & Hvald).
  rewrite Hf. unfold SF64mul.
  destruct r as [s | s | | s mr er]; cbn [unit_ratio] in Hr; try contradiction.
  - eexists. split; [reflexivity |]. cbn [SFmul SF2R finite_nonneg].
    split; [exact I |]. split; [| exact I]. left. split; lra.
  - destruct s; [contradiction |]. cbn [SFmul xorb SF2R cond_Zopp].
    pose proof (exponent_lower mr er (-100) Hv ltac:(lia) ltac:(lra)) as Her.
    pose proof (canonical_digits md ed Hvald ltac:(lia)) as Dd.
    pose proof (canonical_digits mr er Hv ltac:(lia)) as Dr.
    pose proof (pow2_gt0 (-100)) as Hp100.
    set (x := (IZR d * (IZR (Z.pos mr) * pow2 er))%R).
    assert (Ex : (x = IZR (Z.pos (md * mr)) * pow2 (ed + er))%R).
    { unfold x. rewrite <- Hvd, Pos2Z.inj_mul, mult_IZR, pow2_add. ring. }
    assert (Hxb : (pow2 (-100) <= x <= pow2 8)%R).
    { unfold x. rewrite (pow2_IZR 8) by lia. split.
      - apply Rle_trans with (1 * (IZR (Z.pos mr) * pow2 er))%R; [lra |].
        apply Rmult_le_compat_r; [lra |]. apply (IZR_le 1). lia.
      - apply Rle_trans with (IZR d * 1)%R.
        + apply Rmult_le_compat_l; [apply (IZR_le 0); lia | lra].
        + rewrite Rmult_1_r. apply IZR_le. change (2 ^ 8) with 256. lia. }
    pose proof (float_binade (md * mr) (ed + er)) as Hb.
    rewrite <- Ex in Hb.
    assert (Hk : -100 < Z.pos (digits2_pos (md * mr)) + (ed + er) <= 8 + 1).
    { apply binade_of_value. rewrite <- Ex. exact Hxb. }
    assert (Hdig : 105 <= Z.pos (digits2_pos (md * mr))).
    { pose proof (digits2_pos_bounds (md * mr)) as [_ D2].
      assert (2 ^ 104 <= Z.pos (md * mr)).
      { rewrite Pos2Z.inj_mul. change (2 ^ 104) with (2 ^ 52 * 2 ^ 52).
        apply Z.mul_le_mono_nonneg; lia. }
      assert (Hp : 2 ^ 104 < 2 ^ Z.pos (digits2_pos (md * mr))) by lia.
      apply Z.pow_lt_mono_r_iff in Hp; lia. }
    destruct (binary_round_aux_rne x (Z.pos (digits2_pos (md * mr)) + (ed + er))
                (Z.pos (md * mr)) (ed + er) loc_Exact ltac:(lia))
      as (mp & ep & Hround & Hrne).
    + cbn [located]. rewrite Ex, Rmult_assoc, pow2_opp. lra.
    + exact Hb.
    + lia.
    + lia.
    + eexists. split; [exact Hround |]. cbn [finite_nonneg SF2R cond_Zopp].
      split; [exact I |]. split; [exact Hrne |].
      assert (Hvp : valid_binary (S754_finite false mp ep) = true).
      { rewrite <- Hround.
        change (valid_binary (SF64mul (S754_finite false md ed)
                                (S754_finite false mr er)) = true).
        rewrite <- Hf.
        assert (Hsr : S754_finite false mr er
                      = Prim2SF (SF2Prim (S754_finite false mr er)))
          by (symmetry; apply Prim2SF_SF2Prim; exact Hv).
        rewrite Hsr, <- mul_spec. apply Prim2SF_valid. }
      assert (Hlow : (pow2 (-101) <= IZR (Z.pos mp) * pow2 ep)%R).
      { destruct Hrne as [[E0 _] | (k & m & l & Hkk & Hbx & Hl & ->)].
        - pose proof (pow2_gt0 (-100)). lra.
        - destruct (rne_range x k m l Hbx Hl) as [_ [H1 _]].
          apply Rle_trans with (2 := H1). apply pow2_le.
          destruct (Z_le_gt_dec (-100) k) as [H | H]; [lia | exfalso].
          pose proof (pow2_le k (-100) ltac:(lia)). lra. }
      pose proof (exponent_lower mp ep (-101) Hvp ltac:(lia) Hlow).
      destruct (canonical_exponent mp ep Hvp ltac:(lia)) as [Hc _].
      assert (Hup : (IZR (Z.pos mp) * pow2 ep <= IZR 255)%R).
      { apply (rne_le_int x); [exact Hrne | lia |].
        unfold x. apply Rle_trans with (IZR d * 1)%R.
        - apply Rmult_le_compat_l; [apply (IZR_le 0); lia | lra].
        - rewrite Rmult_1_r. apply IZR_le. lia. }
      assert (Hkp : -101 < Z.pos (digits2_pos mp) + ep <= 8 + 1).
      { apply binade_of_value. split; [exact Hlow |].
        apply Rle_trans with (1 := Hup). rewrite (pow2_IZR 8) by lia.
        apply IZR_le. change (2 ^ 8) with 256. lia. }
      lia.
Qed.

Lemma SF2R_neg (m : positive) (e : Z) :
  SF2R (S754_finite true m e) = (- (IZR (Z.pos m) * pow2 e))%R.
Proof. cbn [SF2R cond_Zopp]. rewrite opp_IZR. ring. Qed.

Lemma shifted_value (m : positive) (e ez : Z) :
  ez <= e ->
  (IZR (Z.pos m * 2 ^ (e - ez)) * pow2 ez = IZR (Z.pos m) * pow2 e)%R.
Proof.
  intros H. rewrite mult_IZR, <- pow2_IZR, Rmult_assoc, <- pow2_add by lia.
  do 2 f_equal. lia.
Qed.

(** [binary_normalize] of a positive integer mantissa rounds its
    value. *)
Lemma binary_round_rne (M : positive) (ez : Z) :
  -300 <= ez -> (IZR (Z.pos M) * pow2 ez <= pow2 100)%R ->
  exists mf ef,
    binary_round prec emax false M ez = S754_finite false mf ef /\
    rne (IZR (Z.pos M) * pow2 ez) (IZR (Z.pos mf) * pow2 ef).
Proof.
  intros Hez Hx. unfold binary_round.
  pose proof (shl_align_spec M ez (fexp prec emax (Z.pos (digits2_pos M) + ez)))
    as Hsh.
  destruct (shl_align M ez (fexp prec emax (Z.pos (digits2_pos M) + ez)))
    as [mz ez'].
  destruct Hsh as [He' Hmz]. rewrite fexp64_eq in He'.
  set (x := (IZR (Z.pos M) * pow2 ez)%R) in *.
  assert (Ex : (x = IZR (Z.pos mz) * pow2 ez')%R).
  { rewrite Hmz. unfold x. symmetry. apply shifted_value. lia. }
  pose proof (float_binade M ez) as HbM. fold x in HbM.
  pose proof (float_binade mz ez') as Hbz. rewrite <- Ex in Hbz.
  pose proof (binade_unique _ _ _ HbM Hbz) as Hkk.
  assert (Hlow : (pow2 ez <= x)%R).
  { unfold x. rewrite <- (Rmult_1_l (pow2 ez)) at 1.
    apply scale_le. apply (IZR_le 1). lia. }
  assert (Hk : ez < Z.pos (digits2_pos M) + ez <= 100 + 1).
  { apply binade_of_value. fold x. split; assumption. }
  destruct (binary_round_aux_rne x (Z.pos (digits2_pos mz) + ez')
              (Z.pos mz) ez' loc_Exact ltac:(lia))
    as (mf & ef & Hround & Hrne).
  - cbn [located]. rewrite Ex, Rmult_assoc, pow2_opp. lra.
  - exact Hbz.
  - lia.
  - lia.
  - exists mf, ef. split; [exact Hround | exact Hrne].
Qed.

(** The sum of a channel value and a product. *)
Lemma SFadd_rne (a : Z) (P : spec_float) :
  0 <= a <= 255 -> valid_binary P = true ->
  match P with
  | S754_zero _ => True
  | S754_finite _ _ ep => -200 <= ep <= 900
  | _ => False
  end ->
  (0 <= IZR a + SF2R P <= 1000)%R ->
  finite_nonneg (SF64add (Prim2SF (Z2F a)) P) /\
  rne (IZR a + SF2R P) (SF2R (SF64add (Prim2SF (Z2F a)) P)).
Proof.
  intros Ha Hv HP Hx. pose proof pow2_53 as P53. unfold SF64add.
  destruct (Z.eq_dec a 0) as [-> | Ha0].
  - change (Prim2SF (Z2F 0)) with (S754_zero false).
    destruct P as [s | s | | s m e]; try contradiction.
    + assert (E : SFadd prec emax (S754_zero false) (S754_zero s)
                  = S754_zero false) by (destruct s; reflexivity).
      rewrite E. cbn [finite_nonneg SF2R]. split; [exact I |].
      left. split; lra.
    + cbn [SFadd]. destruct s.
      * exfalso. rewrite SF2R_neg in Hx.
        assert (0 < IZR (Z.pos m) * pow2 e)%R
          by (apply (SF2R_pos m e)). lra.
      * cbn [finite_nonneg]. split; [exact I |].
        rewrite Rplus_0_l. cbn [SF2R cond_Zopp]. apply rne_float; [exact Hv | lia].
  - destruct (Z2F_float a ltac:(lia)) as (ma & ea & Hf & Hva & Hea & Hvala).
    rewrite Hf.
    destruct P as [s | s | | s mp ep]; try contradiction.
    + cbn [SFadd finite_nonneg SF2R cond_Zopp]. split; [exact I |].
      rewrite Rplus_0_r, Hva. apply rne_int. lia.
    + cbn [SFadd]. set (ez := Z.min ea ep).
      rewrite !shl_align_fst by (unfold ez; lia).
      assert (Hez : ez <= ea /\ ez <= ep /\ -200 <= ez) by (unfold ez; lia).
      set (M := cond_Zopp false (Z.pos ma * 2 ^ (ea - ez))
                + cond_Zopp s (Z.pos mp * 2 ^ (ep - ez))).
      assert (EM : (IZR M * pow2 ez = IZR a + SF2R (S754_finite s mp ep))%R).
      { unfold M. rewrite plus_IZR, Rmult_plus_distr_r. cbn [cond_Zopp].
        rewrite shifted_value, Hva by lia. f_equal.
        destruct s; cbn [cond_Zopp].
        - rewrite SF2R_neg, opp_IZR, <- (shifted_value mp ep ez) by lia. ring.
        - cbn [SF2R cond_Zopp]. apply shifted_value. lia. }
      rewrite <- EM in Hx |- *.
      destruct M as [| Mp | Mp]; cbn [binary_normalize].
      * cbn [finite_nonneg SF2R]. split; [exact I |]. left. split; lra.
      * destruct (binary_round_rne Mp ez ltac:(lia)) as (mf & ef & -> & Hrne).
        { apply Rle_trans with 1000%R; [lra |].
          rewrite (pow2_IZR 100) by lia. apply IZR_le.
          apply Z.le_trans with (2 ^ 10); [cbn; lia |].
          apply Z.pow_le_mono_r; lia. }
        cbn [finite_nonneg SF2R cond_Zopp]. split; [exact I | exact Hrne].
      * exfalso.
        assert (IZR (Z.neg Mp) * pow2 ez < 0)%R; [| lra].
        pose proof (pow2_gt0 ez).
        assert (IZR (Z.neg Mp) < 0)%R by (apply IZR_lt; lia). nra.
Qed.

(** ** Truncation and the blend *)

(** [int] of a float that is not negative is the integer part of its
    value. *)
Lemma int_floor (f : float) :
  finite_nonneg (Prim2SF f) ->
  exists n, Py.int f = Ok n /\
            (IZR n <= SF2R (Prim2SF f) < IZR n + 1)%R.
Proof.
  unfold Py.int. intros H.
  destruct (Prim2SF f) as [s | s | | s m e]; cbn [finite_nonneg] in H;
    try contradiction.
  - exists 0. split; [reflexivity |]. cbn [SF2R]. lra.
  - destruct s; [contradiction |]. cbn [cond_Zopp SF2R].
    eexists. split; [reflexivity |].
    destruct (Z_le_gt_dec 0 e) as [He | He].
    + rewrite Z.shiftl_mul_pow2, mult_IZR, <- pow2_IZR by lia. lra.
    + rewrite Z.shiftl_div_pow2 by lia.
      pose proof (pow2_pos (- e) ltac:(lia)) as Hp.
      pose proof (Z.div_mod (Z.pos m) (2 ^ (- e)) ltac:(lia)) as Hdm.
      pose proof (Z.mod_pos_bound (Z.pos m) (2 ^ (- e)) Hp) as Hmod.
      set (q := Z.pos m / 2 ^ (- e)) in *.
      set (r := Z.pos m mod 2 ^ (- e)) in *.
      assert (E : (IZR (Z.pos m) * pow2 e = IZR q + IZR r * pow2 e)%R).
      { rewrite Hdm, plus_IZR, mult_IZR, <- pow2_IZR by lia.
        rewrite Rmult_plus_distr_r.
        rewrite (Rmult_comm (pow2 (- e))), Rmult_assoc.
        rewrite (Rmult_comm (pow2 (- e))), pow2_opp. ring. }
      assert (Hr : (0 <= IZR r * pow2 e < 1)%R).
      { pose proof (pow2_gt0 e) as Hu. split.
        - apply Rmult_le_pos; [apply IZR_le; lia | lra].
        - apply Rlt_le_trans with (IZR (2 ^ (- e)) * pow2 e)%R.
          + apply scale_lt, IZR_lt. lia.
          + rewrite <- pow2_IZR by lia.
            rewrite (Rmult_comm (pow2 (- e))), pow2_opp. lra. }
      lra.
Qed.

(** The float a blend hands to [int], for channels that grow: the
    rounded sum of the first channel and the rounded product. *)
Lemma blend_up (c1 c2 : Z) (r : float) :
  channel c1 -> channel c2 -> c1 <= c2 -> unit_ratio (Prim2SF r) ->
  finite_nonneg (Prim2SF (blend c1 c2 r)) /\
  exists p,
    rne (IZR (c2 - c1) * SF2R (Prim2SF r)) p /\
    rne (IZR c1 + p) (SF2R (Prim2SF (blend c1 c2 r))).
Proof.
  unfold channel. intros H1 H2 Hle Hr. unfold blend.
  rewrite add_spec, mul_spec.
  assert (Hrho : (0 <= SF2R (Prim2SF r) <= 1)%R).
  { destruct (Prim2SF r) as [s | s | | [] m e]; cbn [unit_ratio] in Hr;
      try contradiction; cbn [SF2R cond_Zopp]; [lra |].
    pose proof (pow2_gt0 (-100)). lra. }
  destruct (Z.eq_dec c2 c1) as [-> | Hne].
  - rewrite Z.sub_diag. change (Prim2SF (Z2F 0)) with (S754_zero false).
    assert (E : SF2R (SF64mul (S754_zero false) (Prim2SF r)) = 0%R /\
                valid_binary (SF64mul (S754_zero false) (Prim2SF r)) = true /\
                match SF64mul (S754_zero false) (Prim2SF r) with
                | S754_zero _ => True
                | S754_finite _ _ ep => -200 <= ep <= 900
                | _ => False
                end).
    { unfold SF64mul.
      destruct (Prim2SF r) as [s | s | | s m e]; cbn [unit_ratio] in Hr;
        try contradiction; cbn [SFmul SF2R valid_binary]; repeat split. }
    destruct E as (E0 & Ev & Es).
    destruct (SFadd_rne c1 _ ltac:(lia) Ev Es) as [Hf Hrne].
    { rewrite E0, Rplus_0_r. split; [apply (IZR_le 0); lia |].
      apply (IZR_le c1 1000). lia. }
    split; [exact Hf |]. exists 0%R. split; [left; split; lra |].
    rewrite E0 in Hrne. exact Hrne.
  - destruct (SFmul_rne (c2 - c1) (Prim2SF r) ltac:(lia) (Prim2SF_valid r) Hr)
      as (P & HP & HPf & HPr & HPe).
    rewrite HP.
    assert (HPv : valid_binary P = true).
    { rewrite <- HP, <- mul_spec. apply Prim2SF_valid. }
    assert (HPs : match P with
                  | S754_zero _ => True
                  | S754_finite _ _ ep => -200 <= ep <= 900
                  | _ => False
                  end).
    { destruct P as [s | s | | [] m e]; cbn [finite_nonneg] in HPf;
        try contradiction; [exact I | exact HPe]. }
    pose proof (rne_nonneg _ _ HPr) as [_ Hp0].
    assert (Hpu : (SF2R P <= IZR (c2 - c1))%R).
    { apply (rne_le_int _ _ _ HPr); [lia |].
      rewrite <- (Rmult_1_r (IZR (c2 - c1))) at 2.
      apply Rmult_le_compat_l; [apply (IZR_le 0); lia | lra]. }
    destruct (SFadd_rne c1 P ltac:(lia) HPv HPs) as [Hf Hrne].
    { assert (0 <= IZR c1)%R by (apply (IZR_le 0); lia).
      assert (IZR c1 + IZR (c2 - c1) <= 1000)%R
        by (rewrite <- plus_IZR; apply IZR_le; lia).
      lra. }
    split; [exact Hf |]. exists (SF2R P). split; [exact HPr | exact Hrne].
Qed.

(** The same for channels that fall: the product is subtracted. *)
Lemma blend_down (c1 c2 : Z) (r : float) :
  channel c1 -> channel c2 -> c2 < c1 -> unit_ratio (Prim2SF r) ->
  finite_nonneg (Prim2SF (blend c1 c2 r)) /\
  exists p,
    rne (IZR (c1 - c2) * SF2R (Prim2SF r)) p /\
    rne (IZR c1 - p) (SF2R (Prim2SF (blend c1 c2 r))).
Proof.
  unfold channel. intros H1 H2 Hlt Hr. unfold blend.
  rewrite add_spec, mul_spec. pose proof pow2_53 as P53.
  assert (Hrho : (0 <= SF2R (Prim2SF r) <= 1)%R).
  { destruct (Prim2SF r) as [s | s | | [] m e]; cbn [unit_ratio] in Hr;
      try contradiction; cbn [SF2R cond_Zopp]; [lra |].
    pose proof (pow2_gt0 (-100)). lra. }
  replace (c2 - c1) with (- (c1 - c2)) by lia.
  rewrite Z2F_opp by lia.
  destruct (SFmul_rne (c1 - c2) (Prim2SF r) ltac:(lia) (Prim2SF_valid r) Hr)
    as (P & HP & HPf & HPr & HPe).
  assert (HPv : valid_binary P = true).
  { rewrite <- HP, <- mul_spec. apply Prim2SF_valid. }
  assert (Eopp : SF64mul (SFopp (Prim2SF (Z2F (c1 - c2)))) (Prim2SF r) = SFopp P).
  { rewrite <- HP. unfold SF64mul.
    destruct (Z2F_float (c1 - c2) ltac:(lia)) as (md & ed & -> & _).
    destruct (Prim2SF r) as [s | s | | s m e]; cbn [unit_ratio] in Hr;
      try contradiction; cbn [SFopp SFmul negb].
    - destruct s; reflexivity.
    - destruct s; [contradiction |]. cbn [xorb].
      apply binary_round_aux_opp. }
  rewrite Eopp.
  pose proof (rne_nonneg _ _ HPr) as [_ Hp0].
  assert (Hpu : (SF2R P <= IZR (c1 - c2))%R).
  { apply (rne_le_int _ _ _ HPr); [lia |].
    rewrite <- (Rmult_1_r (IZR (c1 - c2))) at 2.
    apply Rmult_le_compat_l; [apply (IZR_le 0); lia | lra]. }
  assert (Eval : SF2R (SFopp P) = (- SF2R P)%R).
  { destruct P as [s | s | | [] m e]; cbn [finite_nonneg] in HPf;
      try contradiction; cbn [SFopp negb]; [cbn [SF2R]; lra |].
    rewrite SF2R_neg. reflexivity. }
  destruct (SFadd_rne c1 (SFopp P) ltac:(lia)) as [Hf Hrne].
  - rewrite valid_binary_opp. exact HPv.
  - destruct P as [s | s | | [] m e]; cbn [finite_nonneg] in HPf;
      try contradiction; cbn [SFopp]; [exact I | exact HPe].
  - rewrite Eval.
    assert (IZR (c1 - c2) <= IZR c1)%R by (apply IZR_le; lia).
    assert (IZR c1 <= 1000)%R by (apply (IZR_le c1 1000); lia). lra.
  - split; [exact Hf |]. exists (SF2R P). split; [exact HPr |].
    rewrite Eval in Hrne. exact Hrne.
Qed.

(** The blend of two channels moves one way as the ratio grows. *)
Lemma lerp_mono (c1 c2 : Z) (r r' : float) :
  channel c1 -> channel c2 ->
  unit_ratio (Prim2SF r) -> unit_ratio (Prim2SF r') ->
  (SF2R (Prim2SF r) <= SF2R (Prim2SF r'))%R ->
  exists v v',
    lerp c1 c2 r = Ok v /\ lerp c1 c2 r' = Ok v' /\
    (c1 <= c2 -> v <= v') /\ (c2 <= c1 -> v' <= v).
Proof.
  intros H1 H2 Hr Hr' Hle. rewrite !lerp_blend by assumption.
  assert (Hfloor : forall f f' : float,
            finite_nonneg (Prim2SF f) -> finite_nonneg (Prim2SF f') ->
            exists v v', Py.int f = Ok v /\ Py.int f' = Ok v' /\
              ((SF2R (Prim2SF f) <= SF2R (Prim2SF f'))%R -> v <= v') /\
              ((SF2R (Prim2SF f') <= SF2R (Prim2SF f))%R -> v' <= v)).
  { intros f f' Hf Hf'.
    destruct (int_floor f Hf) as (v & Hv & Hb).
    destruct (int_floor f' Hf') as (v' & Hv' & Hb').
    exists v, v'. split; [exact Hv |]. split; [exact Hv' |].
    split; intros H.
    - assert (Hlt : (IZR v < IZR (v' + 1))%R) by (rewrite plus_IZR; lra).
      apply lt_IZR in Hlt. lia.
    - assert (Hlt : (IZR v' < IZR (v + 1))%R) by (rewrite plus_IZR; lra).
      apply lt_IZR in Hlt. lia. }
  destruct (Z_le_gt_dec c1 c2) as [Hup | Hdown].
  - destruct (blend_up c1 c2 r H1 H2 Hup Hr) as (Hf & p & Hp & Hs).
    destruct (blend_up c1 c2 r' H1 H2 Hup Hr') as (Hf' & p' & Hp' & Hs').
    destruct (Hfloor _ _ Hf Hf') as (v & v' & Hv & Hv' & Hle1 & Hle2).
    exists v, v'. split; [exact Hv |]. split; [exact Hv' |].
    assert (Hd : (0 <= IZR (c2 - c1))%R) by (apply (IZR_le 0); lia).
    split.
    + intros _. apply Hle1. apply (rne_mono _ _ _ _ Hs Hs').
      apply Rplus_le_compat_l. apply (rne_mono _ _ _ _ Hp Hp').
      apply Rmult_le_compat_l; assumption.
    + intros Hge. assert (E : c2 - c1 = 0) by lia. rewrite E in Hp, Hp'.
      apply Hle2. apply (rne_mono _ _ _ _ Hs' Hs).
      apply Rplus_le_compat_l. apply (rne_mono _ _ _ _ Hp' Hp). lra.
  - destruct (blend_down c1 c2 r H1 H2 ltac:(lia) Hr) as (Hf & p & Hp & Hs).
    destruct (blend_down c1 c2 r' H1 H2 ltac:(lia) Hr') as (Hf' & p' & Hp' & Hs').
    destruct (Hfloor _ _ Hf Hf') as (v & v' & Hv & Hv' & Hle1 & Hle2).
    exists v, v'. split; [exact Hv |]. split; [exact Hv' |].
    assert (Hd : (0 <= IZR (c1 - c2))%R) by (apply (IZR_le 0); lia).
    split; [lia |]. intros _. apply Hle2. apply (rne_mono _ _ _ _ Hs' Hs).
    apply Rplus_le_compat_l, Ropp_le_contravar.
    apply (rne_mono _ _ _ _ Hp Hp').
    apply Rmult_le_compat_l; assumption.
Qed.

Lemma SF2R_one : SF2R (Prim2SF 1) = 1%R.
Proof.
  change (Prim2SF 1) with (S754_finite false 4503599627370496 (-52)).
  cbn [SF2R cond_Zopp]. change 4503599627370496 with (2 ^ 52).
  rewrite <- (pow2_IZR 52) by lia. apply (pow2_opp 52).
Qed.

(** The ratio of a pixel as a real: zero at the center, at least
    [2^-54] elsewhere, at most 1, and growing with the distance. *)
Lemma gradient_ratio_value (size d d' : Z) :
  1 <= size / 2 < 2 ^ 52 -> 0 <= d <= d' -> d' < 2 ^ 53 ->
  unit_ratio (Prim2SF (gradient_ratio size d)) /\
  unit_ratio (Prim2SF (gradient_ratio size d')) /\
  (SF2R (Prim2SF (gradient_ratio size d))
   <= SF2R (Prim2SF (gradient_ratio size d')))%R.
Proof.
  intros Hh Hd Hd'.
  assert (Hmin : forall q : float,
            finite_nonneg (Prim2SF q) ->
            (pow2 (-54) <= SF2R (Prim2SF q))%R ->
            unit_ratio (Prim2SF (Py.min q 1)) /\
            (SF2R (Prim2SF (Py.min q 1)) <= SF2R (Prim2SF q))%R /\
            (SF2R (Prim2SF (Py.min q 1)) <= 1)%R /\
            (SF2R (Prim2SF q) <= 1 ->
             SF2R (Prim2SF (Py.min q 1)) = SF2R (Prim2SF q))%R /\
            (1 <= SF2R (Prim2SF q) ->
             SF2R (Prim2SF (Py.min q 1)) = 1)%R).
  { intros q Hq Hlow. unfold Py.min.
    pose proof (SFltb_value (Prim2SF 1) (Prim2SF q) (Prim2SF_valid 1)
                  (Prim2SF_valid q) I Hq) as L.
    rewrite <- FloatAxioms.ltb_spec, SF2R_one in L.
    destruct (1 <? q)%float.
    - rewrite SF2R_one. split.
      + change (Prim2SF 1) with (S754_finite false 4503599627370496 (-52)).
        cbn [unit_ratio]. pose proof SF2R_one as E1.
        change (Prim2SF 1) with (S754_finite false 4503599627370496 (-52)) in E1.
        cbn [SF2R cond_Zopp] in E1. rewrite E1.
        pose proof (pow2_le (-100) 0 ltac:(lia)). rewrite pow2_0 in *. lra.
      + repeat split; lra.
    - split; [| repeat split; lra].
      destruct (Prim2SF q) as [s | s | | [] m e]; cbn [finite_nonneg] in Hq;
        try contradiction; [exact I |].
      cbn [unit_ratio]. cbn [SF2R cond_Zopp] in L, Hlow.
      pose proof (pow2_le (-100) (-54) ltac:(lia)). lra. }
  assert (Hzero : forall s, Prim2SF (gradient_ratio size 0) = S754_zero s ->
            forall r, unit_ratio r -> (0 <= SF2R r)%R).
  { intros s _ r Hr. destruct r as [s' | s' | | [] m e]; cbn [unit_ratio] in Hr;
      try contradiction; cbn [SF2R cond_Zopp]; [lra |].
    pose proof (pow2_gt0 (-100)). lra. }
  assert (Hunit : forall k, 1 <= k < 2 ^ 53 ->
            unit_ratio (Prim2SF (gradient_ratio size k))).
  { intros k Hk.
    destruct (quotient_mono (size / 2) k k Hh ltac:(lia) ltac:(lia))
      as (F & _ & Hl & _).
    apply (Hmin _ F Hl). }
  assert (Hcenter : exists s, Prim2SF (gradient_ratio size 0) = S754_zero s).
  { pose proof (gradient_ratio_center size Hh) as H0.
    destruct (Prim2SF (gradient_ratio size 0)) as [s | s | | s m e];
      cbn [magnitude] in H0; try contradiction; [exists s; reflexivity |].
    exfalso. destruct H0 as (_ & He & H0).
    pose proof (pow2_pos (- e) ltac:(lia)). lia. }
  destruct (Z.eq_dec d 0) as [-> | Hd0].
  - destruct Hcenter as (s & E0).
    assert (Hu' : unit_ratio (Prim2SF (gradient_ratio size d'))).
    { destruct (Z.eq_dec d' 0) as [-> | N]; [rewrite E0; exact I |].
      apply Hunit. lia. }
    split; [rewrite E0; exact I |]. split; [exact Hu' |].
    rewrite E0 at 1. cbn [SF2R]. exact (Hzero s E0 _ Hu').
  - split; [apply Hunit; lia |]. split; [apply Hunit; lia |].
    destruct (quotient_mono (size / 2) d d' Hh ltac:(lia) Hd')
      as (F1 & F2 & Hl & Hq).
    unfold gradient_ratio.
    destruct (Hmin _ F1 Hl) as (_ & A1 & A2 & A3 & A4).
    destruct (Hmin _ F2 ltac:(lra)) as (_ & B1 & B2 & B3 & B4).
    destruct (Rle_lt_dec (SF2R (Prim2SF (sqrt (Z2F d') / (sqrt 2 * Z2F (size / 2)))))
                1) as [C | C].
    + rewrite (B3 C). lra.
    + rewrite (B4 ltac:(lra)). exact A2.
Qed.

Lemma between_step (c0 c1 v v' : Z) :
  (c0 <= c1 -> v <= v') -> (c1 <= c0 -> v' <= v) ->
  between c0 c1 v' -> between v c1 v'.
Proof. unfold between. lia. Qed.

(** X20. The colors of the gradient move one way from the center to
    the edge: of two pixels, the one farther from the center lies,
    channel by channel, between the nearer one and the edge color.
    No channel turns back on the way out. *)
Theorem create_radial_gradient_monotone (size : Z) (c0 c1 : color) :
  2 <= size <= 2 ^ 26 -> valid_color c0 -> valid_color c1 ->
  exists img,
    create_radial_gradient size c0 c1 = Ok img /\
    forall x y x' y',
      0 <= x < size -> 0 <= y < size -> 0 <= x' < size -> 0 <= y' < size ->
      (x - size / 2) ^ 2 + (y - size / 2) ^ 2
      <= (x' - size / 2) ^ 2 + (y' - size / 2) ^ 2 ->
      color_between (px img x y) c1 (px img x' y').
Proof.
  intros Hs Hc0 Hc1.
  destruct (gradient_image size c0 c1 Hs Hc0 Hc1) as (img & Hrun & _ & _ & Hpix).
  exists img. split; [exact Hrun |].
  intros x y x' y' Hx Hy Hx' Hy' Hle.
  destruct (dist2_bound size x y Hs Hx Hy) as [Hd Hh].
  destruct (dist2_bound size x' y' Hs Hx' Hy') as [Hd' _].
  destruct (Hpix x y Hx Hy) as [_ Hp]. destruct (Hpix x' y' Hx' Hy') as [Hu' Hp'].
  destruct (gradient_ratio_value size (dist2 size x y) (dist2 size x' y') Hh
              ltac:(unfold dist2 in *; lia) ltac:(lia)) as (Ur & Ur' & Hv).
  destruct (interpolate_color_unit c0 c1 _ Hc0 Hc1 Hu') as (c' & Hc' & Hb').
  rewrite Hp' in Hc'. injection Hc' as <-.
  revert Hp Hp' Hb' Ur Ur' Hv.
  generalize (gradient_ratio size (dist2 size x y))
             (gradient_ratio size (dist2 size x' y')).
  intros r r'. generalize (px img x y) (px img x' y').
  intros p p' Hp Hp' Hb' Ur Ur' Hv.
  destruct c0 as [[r0 g0] b0], c1 as [[r1 g1] b1].
  destruct Hc0 as (Hr0 & Hg0 & Hb0). destruct Hc1 as (Hr1 & Hg1 & Hb1).
  unfold interpolate_color in Hp, Hp'.
  destruct (lerp_mono r0 r1 r r' Hr0 Hr1 Ur Ur' Hv) as (vr & vr' & Er & Er' & Mr1 & Mr2).
  destruct (lerp_mono g0 g1 r r' Hg0 Hg1 Ur Ur' Hv) as (vg & vg' & Eg & Eg' & Mg1 & Mg2).
  destruct (lerp_mono b0 b1 r r' Hb0 Hb1 Ur Ur' Hv) as (vb & vb' & Eb & Eb' & Mb1 & Mb2).
  rewrite Er, Eg, Eb in Hp. rewrite Er', Eg', Eb' in Hp'. cbn [rbind] in Hp, Hp'.
  injection Hp as <-. injection Hp' as <-.
  destruct Hb' as (Br & Bg & Bb).
  split; [| split]; eapply between_step; eassumption.
Qed.

Lemma create_radial_gradient_monotone_witness :
  exists img,
    create_radial_gradient 4 (30, 41, 59) (15, 23, 42) = Ok img /\
    forall x y x' y',
      0 <= x < 4 -> 0 <= y < 4 -> 0 <= x' < 4 -> 0 <= y' < 4 ->
      (x - 4 / 2) ^ 2 + (y - 4 / 2) ^ 2 <= (x' - 4 / 2) ^ 2 + (y' - 4 / 2) ^ 2 ->
      color_between (px img x y) (15, 23, 42) (px img x' y').
Proof.
  apply (create_radial_gradient_monotone 4 (30, 41, 59) (15, 23, 42)).
  - change (2 ^ 26) with 67108864. lia.
  - cbn. unfold channel. lia.
  - cbn. unfold channel. lia.
Defined.

(** ** Blends in the order of their ratios *)

Lemma leb_value (r r' : float) :
  finite_nonneg (Prim2SF r) -> finite_nonneg (Prim2SF r') ->
  (r <=? r')%float = true -> (SF2R (Prim2SF r) <= SF2R (Prim2SF r'))%R.
Proof.
  intros Hr Hr'. rewrite leb_spec. unfold SFleb.
  pose proof (SFcompare_value _ _ (Prim2SF_valid r) (Prim2SF_valid r') Hr Hr') as H.
  destruct (SFcompare (Prim2SF r) (Prim2SF r')) as [[] |]; try discriminate;
    intros _; lra.
Qed.

(** Floats between two positive finite floats are positive and
    finite. *)
Lemma between_finite (mlo : positive) (elo : Z) (mhi : positive) (ehi : Z)
    (r r' : spec_float) :
  SFleb (S754_finite false mlo elo) r = true -> SFleb r r' = true ->
  SFleb r' (S754_finite false mhi ehi) = true ->
  (exists m e, r = S754_finite false m e) /\
  (exists m e, r' = S754_finite false m e).
Proof.
  unfold SFleb.
  destruct r as [s | [] | | [] m e]; cbn [SFcompare]; try discriminate;
    destruct r' as [s' | [] | | [] m' e']; cbn [SFcompare]; try discriminate.
  intros _ _ _. split; eexists; eexists; reflexivity.
Qed.

Lemma SF2R_tiny : SF2R (Prim2SF 0x1p-100) = pow2 (-100).
Proof.
  change (Prim2SF 0x1p-100) with (S754_finite false 4503599627370496 (-152)).
  cbn [SF2R cond_Zopp]. change 4503599627370496 with (2 ^ 52).
  rewrite <- (pow2_IZR 52), <- pow2_add by lia. reflexivity.
Qed.

Lemma unit_ratio_value (r : spec_float) :
  finite_nonneg r -> (pow2 (-100) <= SF2R r <= 1)%R -> unit_ratio r.
Proof.
  intros Hf H. destruct r as [s | s | | [] m e]; cbn [finite_nonneg] in Hf;
    try contradiction; [exact I |].
  exact H.
Qed.

Lemma interpolate_color_mono (c0 c1 : color) (r r' : float) :
  valid_color c0 -> valid_color c1 ->
  unit_ratio (Prim2SF r) -> unit_ratio (Prim2SF r') ->
  (SF2R (Prim2SF r) <= SF2R (Prim2SF r'))%R -> in_unit r' ->
  exists c c',
    interpolate_color c0 c1 r = Ok c /\ interpolate_color c0 c1 r' = Ok c' /\
    color_between c c1 c'.
Proof.
  intros Hc0 Hc1 Ur Ur' Hv Hu'.
  destruct (interpolate_color_unit c0 c1 _ Hc0 Hc1 Hu') as (c' & Hc' & Hb').
  revert Hc' Hb'.
  destruct c0 as [[r0 g0] b0], c1 as [[r1 g1] b1].
  destruct Hc0 as (Hr0 & Hg0 & Hb0). destruct Hc1 as (Hr1 & Hg1 & Hb1).
  unfold interpolate_color.
  destruct (lerp_mono r0 r1 r r' Hr0 Hr1 Ur Ur' Hv) as (vr & vr' & Er & Er' & Mr1 & Mr2).
  destruct (lerp_mono g0 g1 r r' Hg0 Hg1 Ur Ur' Hv) as (vg & vg' & Eg & Eg' & Mg1 & Mg2).
  destruct (lerp_mono b0 b1 r r' Hb0 Hb1 Ur Ur' Hv) as (vb & vb' & Eb & Eb' & Mb1 & Mb2).
  rewrite Er, Eg, Eb, Er', Eg', Eb'. cbn [rbind].
  intros E Hb'. injection E as <-. destruct Hb' as (Br & Bg & Bb).
  eexists. eexists. split; [reflexivity |]. split; [reflexivity |].
  split; [| split]; eapply between_step; eassumption.
Qed.

Lemma interpolate_color_mono_leb (c0 c1 : color) (r r' : float) :
  valid_color c0 -> valid_color c1 ->
  (r =? 0)%float = true \/ (0x1p-100 <=? r)%float = true ->
  (r <=? r')%float = true -> (r' <=? 1)%float = true ->
  exists c c',
    interpolate_color c0 c1 r = Ok c /\ interpolate_color c0 c1 r' = Ok c' /\
    color_between c c1 c'.
Proof.
  intros Hc0 Hc1 [Hz | Hlo] Hle Hhi.
  - rewrite FloatAxioms.eqb_spec in Hz. rewrite leb_spec in Hle.
    change (Prim2SF 0) with (S754_zero false) in Hz.
    assert (Hr : exists s, Prim2SF r = S754_zero s).
    { unfold SFeqb in Hz.
      destruct (Prim2SF r) as [s | s | | s m e]; cbn [SFcompare] in Hz;
        try discriminate Hz; try (exists s; reflexivity).
      all: destruct s; discriminate Hz. }
    destruct Hr as (s & Er).
    assert (Hm : magnitude false 0 0 (Prim2SF r)) by (rewrite Er; cbn; lia).
    destruct (interpolate_color_magnitude c0 c1 0 0 r Hc0 Hc1 ltac:(lia)
                ltac:(lia) Hm) as (c & Hc & _ & Hcz & _).
    rewrite (Hcz eq_refl) in Hc.
    assert (Hu' : in_unit r').
    { split; [| exact Hhi]. rewrite leb_spec.
      change (Prim2SF 0) with (S754_zero false).
      rewrite Er in Hle. unfold SFleb in *.
      destruct (Prim2SF r') as [s' | s' | | s' m' e']; cbn [SFcompare] in *;
        try discriminate Hle; try reflexivity; exact Hle. }
    destruct (interpolate_color_unit c0 c1 r' Hc0 Hc1 Hu') as (c' & Hc' & Hb').
    exists c0, c'. split; [exact Hc |]. split; [exact Hc' | exact Hb'].
  - assert (Hfin : finite_nonneg (Prim2SF r) /\ finite_nonneg (Prim2SF r')).
    { pose proof Hlo as A. pose proof Hle as B. pose proof Hhi as C.
      rewrite leb_spec in A, B, C.
      change (Prim2SF 0x1p-100) with (S754_finite false 4503599627370496 (-152)) in A.
      change (Prim2SF 1) with (S754_finite false 4503599627370496 (-52)) in C.
      destruct (between_finite _ _ _ _ _ _ A B C) as [(m & e & ->) (m' & e' & ->)].
      split; exact I. }
    destruct Hfin as [Hf Hf'].
    pose proof (leb_value 0x1p-100 r I Hf Hlo) as V1.
    pose proof (leb_value _ _ Hf Hf' Hle) as V2.
    pose proof (leb_value r' 1 Hf' I Hhi) as V3.
    rewrite SF2R_tiny in V1. rewrite SF2R_one in V3.
    pose proof (pow2_gt0 (-100)) as Hp.
    apply interpolate_color_mono; try assumption.
    + apply unit_ratio_value; [exact Hf | lra].
    + apply unit_ratio_value; [exact Hf' | lra].
    + split; [| exact Hhi]. rewrite leb_spec.
      apply SFleb_value; try apply Prim2SF_valid; try exact I; try assumption.
      change (Prim2SF 0) with (S754_zero false). cbn [SF2R]. lra.
Qed.

(** X21. [interpolate_color] is monotone in the ratio: for colors
    with channels in [0, 255] and ratios [r <= r' <= 1], where [r] is
    zero or at least [2^-100], the color at [r'] lies, channel by
    channel, between the color at [r] and the second color.  The two
    roundings and the truncation of a channel keep the order. *)
Theorem interpolate_color_monotone (c0 c1 : color) (r r' : float) :
  valid_color c0 -> valid_color c1 ->
  (r =? 0)%float = true \/ (0x1p-100 <=? r)%float = true ->
  (r <=? r')%float = true -> (r' <=? 1)%float = true ->
  exists c c',
    interpolate_color c0 c1 r = Ok c /\ interpolate_color c0 c1 r' = Ok c' /\
    color_between c c1 c'.
Proof. apply interpolate_color_mono_leb. Qed.

Lemma interpolate_color_monotone_witness :
  exists c c',
    interpolate_color (99, 102, 241) (34, 211, 238) 0.25 = Ok c /\
    interpolate_color (99, 102, 241) (34, 211, 238) 0.75 = Ok c' /\
    color_between c (34, 211, 238) c'.
Proof.
  apply (interpolate_color_monotone (99, 102, 241) (34, 211, 238) 0.25 0.75);
    try reflexivity; try (right; reflexivity); cbn; unfold channel; lia.
Defined.

(** ** The bar's gradient runs one way *)

Lemma forallb_range (n : Z) (f : Z -> bool) :
  forallb f (range n) = true -> forall i, 0 <= i < n -> f i = true.
Proof.
  intros H. apply (proj1 (Forall_range n (fun i => f i = true))).
  apply Forall_forall. intros i Hi. rewrite forallb_forall in H.
  apply H, list_elem_of_In, Hi.
Qed.

Lemma bar_ratios_ordered (i j : Z) :
  0 <= i -> i <= j -> j < bar_segments -> ratio_ordered i j = true.
Proof.
  intros Hi Hij Hj.
  assert (H : forallb (fun i => forallb (fun j => (j <? i) || ratio_ordered i j)
                                  (range bar_segments))
                (range bar_segments) = true) by (vm_compute; reflexivity).
  pose proof (forallb_range _ _ H i ltac:(lia)) as H1. cbv beta in H1.
  pose proof (forallb_range _ _ H1 j ltac:(lia)) as H2. cbv beta in H2.
  apply orb_true_iff in H2 as [H2 | H2]; [lia | exact H2].
Qed.

(** X22. The bar's gradient runs one way: of two pixels of the bar
    between its left end and the right plate, the color of the one
    further right lies, channel by channel, between the color of the
    other and the accent color. *)
Theorem draw_dumbbell_bar_gradient (img : image)
    (primary_color accent_color : color) :
  valid_color primary_color -> valid_color accent_color ->
  exists img',
    draw_dumbbell img primary_color accent_color = Ok img' /\
    forall x y x' y',
      inside img x y = true -> inside img x' y' = true ->
      bar_left <= x -> x <= x' -> x' < right_weight_left ->
      bar_top <= y <= bar_top + bar_height ->
      bar_top <= y' <= bar_top + bar_height ->
      color_between (px img' x y) accent_color (px img' x' y').
Proof.
  intros Hp Ha.
  destruct (bar_pixels img _ _ Hp Ha) as (img' & Hd & Hpx).
  exists img'. split; [exact Hd |].
  intros x y x' y' Hin Hin' Hx Hxx Hx' Hy Hy'.
  destruct (Hpx x y Hin ltac:(lia) Hy) as (r & c & Hr & Hc & <-).
  destruct (Hpx x' y' Hin' ltac:(lia) Hy') as (r' & c' & Hr' & Hc' & <-).
  change bar_left with 312 in *. change right_weight_left with 612 in *.
  assert (Hi : 0 <= (x - 312) / 20) by (apply Z.div_pos; lia).
  assert (Hij : (x - 312) / 20 <= (x' - 312) / 20)
    by (apply Z.div_le_mono; lia).
  assert (Hj : (x' - 312) / 20 < bar_segments).
  { change bar_segments with 20. apply Z.div_lt_upper_bound; lia. }
  pose proof (bar_ratios_ordered _ _ Hi Hij Hj) as Ho.
  unfold ratio_ordered in Ho. change (bar_segments - 1) with 19 in Ho.
  rewrite Hr, Hr' in Ho.
  apply andb_true_iff in Ho as [Ho Hhi].
  apply andb_true_iff in Ho as [Hlo Hle].
  apply orb_true_iff in Hlo.
  destruct (interpolate_color_mono_leb _ _ r r' Hp Ha Hlo Hle Hhi)
    as (d & d' & Hd1 & Hd2 & Hb).
  rewrite Hc in Hd1. rewrite Hc' in Hd2.
  injection Hd1 as <-. injection Hd2 as <-. exact Hb.
Qed.

Lemma draw_dumbbell_bar_gradient_witness :
  exists img',
    draw_dumbbell (mkImage 1024 1024 (fun _ _ => (60, 60, 60)))
      (99, 102, 241) (34, 211, 238) = Ok img' /\
    forall x y x' y',
      inside (mkImage 1024 1024 (fun _ _ => (60, 60, 60))) x y = true ->
      inside (mkImage 1024 1024 (fun _ _ => (60, 60, 60))) x' y' = true ->
      bar_left <= x -> x <= x' -> x' < right_weight_left ->
      bar_top <= y <= bar_top + bar_height ->
      bar_top <= y' <= bar_top + bar_height ->
      color_between (px img' x y) (34, 211, 238) (px img' x' y').
Proof.
  apply (draw_dumbbell_bar_gradient
           (mkImage 1024 1024 (fun _ _ => (60, 60, 60)))
           (99, 102, 241) (34, 211, 238));
    cbn; unfold channel; lia.
Defined.

(** * The gradient at every size [Image.new] accepts *)

(** Past [2^26] a squared distance can exceed [2^53], and its
    conversion to a float rounds. *)
Lemma dist2_range (size x y : Z) :
  2 <= size < 2 ^ 31 -> 0 <= x < size -> 0 <= y < size ->
  0 <= dist2 size x y < 2 ^ 62 /\ 1 <= size / 2 < 2 ^ 52.
Proof.
  intros Hs Hx Hy. unfold dist2.
  pose proof (Z.div_mod size 2 ltac:(lia)) as Hd.
  pose proof (Z.mod_pos_bound size 2 ltac:(lia)) as Hm.
  revert Hd Hm. generalize (size / 2) (size mod 2). intros h r Hd Hm.
  change (2 ^ 31) with 2147483648 in Hs.
  change (2 ^ 62) with 4611686018427387904.
  change (2 ^ 52) with 4503599627370496.
  rewrite !Z.pow_2_r. split; [| lia].
  assert (Ha : - 1073741824 <= x - h <= 1073741824) by lia.
  assert (Hb : - 1073741824 <= y - h <= 1073741824) by lia.
  revert Ha Hb. generalize (x - h) (y - h). intros a b Ha Hb.
  assert (0 <= a * a <= 1073741824 * 1073741824) by nia.
  assert (0 <= b * b <= 1073741824 * 1073741824) by nia.
  lia.
Qed.

(** [float(n)] of a positive integer below [2^62]: the rounding of
    [n]. *)
Lemma float_of_int_rounds (n : Z) :
  1 <= n < 2 ^ 62 ->
  exists m e,
    Py.float_of_int n = Ok (Z2F n) /\
    Prim2SF (Z2F n) = S754_finite false m e /\
    rne (IZR n) (IZR (Z.pos m) * pow2 e) /\
    (pow2 0 <= IZR (Z.pos m) * pow2 e <= pow2 62)%R.
Proof.
  intros Hn. destruct n as [| p | p]; try lia.
  assert (H62 : (IZR (Z.pos p) <= pow2 62)%R).
  { rewrite (pow2_IZR 62) by lia. apply IZR_le. lia. }
  destruct (binary_round_rne p 0) as (m & e & Hr & Hrne); [lia | |].
  { rewrite pow2_0, Rmult_1_r. apply Rle_trans with (1 := H62).
    apply pow2_le. lia. }
  rewrite pow2_0, Rmult_1_r in Hrne.
  assert (Hv : valid_binary (S754_finite false m e) = true).
  { rewrite <- Hr. apply (binary_normalize_valid (Z.pos p)).
    change (2 ^ 63) with (2 * 2 ^ 62). lia. }
  assert (R62 : rne (pow2 62) (pow2 62)).
  { replace (pow2 62) with (IZR (Z.pos 4503599627370496) * pow2 10)%R.
    - apply rne_float; [reflexivity | lia].
    - replace 62 with (52 + 10) by lia.
      rewrite pow2_add, (pow2_IZR 52) by lia. reflexivity. }
  exists m, e. unfold Py.float_of_int, Z2F. cbn [binary_normalize]. rewrite Hr.
  split; [reflexivity |]. split; [apply Prim2SF_SF2Prim, Hv |].
  split; [exact Hrne |]. split.
  - rewrite pow2_0. apply (rne_ge_int _ _ 1 Hrne); [lia |].
    apply (IZR_le 1). lia.
  - exact (rne_mono _ _ _ _ Hrne R62 H62).
Qed.

(** The square root of a float from 1 to [2^62]: the rounding of the
    exact root. *)
Lemma sqrt_rne (m : positive) (e : Z) :
  (pow2 0 <= IZR (Z.pos m) * pow2 e <= pow2 62)%R ->
  exists ms es,
    SF64sqrt (S754_finite false m e) = S754_finite false ms es /\
    rne (R_sqrt.sqrt (IZR (Z.pos m) * pow2 e)) (IZR (Z.pos ms) * pow2 es) /\
    (pow2 0 <= IZR (Z.pos ms) * pow2 es <= pow2 32)%R.
Proof.
  intros Hv. pose proof (binade_of_value m e 0 62 Hv) as Hb.
  pose proof (div2_bounds (Z.pos (digits2_pos m) + e + 1)) as H2.
  destruct (SFsqrt_rounds m e) as (q & e' & l & Hq & Hl & He & Hbin & Hs);
    [lia |].
  set (k := Z.div2 (Z.pos (digits2_pos m) + e + 1)) in *.
  assert (Hk : 1 <= k <= 32) by lia.
  destruct (binary_round_aux_rne _ k q e' l Hq Hl Hbin He ltac:(lia))
    as (ms & es & Hr & Hrne).
  destruct (binary_round_aux_value _ k q e' l Hq Hl Hbin He ltac:(lia))
    as (ms' & es' & Hr' & Hval).
  rewrite Hr in Hr'. injection Hr' as <- <-.
  exists ms, es. rewrite Hs. split; [exact Hr |]. split; [exact Hrne |].
  split.
  - apply Rle_trans with (2 := proj1 Hval). apply pow2_le. lia.
  - apply Rle_trans with (1 := proj2 Hval). apply pow2_le. lia.
Qed.

(** The quotient of a float from 1 to [2^32] by one from 1 to
    [2^53]: the rounding of the exact quotient. *)
Lemma div_rne (ms : positive) (es : Z) (mm : positive) (em : Z) :
  (pow2 0 <= IZR (Z.pos ms) * pow2 es <= pow2 32)%R ->
  (pow2 0 <= IZR (Z.pos mm) * pow2 em <= pow2 53)%R ->
  exists mq eq,
    SF64div (S754_finite false ms es) (S754_finite false mm em)
    = S754_finite false mq eq /\
    rne (IZR (Z.pos ms) * pow2 es / (IZR (Z.pos mm) * pow2 em))
        (IZR (Z.pos mq) * pow2 eq).
Proof.
  intros Hs Hm. apply binade_of_value in Hs, Hm.
  destruct (SFdiv_rounds ms es mm em)
    as (k & q & e & l & Hk & Hq & Hl & He & Hb & Hd); [lia |].
  destruct (binary_round_aux_rne _ k q e l Hq Hl Hb He ltac:(lia))
    as (mq & eq & Hr & Hrne).
  exists mq, eq. rewrite Hd. split; [exact Hr | exact Hrne].
Qed.

(** [math.sqrt(d)] for a squared distance below [2^62]. *)
Lemma sqrt_int_wide (d2 : Z) :
  0 <= d2 < 2 ^ 62 ->
  Py.sqrt_int d2 = Ok (sqrt (Z2F d2)) /\ nonneg_sf (Prim2SF (sqrt (Z2F d2))).
Proof.
  intros Hd. destruct (Z.eq_dec d2 0) as [-> | N].
  - split; reflexivity.
  - destruct (float_of_int_rounds d2 ltac:(lia)) as (m & e & Hf & HP & _).
    unfold Py.sqrt_int. rewrite Hf. cbn [rbind].
    replace (d2 <? 0) with false by (symmetry; apply Z.ltb_ge; lia).
    split; [reflexivity |]. rewrite sqrt_spec, HP. apply SFsqrt_nonneg.
    reflexivity.
Qed.

Lemma gradient_ratio_unit (size d2 : Z) :
  1 <= size / 2 < 2 ^ 52 -> 0 <= d2 < 2 ^ 62 ->
  magnitude false 0 1 (Prim2SF (gradient_ratio size d2)).
Proof.
  intros Hh Hd. unfold gradient_ratio. apply min_one_magnitude.
  destruct (max_dist_positive (size / 2) Hh) as (m & e & Hmax).
  rewrite div_spec, Hmax. apply (SFdiv_nonneg _ false).
  apply sqrt_int_wide. exact Hd.
Qed.

Lemma gradient_pixel_wide (size : Z) (c0 c1 : color) (x y : Z) :
  2 <= size < 2 ^ 31 -> 0 <= x < size -> 0 <= y < size ->
  gradient_pixel size c0 c1 (sqrt 2 * Z2F (size / 2)) x y
  = interpolate_color c0 c1 (gradient_ratio size (dist2 size x y)).
Proof.
  intros Hs Hx Hy. destruct (dist2_range size x y Hs Hx Hy) as [Hd Hh].
  unfold gradient_pixel, interpolate_color, gradient_ratio.
  destruct c0 as [[r0 g0] b0], c1 as [[r1 g1] b1].
  fold (dist2 size x y).
  destruct (sqrt_int_wide _ Hd) as [-> _]. cbn [rbind].
  destruct (max_dist_positive (size / 2) Hh) as (m & e & Hmax).
  unfold Py.fdiv. rewrite (is_zero_finite _ _ _ _ Hmax). reflexivity.
Qed.

(** The quotient [dist / max_dist] does not decrease when the squared
    distance grows: the conversion of the squared distance, the root
    and the quotient are each rounded to nearest, which keeps the
    order. *)
Lemma quotient_order (h d d' : Z) :
  1 <= h < 2 ^ 52 -> 1 <= d <= d' -> d' < 2 ^ 62 ->
  finite_nonneg (Prim2SF (sqrt (Z2F d) / (sqrt 2 * Z2F h))) /\
  finite_nonneg (Prim2SF (sqrt (Z2F d') / (sqrt 2 * Z2F h))) /\
  (SF2R (Prim2SF (sqrt (Z2F d) / (sqrt 2 * Z2F h)))
   <= SF2R (Prim2SF (sqrt (Z2F d') / (sqrt 2 * Z2F h))))%R.
Proof.
  intros Hh Hd Hd'. pose proof pow2_53 as P53.
  assert (P52 : 2 ^ 53 = 2 * 2 ^ 52) by reflexivity.
  (* the divisor *)
  destruct (magnitude_value h (2 * h) _ (max_dist_magnitude h Hh) ltac:(lia))
    as (mm & em & HM & HMv).
  rewrite HM in HMv. cbn [SF2R cond_Zopp] in HMv.
  set (VM := (IZR (Z.pos mm) * pow2 em)%R) in *.
  assert (HVM : (pow2 0 <= VM <= pow2 53)%R).
  { rewrite pow2_0, (pow2_IZR 53) by lia. split.
    - apply Rle_trans with (IZR h); [apply (IZR_le 1); lia | lra].
    - apply Rle_trans with (IZR (2 * h)); [lra | apply IZR_le; lia]. }
  assert (HVM0 : (0 < VM)%R) by (rewrite pow2_0 in HVM; lra).
  (* the two squared distances, their roots and the quotients *)
  destruct (float_of_int_rounds d ltac:(lia)) as (m1 & e1 & _ & HP1 & Hr1 & Hv1).
  destruct (float_of_int_rounds d' ltac:(lia)) as (m2 & e2 & _ & HP2 & Hr2 & Hv2).
  destruct (sqrt_rne m1 e1 Hv1) as (ms1 & es1 & HS1 & Hs1 & Hw1).
  destruct (sqrt_rne m2 e2 Hv2) as (ms2 & es2 & HS2 & Hs2 & Hw2).
  destruct (div_rne ms1 es1 mm em Hw1 HVM) as (mq1 & eq1 & HQ1 & Hq1).
  destruct (div_rne ms2 es2 mm em Hw2 HVM) as (mq2 & eq2 & HQ2 & Hq2).
  fold VM in Hq1, Hq2.
  assert (O1 : (IZR (Z.pos m1) * pow2 e1 <= IZR (Z.pos m2) * pow2 e2)%R).
  { apply (rne_mono _ _ _ _ Hr1 Hr2). apply IZR_le. lia. }
  assert (O2 : (IZR (Z.pos ms1) * pow2 es1 <= IZR (Z.pos ms2) * pow2 es2)%R).
  { apply (rne_mono _ _ _ _ Hs1 Hs2). apply sqrt_le_1_alt. exact O1. }
  assert (O3 : (IZR (Z.pos mq1) * pow2 eq1 <= IZR (Z.pos mq2) * pow2 eq2)%R).
  { apply (rne_mono _ _ _ _ Hq1 Hq2).
    apply Rmult_le_compat_r; [apply Rlt_le, Rinv_0_lt_compat; exact HVM0 |].
    exact O2. }
  rewrite !div_spec, !sqrt_spec, HP1, HP2, HM.
  fold (SF64sqrt (S754_finite false m1 e1)).
  fold (SF64sqrt (S754_finite false m2 e2)).
  rewrite HS1, HS2.
  fold (SF64div (S754_finite false ms1 es1) (S754_finite false mm em)).
  fold (SF64div (S754_finite false ms2 es2) (S754_finite false mm em)).
  rewrite HQ1, HQ2. split; [exact I |]. split; [exact I |].
  cbn [SF2R cond_Zopp]. exact O3.
Qed.

Lemma gradient_ratio_order (size d d' : Z) :
  1 <= size / 2 < 2 ^ 52 -> 0 <= d <= d' -> d' < 2 ^ 62 ->
  (gradient_ratio size d <=? gradient_ratio size d')%float = true.
Proof.
  intros Hh Hd Hd'.
  destruct (Z.eq_dec d 0) as [-> | Hd0].
  - pose proof (gradient_ratio_center size Hh) as H0.
    pose proof (gradient_ratio_unit size d' Hh ltac:(lia)) as H1.
    rewrite leb_spec.
    destruct (Prim2SF (gradient_ratio size 0)) as [s | s | | s m e];
      cbn [magnitude] in H0; try contradiction.
    + destruct (Prim2SF (gradient_ratio size d')) as [s' | s' | | s' m' e'];
        cbn [magnitude] in H1; try contradiction; [reflexivity |].
      destruct H1 as (-> & _). reflexivity.
    + exfalso. destruct H0 as (_ & He & H0).
      pose proof (pow2_pos (- e) ltac:(lia)). lia.
  - destruct (quotient_order (size / 2) d d' Hh ltac:(lia) Hd') as (F1 & F2 & H).
    unfold gradient_ratio. apply min_one_mono; assumption.
Qed.

(** The image [create_radial_gradient] returns at any accepted size:
    every pixel is the blend at the ratio of the pixel. *)
Lemma gradient_image_wide (size : Z) (c0 c1 : color) :
  2 <= size < 2 ^ 31 -> valid_color c0 -> valid_color c1 ->
  exists img,
    create_radial_gradient size c0 c1 = Ok img /\
    width img = size /\ height img = size /\
    forall x y, 0 <= x < size -> 0 <= y < size ->
      in_unit (gradient_ratio size (dist2 size x y)) /\
      interpolate_color c0 c1 (gradient_ratio size (dist2 size x y))
      = Ok (px img x y).
Proof.
  intros Hs Hc0 Hc1.
  set (f := fun x y =>
              match interpolate_color c0 c1 (gradient_ratio size (dist2 size x y)) with
              | Ok c => c
              | Raise _ => c0
              end).
  assert (Hpix : forall x y, 0 <= x < size -> 0 <= y < size ->
            in_unit (gradient_ratio size (dist2 size x y)) /\
            interpolate_color c0 c1 (gradient_ratio size (dist2 size x y))
            = Ok (f x y) /\
            valid_color (f x y)).
  { intros x y Hx Hy. destruct (dist2_range size x y Hs Hx Hy) as [Hd Hh].
    pose proof (gradient_ratio_unit size _ Hh Hd) as Hm.
    destruct (interpolate_color_magnitude c0 c1 0 1 _ Hc0 Hc1
                ltac:(lia) ltac:(lia) Hm) as (c & Hc & Hb & _).
    split; [apply magnitude_in_unit; exact Hm |].
    unfold f. rewrite Hc. split; [reflexivity |].
    apply (color_between_valid c0 c1); assumption. }
  clearbody f.
  destruct (dist2_range size 0 0 Hs ltac:(lia) ltac:(lia)) as [_ Hh].
  pose proof pow2_53 as P53.
  assert (P52 : 2 ^ 53 = 2 * 2 ^ 52) by reflexivity.
  unfold create_radial_gradient.
  rewrite Image_new_ok by (try assumption; lia).
  cbn [rbind]. rewrite sqrt_2. cbn [rbind].
  rewrite float_of_int_Z2F by lia. cbn [rbind].
  destruct (fill_rows (gradient_pixel size c0 c1 (sqrt 2 * Z2F (size / 2))) f
              (Z.to_nat size) (Z.to_nat size)
              (mkImage size size (fun _ _ => ink c0)))
    as (img & Hrun & Hw & Hh' & Hpx).
  { cbn [height]. lia. }
  { cbn [width]. lia. }
  { intros x y Hx Hy. rewrite gradient_pixel_wide by lia. apply Hpix; lia. }
  rewrite !Z2Nat.id in Hrun by lia.
  exists img. split; [exact Hrun |].
  split; [exact Hw |]. split; [exact Hh' |].
  intros x y Hx Hy. rewrite Hpx, !Z2Nat.id by lia.
  replace ((0 <=? y) && (y <? size) && (0 <=? x) && (x <? size)) with true
    by by_cases.
  destruct (Hpix x y Hx Hy) as (Hu & Hc & Hv).
  rewrite (ink_valid _ Hv). split; assumption.
Qed.

(** ** The gradient *)

(** C3, as the code has it: for a size from 2 up to the largest C
    [int], [2^31 - 1], and two colors with channels in [0, 255],
    [create_radial_gradient] returns an image of that size whose pixel
    [(x, y)] is the blend of the two colors at the ratio
    [min(dist / max_dist, 1.0)], computed in binary64 from the center
    [(size // 2, size // 2)]; that ratio lies in the unit interval; the
    center pixel is the center color; a pixel whose ratio is exactly 1
    is the edge color, which is the case of the corner (0, 0) at size
    1024; and the ratio does not decrease with the distance from the
    center. *)
Theorem create_radial_gradient_spec (size : Z) (c0 c1 : color) :
  2 <= size < 2 ^ 31 -> valid_color c0 -> valid_color c1 ->
  exists img,
    create_radial_gradient size c0 c1 = Ok img /\
    width img = size /\ height img = size /\
    (forall x y, 0 <= x < size -> 0 <= y < size ->
       in_unit (gradient_ratio size (dist2 size x y)) /\
       interpolate_color c0 c1 (gradient_ratio size (dist2 size x y))
       = Ok (px img x y)) /\
    px img (size / 2) (size / 2) = c0 /\
    (forall x y, 0 <= x < size -> 0 <= y < size ->
       gradient_ratio size (dist2 size x y) = 1%float -> px img x y = c1) /\
    (forall x y x' y',
       0 <= x < size -> 0 <= y < size -> 0 <= x' < size -> 0 <= y' < size ->
       dist2 size x y <= dist2 size x' y' ->
       (gradient_ratio size (dist2 size x y)
        <=? gradient_ratio size (dist2 size x' y'))%float = true) /\
    gradient_ratio 1024 (dist2 1024 0 0) = 1%float.
Proof.
  intros Hs Hc0 Hc1.
  destruct (gradient_image_wide size c0 c1 Hs Hc0 Hc1)
    as (img & Hrun & Hw & Hh' & Hpix).
  destruct (dist2_range size 0 0 Hs) as [_ Hh]; [lia .. |].
  exists img. split; [exact Hrun |].
  split; [exact Hw |]. split; [exact Hh' |].
  split; [exact Hpix |]. split; [| split; [| split]].
  - assert (Hx : 0 <= size / 2 < size).
    { pose proof (Z.div_mod size 2 ltac:(lia)).
      pose proof (Z.mod_pos_bound size 2 ltac:(lia)). lia. }
    destruct (Hpix _ _ Hx Hx) as (_ & Hc).
    assert (E : dist2 size (size / 2) (size / 2) = 0).
    { unfold dist2. rewrite Z.sub_diag. reflexivity. }
    rewrite E in Hc.
    destruct (interpolate_color_magnitude c0 c1 0 0 _ Hc0 Hc1
                ltac:(lia) ltac:(lia) (gradient_ratio_center size Hh))
      as (c & Hc' & _ & Hz & _).
    rewrite Hc in Hc'. injection Hc' as ->. apply Hz. reflexivity.
  - intros x y Hx Hy E.
    destruct (Hpix x y Hx Hy) as (Hu & Hc). rewrite E in Hc.
    destruct (interpolate_color_magnitude c0 c1 1 1 _ Hc0 Hc1
                ltac:(lia) ltac:(lia) magnitude_one)
      as (c & Hc' & _ & _ & H1).
    rewrite Hc in Hc'. injection Hc' as ->. apply H1. reflexivity.
  - intros x y x' y' Hx Hy Hx' Hy' Hle.
    destruct (dist2_range size x y Hs Hx Hy) as [Hd _].
    destruct (dist2_range size x' y' Hs Hx' Hy') as [Hd' _].
    apply gradient_ratio_order; [exact Hh | lia | lia].
  - vm_compute. reflexivity.
Qed.

Lemma create_radial_gradient_spec_witness :
  exists img,
    create_radial_gradient 4 (30, 41, 59) (15, 23, 42) = Ok img /\
    width img = 4 /\ height img = 4 /\
    (forall x y, 0 <= x < 4 -> 0 <= y < 4 ->
       in_unit (gradient_ratio 4 (dist2 4 x y)) /\
       interpolate_color (30, 41, 59) (15, 23, 42) (gradient_ratio 4 (dist2 4 x y))
       = Ok (px img x y)) /\
    px img (4 / 2) (4 / 2) = (30, 41, 59) /\
    (forall x y, 0 <= x < 4 -> 0 <= y < 4 ->
       gradient_ratio 4 (dist2 4 x y) = 1%float -> px img x y = (15, 23, 42)) /\
    (forall x y x' y',
       0 <= x < 4 -> 0 <= y < 4 -> 0 <= x' < 4 -> 0 <= y' < 4 ->
       dist2 4 x y <= dist2 4 x' y' ->
       (gradient_ratio 4 (dist2 4 x y)
        <=? gradient_ratio 4 (dist2 4 x' y'))%float = true) /\
    gradient_ratio 1024 (dist2 1024 0 0) = 1%float.
Proof.
  apply (create_radial_gradient_spec 4 (30, 41, 59) (15, 23, 42)).
  - change (2 ^ 31) with 2147483648. lia.
  - cbn. unfold channel. lia.
  - cbn. unfold channel. lia.
Defined.

(** C3, as the specification has it for every size, fails.  A
    negative size is refused by [Image.new], and so is a size past the
    largest C [int].  At size 1 the maximal distance is 0.0 and the
    first division raises.  At size 6 the corner (0, 0) lies at the
    corner distance, yet its ratio rounds below 1 and the pixel falls
    one short of the edge color. *)
Lemma create_radial_gradient_counterexample :
  create_radial_gradient (-1) (0, 0, 0) (255, 255, 255) = Raise ValueError /\
  create_radial_gradient (2 ^ 31) (0, 0, 0) (255, 255, 255) = Raise OverflowError /\
  create_radial_gradient 1 (0, 0, 0) (255, 255, 255) = Raise ZeroDivisionError /\
  dist2 6 0 0 = 2 * (6 / 2) ^ 2 /\
  (do img <- create_radial_gradient 6 (0, 0, 0) (255, 255, 255) ;
   Ok (px img 0 0)) = Ok (254, 254, 254).
Proof. repeat split; vm_compute; reflexivity. Qed.
